(** * SDRdaemon: a shallow embedding of the receive daemon and its wire format

    The development follows the sources of the repository:
    - [main.cpp]: the option parser helper [parse_int], the signal handler,
      the output thread [write_output_data] and the main loop of [main];
    - [include/Downsampler.h]: the declaration of the decimator;
    - the README: the packaging of samples into blocks and frames, the meta
      data block with its CRC32, and the Cauchy MDS block erasure code.

    Bytes are [Byte.byte] or bounded [N]/[Z], C strings are [list ascii]
    (the characters before the terminating NUL), machine integers are [Z]
    with their wrap-around written out. *)

From Stdlib Require Import Ascii String.
From Stdlib Require Import ZArith NArith Lia Bool Arith PeanoNat List.
From Stdlib Require Import Ring Field.
Import ListNotations.

(** ** [parse_int] of main.cpp *)

Module ParseInt.

Local Open Scope Z_scope.

(** A C string: the characters that precede the terminating NUL. *)
Definition cstring := list ascii.

Definition INT_MAX : Z := 2147483647.
Definition INT_MIN : Z := -2147483648.

(** [isspace] in the C locale. *)
Definition isspace (c : ascii) : bool :=
  let n := nat_of_ascii c in
  (Nat.eqb n 32 || (Nat.leb 9 n && Nat.leb n 13))%bool.

Definition isdigit (c : ascii) : bool :=
  let n := nat_of_ascii c in (Nat.leb 48 n && Nat.leb n 57)%bool.

Definition digit_val (c : ascii) : Z := Z.of_nat (nat_of_ascii c) - 48.

(** The longest prefix whose characters satisfy [p], and what follows it. *)
Fixpoint span (p : ascii -> bool) (s : cstring) : cstring * cstring :=
  match s with
  | [] => ([], [])
  | c :: s' =>
      if p c then let '(a, b) := span p s' in (c :: a, b) else ([], s)
  end.

(** Value of a run of decimal digits, most significant first. *)
Definition digits_val (ds : cstring) : Z :=
  fold_left (fun acc c => 10 * acc + digit_val c) ds 0.

Section Strtol.

(** The range of [long] is a property of the platform (LP64 or ILP32). *)
Variables LONG_MIN LONG_MAX : Z.

Definition clamp_long (t : Z) : Z :=
  if t <? LONG_MIN then LONG_MIN
  else if LONG_MAX <? t then LONG_MAX else t.

(** [strtol(s, &endp, 10)] of the C library: white space is skipped, an
    optional sign is read, then the longest run of decimal digits.  The
    result is the converted value (clamped to the range of [long]) and the
    number of characters consumed, that is [endp - s]; when no digit is
    found no conversion is performed, the value is 0 and [endp = s]. *)
Definition strtol (s : cstring) : Z * nat :=
  let '(ws, s1) := span isspace s in
  let '(neg, nsign, s2) :=
    match s1 with
    | c :: r =>
        if Ascii.eqb c "-" then (true, 1%nat, r)
        else if Ascii.eqb c "+" then (false, 1%nat, r)
        else (false, 0%nat, s1)
    | [] => (false, 0%nat, s1)
    end in
  let '(ds, _) := span isdigit s2 in
  match ds with
  | [] => (0, 0%nat)
  | _ :: _ =>
      let m := digits_val ds in
      (clamp_long (if neg then - m else m),
       (length ws + nsign + length ds)%nat)
  end.

(** [bool parse_int(const char *s, int& v, bool allow_unit)]: the result is
    the returned flag and the content of [v] after the call. *)
Definition parse_int (s : cstring) (v : Z) (allow_unit : bool) : bool * Z :=
  let '(t, n) := strtol s in
  if Nat.eqb n 0 then (false, v)                     (* endp == s *)
  else
    let endp := skipn n s in
    let '(t, endp) :=
      if (allow_unit
          && match endp with c :: _ => Ascii.eqb c "k" | [] => false end
          && (Z.quot INT_MIN 1000 <? t) && (t <? Z.quot INT_MAX 1000))%bool
      then (t * 1000, tl endp)
      else (t, endp) in
    if (match endp with [] => false | _ :: _ => true end
        || (t <? INT_MIN) || (INT_MAX <? t))%bool
    then (false, v)
    else (true, t).

End Strtol.

(** The LP64 data model of the 64-bit Linux targets. *)
Definition LP64_LONG_MIN : Z := - 2 ^ 63.
Definition LP64_LONG_MAX : Z := 2 ^ 63 - 1.

(** *** The accepted inputs, stated without reference to the code *)

Definition sign_of (sg : cstring) (m : Z) : Z :=
  match sg with
  | c :: _ => if Ascii.eqb c "-" then - m else m
  | [] => m
  end.

Definition is_sign (sg : cstring) : Prop :=
  sg = [] \/ sg = ["+"%char] \/ sg = ["-"%char].

(** A decimal numeral as [strtol] reads it: white space, an optional sign
    and at least one digit; [m] is the number it denotes. *)
Definition numeral (d : cstring) (m : Z) : Prop :=
  exists ws sg ds,
    d = ws ++ sg ++ ds /\
    forallb isspace ws = true /\ is_sign sg /\
    ds <> [] /\ forallb isdigit ds = true /\
    m = sign_of sg (digits_val ds).

(** The claim as worded: a decimal integer in the range of [int],
    optionally followed by [k] (times 1000) when units are allowed and the
    product does not overflow. *)
Definition claimed (s : cstring) (allow_unit : bool) (n : Z) : Prop :=
  exists d m, numeral d m /\ INT_MIN <= m <= INT_MAX /\
    ((s = d /\ n = m) \/
     (allow_unit = true /\ s = d ++ ["k"%char] /\ n = 1000 * m /\
      INT_MIN <= n <= INT_MAX)).

(** What the code accepts: the suffix is honoured only strictly inside
    [INT_MIN / 1000, INT_MAX / 1000]. *)
Definition accepted (s : cstring) (allow_unit : bool) (n : Z) : Prop :=
  exists d m, numeral d m /\
    ((s = d /\ n = m /\ INT_MIN <= m <= INT_MAX) \/
     (allow_unit = true /\ s = d ++ ["k"%char] /\ n = 1000 * m /\
      -2147483 < m < 2147483)).

(** *** Properties of [span] and [strtol] *)

Definition stops (p : ascii -> bool) (b : cstring) : Prop :=
  match b with [] => True | c :: _ => p c = false end.

Lemma span_app (p : ascii -> bool) (s a b : cstring) :
  span p s = (a, b) -> s = a ++ b /\ forallb p a = true /\ stops p b.
Proof.
  revert a b; induction s as [|c s IH]; intros a b; simpl.
  - intros [= <- <-]; simpl; auto.
  - destruct (p c) eqn:Hc.
    + destruct (span p s) as [a' b'] eqn:Hs.
      intros [= <- <-]. destruct (IH _ _ eq_refl) as (-> & Ha & Hb).
      simpl; rewrite Hc, Ha; auto.
    + intros [= <- <-]; simpl; auto.
Qed.

Lemma span_unique (p : ascii -> bool) (a b : cstring) :
  forallb p a = true -> stops p b -> span p (a ++ b) = (a, b).
Proof.
  induction a as [|c a IH]; simpl; intros Ha Hb.
  - destruct b as [|c b]; simpl in *; [reflexivity | now rewrite Hb].
  - apply andb_true_iff in Ha as [Hc Ha]. now rewrite Hc, IH.
Qed.

Lemma sign_cases (sg : cstring) :
  is_sign sg ->
  (sg = [] \/ exists c, sg = [c] /\ isspace c = false /\ isdigit c = false
                       /\ (c = "+"%char \/ c = "-"%char)).
Proof.
  intros [-> | [-> | ->]]; [now left | right ..];
    eexists; (split; [reflexivity|]); repeat split; auto.
Qed.

Lemma digit_not_sign (c : ascii) :
  isdigit c = true ->
  isspace c = false /\ Ascii.eqb c "-" = false /\ Ascii.eqb c "+" = false
  /\ Ascii.eqb c "k" = false.
Proof.
  intros H.
  assert (Hn : (48 <= nat_of_ascii c <= 57)%nat).
  { unfold isdigit in H. apply andb_true_iff in H as [H1 H2].
    apply Nat.leb_le in H1, H2. lia. }
  repeat split.
  - unfold isspace.
    destruct (Nat.eqb_spec (nat_of_ascii c) 32); [lia|].
    destruct (Nat.leb_spec 9 (nat_of_ascii c)); simpl; [|reflexivity].
    destruct (Nat.leb_spec (nat_of_ascii c) 13); [lia | reflexivity].
  - destruct (Ascii.eqb_spec c "-"); [subst; cbv in Hn; lia | reflexivity].
  - destruct (Ascii.eqb_spec c "+"); [subst; cbv in Hn; lia | reflexivity].
  - destruct (Ascii.eqb_spec c "k"); [subst; cbv in Hn; lia | reflexivity].
Qed.

Lemma skipn_prefix (a b : cstring) : skipn (length a) (a ++ b) = b.
Proof. induction a; simpl; auto. Qed.

Section StrtolFacts.

Variables LONG_MIN LONG_MAX : Z.

Lemma strtol_numeral (ws sg ds rest : cstring) :
  forallb isspace ws = true -> is_sign sg -> ds <> [] ->
  forallb isdigit ds = true -> stops isdigit rest ->
  strtol LONG_MIN LONG_MAX (ws ++ sg ++ ds ++ rest) =
  (clamp_long LONG_MIN LONG_MAX (sign_of sg (digits_val ds)),
   length (ws ++ sg ++ ds)).
Proof.
  intros Hws Hsg Hne Hds Hrest.
  destruct ds as [|d ds]; [congruence|].
  pose proof Hds as Hd; simpl in Hd; apply andb_true_iff in Hd as [Hd _].
  destruct (digit_not_sign _ Hd) as (Hsp & Hm & Hp & _).
  unfold strtol.
  rewrite (span_unique isspace ws (sg ++ (d :: ds) ++ rest) Hws).
  2:{ destruct (sign_cases sg Hsg) as [-> | (c & -> & Hc & _)]; simpl; auto. }
  rewrite !length_app.
  destruct (sign_cases sg Hsg) as [-> | (c & -> & _ & _ & [-> | ->])].
  - cbn [app]. rewrite Hm, Hp.
    change (d :: ds ++ rest) with ((d :: ds) ++ rest).
    rewrite (span_unique isdigit (d :: ds) rest Hds Hrest).
    cbn [sign_of length]. f_equal. lia.
  - cbn [app]. cbn [Ascii.eqb Bool.eqb].
    change (d :: ds ++ rest) with ((d :: ds) ++ rest).
    rewrite (span_unique isdigit (d :: ds) rest Hds Hrest).
    cbn [sign_of length Ascii.eqb Bool.eqb]. f_equal. lia.
  - cbn [app]. cbn [Ascii.eqb Bool.eqb].
    change (d :: ds ++ rest) with ((d :: ds) ++ rest).
    rewrite (span_unique isdigit (d :: ds) rest Hds Hrest).
    cbn [sign_of length Ascii.eqb Bool.eqb]. f_equal. lia.
Qed.

Lemma strtol_inv (s : cstring) (t : Z) (n : nat) :
  strtol LONG_MIN LONG_MAX s = (t, n) -> n <> 0%nat ->
  exists ws sg ds rest,
    s = ws ++ sg ++ ds ++ rest /\
    forallb isspace ws = true /\ is_sign sg /\ ds <> [] /\
    forallb isdigit ds = true /\ stops isdigit rest /\
    t = clamp_long LONG_MIN LONG_MAX (sign_of sg (digits_val ds)) /\
    n = length (ws ++ sg ++ ds).
Proof.
  unfold strtol. intros H Hn.
  destruct (span isspace s) as [ws s1] eqn:Hws.
  apply span_app in Hws as (-> & Hws & _).
  assert (Hgen : forall (neg : bool) nsign s2 sg,
             s1 = sg ++ s2 -> is_sign sg -> nsign = length sg ->
             (forall m : Z, (if neg then - m else m) = sign_of sg m) ->
             (let '(ds, _) := span isdigit s2 in
              match ds with
              | [] => (0, 0%nat)
              | _ :: _ =>
                  (clamp_long LONG_MIN LONG_MAX
                     (if neg then - digits_val ds else digits_val ds),
                   (length ws + nsign + length ds)%nat)
              end) = (t, n) ->
             exists ws0 sg0 ds rest,
               ws ++ s1 = ws0 ++ sg0 ++ ds ++ rest /\
               forallb isspace ws0 = true /\ is_sign sg0 /\ ds <> [] /\
               forallb isdigit ds = true /\ stops isdigit rest /\
               t = clamp_long LONG_MIN LONG_MAX (sign_of sg0 (digits_val ds)) /\
               n = length (ws0 ++ sg0 ++ ds)).
  { intros neg nsign s2 sg -> Hsg -> Hneg.
    destruct (span isdigit s2) as [ds rest] eqn:Hds.
    apply span_app in Hds as (-> & Hds & Hrest).
    destruct ds as [|d ds]; [intros [= <- <-]; congruence|].
    intros [= <- <-].
    exists ws, sg, (d :: ds), rest.
    repeat split; auto; try congruence.
    - now rewrite Hneg.
    - rewrite !length_app. simpl. lia. }
  destruct s1 as [|c r].
  - apply (Hgen false 0%nat [] []); auto; red; auto.
  - destruct (Ascii.eqb_spec c "-") as [-> | _].
    + apply (Hgen true 1%nat r ["-"%char]); auto; red; auto.
    + destruct (Ascii.eqb_spec c "+") as [-> | _].
      * apply (Hgen false 1%nat r ["+"%char]); auto; red; auto.
      * apply (Hgen false 0%nat (c :: r) []); auto; red; auto.
Qed.

Hypothesis long_below_int : LONG_MIN < INT_MIN.
Hypothesis long_above_int : INT_MAX < LONG_MAX.

Lemma clamp_long_id (m : Z) :
  INT_MIN <= clamp_long LONG_MIN LONG_MAX m <= INT_MAX ->
  clamp_long LONG_MIN LONG_MAX m = m.
Proof.
  unfold clamp_long.
  destruct (Z.ltb_spec m LONG_MIN); [lia|].
  destruct (Z.ltb_spec LONG_MAX m); lia.
Qed.

Lemma clamp_long_small (m : Z) :
  INT_MIN <= m <= INT_MAX -> clamp_long LONG_MIN LONG_MAX m = m.
Proof.
  unfold clamp_long. intros H.
  destruct (Z.ltb_spec m LONG_MIN); [lia|].
  destruct (Z.ltb_spec LONG_MAX m); lia.
Qed.

(** The code on an input that starts with a numeral. *)
Lemma parse_int_numeral (ws sg ds rest : cstring) (v : Z) (allow_unit : bool) :
  forallb isspace ws = true -> is_sign sg -> ds <> [] ->
  forallb isdigit ds = true -> stops isdigit rest ->
  let t := clamp_long LONG_MIN LONG_MAX (sign_of sg (digits_val ds)) in
  parse_int LONG_MIN LONG_MAX (ws ++ sg ++ ds ++ rest) v allow_unit =
  let '(t, endp) :=
    if (allow_unit
        && match rest with c :: _ => Ascii.eqb c "k" | [] => false end
        && (-2147483 <? t) && (t <? 2147483))%bool
    then (t * 1000, tl rest) else (t, rest) in
  if (match endp with [] => false | _ :: _ => true end
      || (t <? INT_MIN) || (INT_MAX <? t))%bool
  then (false, v) else (true, t).
Proof.
  intros Hws Hsg Hne Hds Hrest t.
  unfold parse_int.
  rewrite (strtol_numeral ws sg ds rest Hws Hsg Hne Hds Hrest).
  replace (ws ++ sg ++ ds ++ rest) with ((ws ++ sg ++ ds) ++ rest)
    by now rewrite <- !app_assoc.
  rewrite skipn_prefix.
  destruct (Nat.eqb_spec (length (ws ++ sg ++ ds)) 0) as [E|_].
  - rewrite !length_app in E. destruct ds; [congruence | simpl in E; lia].
  - reflexivity.
Qed.

(** On a rejected input the caller's variable is left as it was. *)
Lemma parse_int_false_unchanged (s : cstring) (v : Z) (allow_unit : bool) :
  fst (parse_int LONG_MIN LONG_MAX s v allow_unit) = false ->
  snd (parse_int LONG_MIN LONG_MAX s v allow_unit) = v.
Proof.
  unfold parse_int.
  destruct (strtol LONG_MIN LONG_MAX s) as [t n].
  destruct (Nat.eqb n 0); [reflexivity|].
  match goal with |- context [if ?c then (t * 1000, _) else _] =>
    destruct c end;
  match goal with |- context [if ?c then (false, v) else _] =>
    destruct c end; simpl; congruence.
Qed.

Lemma accepted_parse (s : cstring) (v : Z) (allow_unit : bool) (n : Z) :
  accepted s allow_unit n ->
  parse_int LONG_MIN LONG_MAX s v allow_unit = (true, n).
Proof.
  intros (d & m & (ws & sg & ds & -> & Hws & Hsg & Hne & Hds & ->) & H).
  unfold INT_MIN, INT_MAX in *.
  destruct H as [(-> & -> & Hr) | (-> & -> & -> & Hr)].
  - rewrite <- (app_nil_r ds) at 1.
    rewrite (parse_int_numeral ws sg ds [] v allow_unit) by (simpl; auto).
    rewrite clamp_long_small by (unfold INT_MIN, INT_MAX; lia).
    rewrite !andb_false_r, andb_false_l. cbn [orb].
    destruct (Z.ltb_spec (sign_of sg (digits_val ds)) INT_MIN);
      [unfold INT_MIN in *; lia|].
    destruct (Z.ltb_spec INT_MAX (sign_of sg (digits_val ds)));
      [unfold INT_MAX in *; lia | reflexivity].
  - rewrite <- !app_assoc.
    rewrite (parse_int_numeral ws sg ds ["k"%char] v true) by (simpl; auto).
    rewrite clamp_long_small by (unfold INT_MIN, INT_MAX; lia).
    set (m := sign_of sg (digits_val ds)) in *.
    cbn [andb Ascii.eqb Bool.eqb tl].
    destruct (Z.ltb_spec (-2147483) m); [|lia].
    destruct (Z.ltb_spec m 2147483); [|lia].
    cbn [andb orb].
    destruct (Z.ltb_spec (m * 1000) INT_MIN); [unfold INT_MIN in *; lia|].
    destruct (Z.ltb_spec INT_MAX (m * 1000)); [unfold INT_MAX in *; lia|].
    cbn [orb]. f_equal. lia.
Qed.

Lemma parse_accepted (s : cstring) (v : Z) (allow_unit : bool) (n : Z) :
  parse_int LONG_MIN LONG_MAX s v allow_unit = (true, n) ->
  accepted s allow_unit n.
Proof.
  intros H.
  destruct (strtol LONG_MIN LONG_MAX s) as [t k] eqn:Hst.
  destruct (Nat.eq_dec k 0) as [-> | Hk].
  { unfold parse_int in H. rewrite Hst in H. simpl in H. discriminate. }
  destruct (strtol_inv s t k Hst Hk)
    as (ws & sg & ds & rest & -> & Hws & Hsg & Hne & Hds & Hrest & Ht & _).
  rewrite (parse_int_numeral ws sg ds rest v allow_unit) in H by auto.
  rewrite <- Ht in H.
  set (m := sign_of sg (digits_val ds)) in *.
  assert (Hnum : numeral (ws ++ sg ++ ds) m).
  { exists ws, sg, ds. repeat split; auto. }
  match type of H with context [if ?c then (t * 1000, _) else _] =>
    destruct c eqn:Hc end.
  - apply andb_true_iff in Hc as [Hc H2]. apply andb_true_iff in Hc as [Hc H1].
    apply andb_true_iff in Hc as [Ha Hkk].
    apply Z.ltb_lt in H1, H2.
    destruct rest as [|c r]; [discriminate|].
    destruct (Ascii.eqb_spec c "k") as [-> | ]; [|discriminate].
    cbn [tl] in H. destruct r; [|discriminate].
    cbn [orb] in H.
    destruct ((t * 1000 <? INT_MIN) || (INT_MAX <? t * 1000))%bool;
      [discriminate|].
    injection H as <-.
    assert (t = m).
    { rewrite Ht. apply clamp_long_id. rewrite <- Ht.
      unfold INT_MIN, INT_MAX. lia. }
    subst t. exists (ws ++ sg ++ ds), m. split; [exact Hnum|].
    right. rewrite <- !app_assoc. repeat split; auto; lia.
  - destruct rest; [|discriminate]. cbn [orb] in H.
    destruct (Z.ltb_spec t INT_MIN); [discriminate|].
    destruct (Z.ltb_spec INT_MAX t); [discriminate|].
    injection H as <-.
    assert (t = m).
    { rewrite Ht. apply clamp_long_id. rewrite <- Ht. lia. }
    subst t. exists (ws ++ sg ++ ds), m. split; [exact Hnum|].
    left. rewrite !app_nil_r. repeat split; auto; lia.
Qed.

End StrtolFacts.

Definition cstr (s : string) : cstring := list_ascii_of_string s.

Example parse_int_rate :
  parse_int LP64_LONG_MIN LP64_LONG_MAX (cstr "48000") 0 true = (true, 48000).
Proof. reflexivity. Qed.

Example parse_int_unit :
  parse_int LP64_LONG_MIN LP64_LONG_MAX (cstr "48k") 0 true = (true, 48000).
Proof. reflexivity. Qed.

Example parse_int_unit_refused :
  parse_int LP64_LONG_MIN LP64_LONG_MAX (cstr "48k") 7 false = (false, 7).
Proof. reflexivity. Qed.

Example parse_int_list :
  parse_int LP64_LONG_MIN LP64_LONG_MAX (cstr "list") 0 false = (false, 0).
Proof. reflexivity. Qed.

Example parse_int_blank_sign :
  parse_int LP64_LONG_MIN LP64_LONG_MAX (cstr " +7") 0 false = (true, 7).
Proof. reflexivity. Qed.

Example parse_int_huge :
  parse_int LP64_LONG_MIN LP64_LONG_MAX
    (cstr "99999999999999999999999") 3 false = (false, 3).
Proof. reflexivity. Qed.

(** Where [long] is as wide as [int] (ILP32) the clamped result of
    [strtol] passes the range test. *)
Example parse_int_ilp32_clamped :
  parse_int INT_MIN INT_MAX (cstr "99999999999") 3 false = (true, INT_MAX).
Proof. reflexivity. Qed.

(** C10, as amended.  Where [long] is wider than [int], [parse_int] returns
    true with value [n] exactly on the inputs made of optional white space,
    an optional sign and at least one digit, denoting [m], that either end
    there with [m] in the range of [int] and [n = m], or, when units are
    allowed, end with a single [k] with [-2147483 < m < 2147483] and
    [n = 1000 * m]; whenever it returns false the variable keeps its
    value. *)
Theorem parse_int_accepted_iff (LONG_MIN LONG_MAX : Z) :
  LONG_MIN < INT_MIN -> INT_MAX < LONG_MAX ->
  forall (s : cstring) (v : Z) (allow_unit : bool),
    (forall n, parse_int LONG_MIN LONG_MAX s v allow_unit = (true, n)
               <-> accepted s allow_unit n) /\
    (fst (parse_int LONG_MIN LONG_MAX s v allow_unit) = false ->
     snd (parse_int LONG_MIN LONG_MAX s v allow_unit) = v).
Proof.
  intros Hlo Hhi s v allow_unit. split.
  - intros n. split.
    + apply parse_accepted; assumption.
    + apply accepted_parse; assumption.
  - apply parse_int_false_unchanged.
Qed.

Lemma parse_int_accepted_iff_witness :
  LP64_LONG_MIN < INT_MIN /\ INT_MAX < LP64_LONG_MAX /\
  ((forall n, parse_int LP64_LONG_MIN LP64_LONG_MAX (cstr "-12k") 5 true
              = (true, n) <-> accepted (cstr "-12k") true n) /\
   (fst (parse_int LP64_LONG_MIN LP64_LONG_MAX (cstr "-12k") 5 true) = false ->
    snd (parse_int LP64_LONG_MIN LP64_LONG_MAX (cstr "-12k") 5 true) = 5)).
Proof.
  split; [reflexivity|]. split; [reflexivity|].
  apply (parse_int_accepted_iff LP64_LONG_MIN LP64_LONG_MAX); reflexivity.
Defined.

(** C10 as worded fails: [2147483k] is a decimal integer in the range of
    [int] followed by [k], the product 2147483000 does not overflow, units
    are allowed, and yet the call returns false. *)
Lemma parse_int_claim_fails :
  claimed (cstr "2147483k") true 2147483000 /\
  parse_int LP64_LONG_MIN LP64_LONG_MAX (cstr "2147483k") 0 true = (false, 0).
Proof.
  split; [|reflexivity].
  exists (cstr "2147483"), 2147483. split.
  - exists [], [], (cstr "2147483").
    repeat split; try reflexivity; [left; reflexivity | discriminate].
  - split; [unfold INT_MIN, INT_MAX; lia|].
    right. repeat split; unfold INT_MIN, INT_MAX; try reflexivity; lia.
Qed.

End ParseInt.

(** ** The decimator declared in include/Downsampler.h *)

Module Downsample.

Local Open Scope Z_scope.

(** An IQ sample is a pair (I, Q) of signed integers; a sample vector is
    the sequence of samples in temporal order. *)
Definition IQSample : Type := (Z * Z)%type.
Definition IQSampleVector : Type := list IQSample.

(** Center frequency relative position when downsampling. *)
Inductive fcPos_t : Type :=
  | FC_POS_INFRA
  | FC_POS_SUPRA
  | FC_POS_CENTER.

(** The object as the header declares it: two private members and nothing
    else; there is no member function that changes them. *)
Record Downsampler : Type := mkDownsampler {
  m_decim : N;          (* log2 of decimation factor *)
  m_fcPos : fcPos_t     (* position of center frequency *)
}.

(** [Downsampler(unsigned int decim = 0, fcPos_t fcPos = FC_POS_CENTER)]
    with both default arguments. *)
Definition Downsampler_default : Downsampler := mkDownsampler 0 FC_POS_CENTER.

(** Multiplication of a sample by (-j)^k: the four phases
    (I,Q), (Q,-I), (-I,-Q), (-Q,I). *)
Definition rot (k : nat) (s : IQSample) : IQSample :=
  let '(i, q) := s in
  match (k mod 4)%nat with
  | 0%nat => (i, q)
  | 1%nat => (q, - i)
  | 2%nat => (- i, - q)
  | _ => (- q, i)
  end.

(** Fs/4 mixer: sample number [n] is rotated by [step * n] quarter turns. *)
Fixpoint mix_from (step n : nat) (v : IQSampleVector) : IQSampleVector :=
  match v with
  | [] => []
  | s :: v' => rot (step * n) s :: mix_from step (S n) v'
  end.

Definition translate (fc : fcPos_t) (v : IQSampleVector) : IQSampleVector :=
  match fc with
  | FC_POS_INFRA => mix_from 1 0 v     (* by -Fs/4 *)
  | FC_POS_SUPRA => mix_from 3 0 v     (* by +Fs/4 *)
  | FC_POS_CENTER => v
  end.

(** The two polyphase components of a vector: consecutive samples paired;
    a dangling last sample is dropped. *)
Fixpoint pairs (v : IQSampleVector) : list (IQSample * IQSample) :=
  match v with
  | a :: b :: r => (a, b) :: pairs r
  | _ => []
  end.

Section Halfband.

(** The kernel of the filtering arm and its fixed-point scale are left to
    the implementation. *)
Variable hb_kernel : list Z.
Variable hb_shift : Z.

(** Output [m] of the FIR arm: the kernel applied to the samples up to
    [m], with silence before the start of the vector. *)
Definition fir_at (x : list Z) (m : nat) : Z :=
  fold_left Z.add
    (map (fun kc : nat * Z =>
            if (fst kc <=? m)%nat then snd kc * nth (m - fst kc) x 0 else 0)
         (combine (seq 0 (length hb_kernel)) hb_kernel))
    0.

Definition fir (x : list Z) : list Z := map (fir_at x) (seq 0 (length x)).

(** The identity arm: a pure delay of half the kernel length. *)
Definition delay_arm (x : list Z) : list Z :=
  firstn (length x) (repeat 0 (Nat.div2 (length hb_kernel)) ++ x).

Definition hb_out (e f : Z) : Z :=
  Z.shiftr (Z.shiftl e (hb_shift - 1) + f) hb_shift.

(** Modelled from the spec: the body of [Downsampler::process] is not in
    the header, the spec gives it as a cascade of two-path half-band
    decimators.  One stage: the even samples go through the delay arm, the
    odd ones through the kernel arm, and the two are summed. *)
Definition halfband (v : IQSampleVector) : IQSampleVector :=
  let ps := pairs v in
  let ev := map fst ps in
  let od := map snd ps in
  combine
    (map (fun p => hb_out (fst p) (snd p))
         (combine (delay_arm (map fst ev)) (fir (map fst od))))
    (map (fun p => hb_out (fst p) (snd p))
         (combine (delay_arm (map snd ev)) (fir (map snd od)))).

(** Modelled from the spec: [void process(const IQSampleVector& samples_in,
    IQSampleVector& samples_out)], given by the spec as: factor 0 is a
    pass-through; otherwise the Fs/4 translation selected by the position
    of the center frequency, then one half-band stage per unit of the log2
    factor.  The result is the content of [samples_out] after the call. *)
Definition process (d : Downsampler) (samples_in : IQSampleVector)
  : IQSampleVector :=
  if N.eqb (m_decim d) 0 then samples_in
  else N.iter (m_decim d) halfband (translate (m_fcPos d) samples_in).

End Halfband.

Lemma length_pairs (v : IQSampleVector) :
  length (pairs v) = Nat.div2 (length v).
Proof.
  induction v as [v IH] using (well_founded_induction
    (Wf_nat.well_founded_ltof _ (@length IQSample))).
  destruct v as [|a [|b r]]; try reflexivity.
  simpl. f_equal. apply IH. unfold Wf_nat.ltof. simpl. lia.
Qed.

Lemma length_mix_from (step n : nat) (v : IQSampleVector) :
  length (mix_from step n v) = length v.
Proof. revert n; induction v; intros; simpl; auto. Qed.

Lemma length_translate (fc : fcPos_t) (v : IQSampleVector) :
  length (translate fc v) = length v.
Proof. destruct fc; simpl; auto using length_mix_from. Qed.

Lemma length_fir (h x : list Z) : length (fir h x) = length x.
Proof. unfold fir. now rewrite length_map, length_seq. Qed.

Lemma length_delay_arm (h x : list Z) : length (delay_arm h x) = length x.
Proof.
  unfold delay_arm. rewrite length_firstn, length_app, repeat_length.
  apply Nat.min_l, Nat.le_add_l.
Qed.

Lemma length_halfband (h : list Z) (sh : Z) (v : IQSampleVector) :
  length (halfband h sh v) = Nat.div2 (length v).
Proof.
  unfold halfband, IQSampleVector, IQSample in *. cbv zeta.
  repeat (rewrite ?length_combine, ?length_map, ?length_delay_arm,
            ?length_fir, ?length_pairs).
  now rewrite !Nat.min_id.
Qed.

Lemma length_iter_halfband (h : list Z) (sh : Z) (n : N) (v : IQSampleVector) :
  N.of_nat (length (N.iter n (halfband h sh) v)) =
  N.shiftr (N.of_nat (length v)) n.
Proof.
  induction n as [|n IH] using N.peano_ind.
  - now rewrite N.shiftr_0_r.
  - rewrite N.iter_succ, length_halfband, Nat2N.inj_div2, IH.
    now rewrite N.shiftr_succ_r.
Qed.

(** General form of the length contract, for every log2 factor. *)
Lemma length_process (h : list Z) (sh : Z) (d : Downsampler)
  (samples_in : IQSampleVector) :
  N.of_nat (length (process h sh d samples_in)) =
  N.shiftr (N.of_nat (length samples_in)) (m_decim d).
Proof.
  unfold process. destruct (N.eqb_spec (m_decim d) 0) as [E|_].
  - now rewrite E, N.shiftr_0_r.
  - now rewrite length_iter_halfband, length_translate.
Qed.

(** C4.  For every input vector and every log2 factor in [0, 6] the output
    of [process] has [len(in) >> decim] samples, and with factor 0 the
    output is the input. *)
Theorem process_length_passthrough (h : list Z) (sh : Z) (decim : N)
  (fc : fcPos_t) (samples_in : IQSampleVector) :
  (0 <= decim <= 6)%N ->
  N.of_nat (length (process h sh (mkDownsampler decim fc) samples_in)) =
    N.shiftr (N.of_nat (length samples_in)) decim /\
  process h sh (mkDownsampler 0 fc) samples_in = samples_in.
Proof.
  intros _. split.
  - apply (length_process h sh (mkDownsampler decim fc)).
  - reflexivity.
Qed.

(** A sample kernel (sum 64, scale 2^7) for the examples. *)
Definition kernel6 : list Z := [3; -10; 39; 39; -10; 3].

Definition tone (n : nat) : IQSampleVector := repeat (100, 0) n.

Example process_dc_tone :
  process kernel6 7 (mkDownsampler 1 FC_POS_CENTER) (tone 24)
  = [(2, 0); (-6, 0); (25, 0); (105, 0); (97, 0); (100, 0); (100, 0);
     (100, 0); (100, 0); (100, 0); (100, 0); (100, 0)].
Proof. vm_compute. reflexivity. Qed.

Example process_infra_odd_length :
  length (process kernel6 7 (mkDownsampler 2 FC_POS_INFRA) (tone 41)) = 10%nat.
Proof. vm_compute. reflexivity. Qed.

Lemma process_length_passthrough_witness :
  (0 <= 2 <= 6)%N /\
  (N.of_nat (length (process kernel6 7
                       (mkDownsampler 2 FC_POS_INFRA) (tone 41))) =
     N.shiftr (N.of_nat (length (tone 41))) 2 /\
   process kernel6 7 (mkDownsampler 0 FC_POS_INFRA) (tone 41) = tone 41).
Proof.
  split; [lia|].
  apply (process_length_passthrough kernel6 7 2 FC_POS_INFRA (tone 41)); lia.
Defined.

End Downsample.

(** ** The sample buffer between threads *)

Module DataBuf.

Import Downsample.

(** Modelled from the spec: [DataBuffer.h] is not among the sources; the
    spec gives the buffer as a FIFO of sample vectors with an
    end-of-stream mark. *)
Record DataBuffer : Type := mkDataBuffer {
  m_queue : list IQSampleVector;
  m_end_marked : bool
}.

Definition empty_buffer : DataBuffer := mkDataBuffer [] false.

(** Modelled from the spec: [push(vector)] appends at the tail. *)
Definition push (v : IQSampleVector) (b : DataBuffer) : DataBuffer :=
  mkDataBuffer (m_queue b ++ [v]) (m_end_marked b).

(** Modelled from the spec: [push_end()] signals the end of the stream. *)
Definition push_end (b : DataBuffer) : DataBuffer :=
  mkDataBuffer (m_queue b) true.

(** Modelled from the spec: [queued_samples()] counts samples, not
    vectors. *)
Definition queued_samples (b : DataBuffer) : N :=
  fold_right (fun v acc => (N.of_nat (length v) + acc)%N) 0%N (m_queue b).

(** Modelled from the spec: [pull()] blocks until a vector is available or
    end is signalled; on end it returns an empty vector.  [None] stands for
    a call that has not returned yet. *)
Definition pull (b : DataBuffer) : option (IQSampleVector * DataBuffer) :=
  match m_queue b with
  | v :: q => Some (v, mkDataBuffer q (m_end_marked b))
  | [] => if m_end_marked b then Some ([], b) else None
  end.

(** Modelled from the spec: [pull_end_reached()], used by the output
    thread: the end is signalled and nothing is left to pull. *)
Definition pull_end_reached (b : DataBuffer) : bool :=
  match m_queue b with
  | [] => m_end_marked b
  | _ :: _ => false
  end.

(** Modelled from the spec: [wait_buffer_fill(minfill)] blocks until the
    queued-sample count reaches the fill level (or the end is signalled);
    the result tells whether the call returns in this state. *)
Definition wait_buffer_fill (minfill : N) (b : DataBuffer) : bool :=
  (N.leb minfill (queued_samples b) || m_end_marked b)%bool.

End DataBuf.

(** ** The threads of main.cpp *)

Module Daemon.

Import Downsample DataBuf.
Local Open Scope Z_scope.

(** What the process does that can be observed, plus two ghost records
    ([EvCheck], [EvIter]) that keep what a loop iteration has seen. *)
Inductive event : Type :=
  | EvSignal (sig : Z)            (* "Got signal ..., stopping ..." *)
  | EvCheck (queued : N)          (* ghost: queue length at the overflow check *)
  | EvWarn                        (* "WARNING: Input buffer is growing" *)
  | EvIter (blk : Z) (iq out : IQSampleVector)   (* ghost: dn.process ran *)
  | EvPush (v : IQSampleVector)   (* output_buffer.push *)
  | EvWrite (v : IQSampleVector)  (* UDPSink::write *)
  | EvDevStop                     (* up_srcsdr->stop() *)
  | EvPushEnd                     (* output_buffer.push_end() *)
  | EvJoin                        (* output_thread.join() returned *)
  | EvReturn (code : Z)           (* the [return] statement of main *)
  | EvDeleteSource                (* [~unique_ptr<Source>]: delete srcsdr *)
  | EvDeleteAutomatic.            (* [~unique_ptr<UDPSink>]: delete of the
                                     automatic udp_output_instance *)

(** How the process has ended: by [exit] with a status, or in undefined
    behaviour.  [main] declares [UDPSink udp_output_instance(dataport);
    std::unique_ptr<UDPSink> udp_output(&udp_output_instance);].  At
    [return 0] the locals of [main] are destroyed in the reverse order of
    their declaration: the joined thread object, the buffers and the
    decimator, [up_srcsdr], which deletes the source, and then
    [udp_output], whose [~unique_ptr] calls [delete] on an object that was
    not allocated by [new]: the behaviour of the process is undefined from
    there on, and [exit(0)] is not reached. *)
Inductive ending : Type :=
  | Status (code : Z)
  | Undefined.

(** Program points of [main] from the main loop on. *)
Inductive main_pc : Type :=
  | M_Cond      (* for (...; !stop_flag.load(); ...) *)
  | M_Check     (* check for overflow of source buffer *)
  | M_Pull      (* source_buffer.pull() and the rest of the body *)
  | M_Stop      (* up_srcsdr->stop() *)
  | M_PushEnd   (* output_buffer.push_end() *)
  | M_Join      (* output_thread.join() *)
  | M_Returned. (* return 0, and the destructors of the locals of main *)

(** Program points of [write_output_data]. *)
Inductive out_pc : Type :=
  | O_Cond      (* while (!stop_flag.load()) *)
  | O_Fill      (* if (buf->queued_samples() == 0) *)
  | O_Wait      (* buf->wait_buffer_fill(buf_minfill) *)
  | O_EndCheck  (* if (buf->pull_end_reached()) break *)
  | O_Pull      (* buf->pull(); output->write(samples) *)
  | O_Done.     (* the thread function has returned *)

Record sys : Type := mkSys {
  stop_flag : bool;                 (* static std::atomic_bool stop_flag *)
  source_buffer : DataBuffer;
  output_buffer : DataBuffer;
  dn : Downsampler;
  dev_config : ParseInt.cstring;    (* what srcsdr->configure received *)
  dev_running : bool;
  block : Z;                        (* unsigned int block *)
  inbuf_length_warning : bool;
  outsamples : IQSampleVector;
  mpc : main_pc;
  opc : out_pc;
  exit_code : option ending;        (* how the process has ended, if it has *)
  trace : list event                (* newest first *)
}.

(** [unsigned int outputbuf_samples = 250000; // arbitrary] *)
Definition outputbuf_samples : Z := 250000.

Definition UINT_MOD : Z := 2 ^ 32.

(** What happens outside the two threads of main.cpp: a signal reaches
    [handle_sigterm], the device thread pushes a vector into the source
    buffer or signals its end. *)
Inductive env_event : Type :=
  | Signal (sig : Z)
  | DevPush (v : IQSampleVector)
  | DevEnd.

Inductive action : Type :=
  | Main
  | Out
  | Env (e : env_event).

Definition set_main (s : sys) (pc : main_pc) (evs : list event) : sys :=
  mkSys (stop_flag s) (source_buffer s) (output_buffer s) (dn s)
        (dev_config s) (dev_running s) (block s) (inbuf_length_warning s)
        (outsamples s) pc (opc s) (exit_code s) (evs ++ trace s).

Definition set_out (s : sys) (pc : out_pc) : sys :=
  mkSys (stop_flag s) (source_buffer s) (output_buffer s) (dn s)
        (dev_config s) (dev_running s) (block s) (inbuf_length_warning s)
        (outsamples s) (mpc s) pc (exit_code s) (trace s).

Section Run.

(** The kernel of the decimator and [ifrate = srcsdr->get_sample_rate()],
    an integral number of Hz. *)
Variable hb_kernel : list Z.
Variable hb_shift : Z.
Variable ifrate : Z.

(** The state when the main loop is entered: the configuration string has
    gone to [srcsdr->configure], the device streams, [Downsampler dn] is
    default-constructed, and the output thread runs if buffering is on. *)
Definition init (config_str : ParseInt.cstring) : sys :=
  mkSys false empty_buffer empty_buffer Downsampler_default config_str true
        0 false [] M_Cond (if 0 <? outputbuf_samples then O_Cond else O_Done)
        None [].

(** One atomic step of the main thread.  A step that cannot be taken (a
    blocked [pull] or [join]) leaves the state as it is. *)
Definition main_step (s : sys) : sys :=
  match mpc s with
  | M_Cond =>
      if stop_flag s then set_main s M_Stop [] else set_main s M_Check []
  | M_Check =>
      let q := queued_samples (source_buffer s) in
      if (negb (inbuf_length_warning s) && (10 * ifrate <? Z.of_N q))%bool
      then
        mkSys (stop_flag s) (source_buffer s) (output_buffer s) (dn s)
              (dev_config s) (dev_running s) (block s) true
              (outsamples s) M_Pull (opc s) (exit_code s)
              (EvWarn :: EvCheck q :: trace s)
      else set_main s M_Pull [EvCheck q]
  | M_Pull =>
      match pull (source_buffer s) with
      | None => s
      | Some (iqsamples, src') =>
          match iqsamples with
          | [] =>
              mkSys (stop_flag s) src' (output_buffer s) (dn s)
                    (dev_config s) (dev_running s) (block s)
                    (inbuf_length_warning s) (outsamples s) M_Stop (opc s)
                    (exit_code s) (trace s)
          | _ :: _ =>
              let out := process hb_kernel hb_shift (dn s) iqsamples in
              let blk' := (block s + 1) mod UINT_MOD in
              if 0 <? block s then
                if 0 <? outputbuf_samples then
                  (* output_buffer.push(move(outsamples)) *)
                  mkSys (stop_flag s) src' (push out (output_buffer s)) (dn s)
                        (dev_config s) (dev_running s) blk'
                        (inbuf_length_warning s) [] M_Cond (opc s)
                        (exit_code s)
                        (EvPush out :: EvIter (block s) iqsamples out
                           :: trace s)
                else
                  (* udp_output->write(outsamples) *)
                  mkSys (stop_flag s) src' (output_buffer s) (dn s)
                        (dev_config s) (dev_running s) blk'
                        (inbuf_length_warning s) out M_Cond (opc s)
                        (exit_code s)
                        (EvWrite out :: EvIter (block s) iqsamples out
                           :: trace s)
              else
                (* throw away first block *)
                mkSys (stop_flag s) src' (output_buffer s) (dn s)
                      (dev_config s) (dev_running s) blk'
                      (inbuf_length_warning s) out M_Cond (opc s)
                      (exit_code s)
                      (EvIter (block s) iqsamples out :: trace s)
          end
      end
  | M_Stop =>
      mkSys (stop_flag s) (source_buffer s) (output_buffer s) (dn s)
            (dev_config s) false (block s) (inbuf_length_warning s)
            (outsamples s)
            (if 0 <? outputbuf_samples then M_PushEnd else M_Returned)
            (opc s)
            (if 0 <? outputbuf_samples then exit_code s else Some Undefined)
            (if 0 <? outputbuf_samples then EvDevStop :: trace s
             else EvDeleteAutomatic :: EvDeleteSource :: EvReturn 0
                  :: EvDevStop :: trace s)
  | M_PushEnd =>
      mkSys (stop_flag s) (source_buffer s) (push_end (output_buffer s))
            (dn s) (dev_config s) (dev_running s) (block s)
            (inbuf_length_warning s) (outsamples s) M_Join (opc s)
            (exit_code s) (EvPushEnd :: trace s)
  | M_Join =>
      match opc s with
      | O_Done =>
          mkSys (stop_flag s) (source_buffer s) (output_buffer s) (dn s)
                (dev_config s) (dev_running s) (block s)
                (inbuf_length_warning s) (outsamples s) M_Returned (opc s)
                (Some Undefined)
                (EvDeleteAutomatic :: EvDeleteSource :: EvReturn 0
                   :: EvJoin :: trace s)
      | _ => s
      end
  | M_Returned => s
  end.

(** One atomic step of the output thread, started as
    [write_output_data(udp_output.get(), &output_buffer, outputbuf_samples)]. *)
Definition out_step (s : sys) : sys :=
  match opc s with
  | O_Cond => if stop_flag s then set_out s O_Done else set_out s O_Fill
  | O_Fill =>
      if N.eqb (queued_samples (output_buffer s)) 0
      then set_out s O_Wait else set_out s O_EndCheck
  | O_Wait =>
      if wait_buffer_fill (Z.to_N outputbuf_samples) (output_buffer s)
      then set_out s O_EndCheck else s
  | O_EndCheck =>
      if pull_end_reached (output_buffer s)
      then set_out s O_Done else set_out s O_Pull
  | O_Pull =>
      match pull (output_buffer s) with
      | None => s
      | Some (samples, buf') =>
          mkSys (stop_flag s) (source_buffer s) buf' (dn s)
                (dev_config s) (dev_running s) (block s)
                (inbuf_length_warning s) (outsamples s) (mpc s) O_Cond
                (exit_code s) (EvWrite samples :: trace s)
      end
  | O_Done => s
  end.

(** [handle_sigterm] stores true into the flag and writes its message; the
    device thread fills the source buffer. *)
Definition env_step (e : env_event) (s : sys) : sys :=
  match e with
  | Signal sig =>
      mkSys true (source_buffer s) (output_buffer s) (dn s)
            (dev_config s) (dev_running s) (block s)
            (inbuf_length_warning s) (outsamples s) (mpc s) (opc s)
            (exit_code s) (EvSignal sig :: trace s)
  | DevPush v =>
      mkSys (stop_flag s) (push v (source_buffer s)) (output_buffer s) (dn s)
            (dev_config s) (dev_running s) (block s)
            (inbuf_length_warning s) (outsamples s) (mpc s) (opc s)
            (exit_code s) (trace s)
  | DevEnd =>
      mkSys (stop_flag s) (push_end (source_buffer s)) (output_buffer s)
            (dn s) (dev_config s) (dev_running s) (block s)
            (inbuf_length_warning s) (outsamples s) (mpc s) (opc s)
            (exit_code s) (trace s)
  end.

Definition step (a : action) (s : sys) : sys :=
  match a with
  | Main => main_step s
  | Out => out_step s
  | Env e => env_step e s
  end.

(** A run under a schedule: the interleaving of the two threads and of
    the outside world. *)
Definition run (sched : list action) (s : sys) : sys :=
  fold_left (fun s a => step a s) sched s.

End Run.

(** *** Views of the trace, oldest first *)

Definition iteration : Type := (Z * IQSampleVector * IQSampleVector)%type.

(** The loop iterations that got past the empty check: block number, the
    vector pulled and the vector the decimator left in [outsamples]. *)
Definition iterations_of (t : list event) : list iteration :=
  rev (flat_map (fun e => match e with
                          | EvIter b i o => [(b, i, o)]
                          | _ => []
                          end) t).

(** The vectors handed to [output_buffer.push]. *)
Definition pushed_of (t : list event) : list IQSampleVector :=
  rev (flat_map (fun e => match e with EvPush v => [v] | _ => [] end) t).

(** The vectors written to the UDP sink. *)
Definition written_of (t : list event) : list IQSampleVector :=
  rev (flat_map (fun e => match e with EvWrite v => [v] | _ => [] end) t).

(** The queue lengths seen by the overflow checks. *)
Definition checks_of (t : list event) : list N :=
  rev (flat_map (fun e => match e with EvCheck q => [q] | _ => [] end) t).

Definition warnings_of (t : list event) : nat :=
  length (filter (fun e => match e with EvWarn => true | _ => false end) t).

Definition iterations (s : sys) : list iteration := iterations_of (trace s).
Definition pushed (s : sys) : list IQSampleVector := pushed_of (trace s).
Definition written (s : sys) : list IQSampleVector := written_of (trace s).
Definition checks (s : sys) : list N := checks_of (trace s).
Definition warnings (s : sys) : nat := warnings_of (trace s).

(** Number of separate episodes in which a condition holds: the positions
    where it holds without holding just before. *)
Fixpoint occurrences_from (prev : bool) (l : list bool) : nat :=
  match l with
  | [] => 0%nat
  | b :: l' =>
      ((if (b && negb prev)%bool then 1 else 0) + occurrences_from b l')%nat
  end.

Definition occurrences (l : list bool) : nat := occurrences_from false l.

Definition it_blk (it : iteration) : Z := fst (fst it).
Definition it_in (it : iteration) : IQSampleVector := snd (fst it).
Definition it_out (it : iteration) : IQSampleVector := snd it.

(** Block numbers count the iterations modulo 2^32. *)
Definition consecutive (its : list iteration) : Prop :=
  map it_blk its =
  map (fun i => Z.of_nat i mod UINT_MOD) (seq 0 (length its)).

Definition main_pc_returned (pc : main_pc) : bool :=
  match pc with M_Returned => true | _ => false end.

(** *** Generalities on runs *)

Lemma outputbuf_on : (0 <? outputbuf_samples) = true.
Proof. reflexivity. Qed.

Ltac step_cases :=
  unfold step, main_step, out_step, env_step, set_main, set_out;
  rewrite ?outputbuf_on;
  repeat match goal with
         | |- context [match ?x with _ => _ end] => destruct x eqn:?
         end.

Section RunFacts.

Variable hb_kernel : list Z.
Variable hb_shift : Z.
Variable ifrate : Z.

Local Abbreviation step := (step hb_kernel hb_shift ifrate).
Local Abbreviation run := (run hb_kernel hb_shift ifrate).
Local Abbreviation main_step := (main_step hb_kernel hb_shift ifrate).

Lemma run_app (a b : list action) (s : sys) :
  run (a ++ b) s = run b (run a s).
Proof. apply fold_left_app. Qed.

Lemma run_cons (a : action) (l : list action) (s : sys) :
  run (a :: l) s = run l (step a s).
Proof. reflexivity. Qed.

Lemma run_invariant (P : sys -> Prop) :
  (forall a s, P s -> P (step a s)) ->
  forall sched s, P s -> P (run sched s).
Proof.
  intros Hstep sched. induction sched as [|a l IH]; intros s Hs.
  - exact Hs.
  - rewrite run_cons. apply IH, Hstep, Hs.
Qed.

(** The decimator object and the string given to the device never
    change. *)
Lemma step_dn (a : action) (s : sys) :
  dn (step a s) = dn s /\ dev_config (step a s) = dev_config s.
Proof. step_cases; simpl; auto. Qed.

Lemma run_dn (sched : list action) (s : sys) :
  dn (run sched s) = dn s /\ dev_config (run sched s) = dev_config s.
Proof.
  revert s; induction sched as [|a l IH]; intros s; [auto|].
  rewrite run_cons. destruct (IH (step a s)) as [-> ->]. apply step_dn.
Qed.

(** Bookkeeping of the main loop: what has been processed and what has
    been handed on. *)
Record loop_inv (s : sys) : Prop := mkLoopInv {
  inv_dn : dn s = Downsampler_default;
  inv_block : block s = Z.of_nat (length (iterations s)) mod UINT_MOD;
  inv_consec : consecutive (iterations s);
  inv_proc :
    Forall (fun it =>
              it_out it =
                process hb_kernel hb_shift Downsampler_default (it_in it)
              /\ it_in it <> [])
           (iterations s);
  inv_pushed :
    pushed s = map it_out (filter (fun it => 0 <? it_blk it) (iterations s));
  inv_relay : written s ++ m_queue (output_buffer s) = pushed s;
  inv_opull : opc s = O_Pull -> m_queue (output_buffer s) <> [];
  inv_oend :
    opc s = O_EndCheck ->
    m_queue (output_buffer s) <> [] \/ m_end_marked (output_buffer s) = true
}.

Lemma consecutive_snoc (its : list iteration) (b : Z)
  (i o : IQSampleVector) :
  consecutive its -> b = Z.of_nat (length its) mod UINT_MOD ->
  consecutive (its ++ [(b, i, o)]).
Proof.
  unfold consecutive. intros H ->.
  rewrite length_app, Nat.add_1_r, seq_S, !map_app, H. reflexivity.
Qed.

Lemma queued_zero_empty (b : DataBuffer) :
  m_queue b = [] -> queued_samples b = 0%N.
Proof. unfold queued_samples. now intros ->. Qed.

Lemma loop_inv_init (cfg : ParseInt.cstring) : loop_inv (init cfg).
Proof.
  constructor; simpl; try reflexivity; try discriminate.
  constructor.
Qed.

Lemma iterations_of_cons (e : event) (t : list event) :
  iterations_of (e :: t) =
  iterations_of t ++ match e with EvIter b i o => [(b, i, o)] | _ => [] end.
Proof.
  unfold iterations_of. cbn [flat_map]. rewrite rev_app_distr.
  now destruct e.
Qed.

Lemma pushed_of_cons (e : event) (t : list event) :
  pushed_of (e :: t) =
  pushed_of t ++ match e with EvPush v => [v] | _ => [] end.
Proof.
  unfold pushed_of. cbn [flat_map]. rewrite rev_app_distr.
  now destruct e.
Qed.

Lemma written_of_cons (e : event) (t : list event) :
  written_of (e :: t) =
  written_of t ++ match e with EvWrite v => [v] | _ => [] end.
Proof.
  unfold written_of. cbn [flat_map]. rewrite rev_app_distr.
  now destruct e.
Qed.

Lemma checks_of_cons (e : event) (t : list event) :
  checks_of (e :: t) =
  checks_of t ++ match e with EvCheck q => [q] | _ => [] end.
Proof.
  unfold checks_of. cbn [flat_map]. rewrite rev_app_distr.
  now destruct e.
Qed.

Ltac views :=
  unfold iterations, pushed, written, checks in *;
  cbn [trace stop_flag source_buffer output_buffer dn dev_config dev_running
       block inbuf_length_warning outsamples mpc opc exit_code app];
  rewrite ?iterations_of_cons, ?pushed_of_cons, ?written_of_cons,
    ?checks_of_cons;
  cbn beta iota; rewrite ?app_nil_r.

Lemma block_next (b : Z) (n : nat) :
  b = Z.of_nat n mod UINT_MOD ->
  (b + 1) mod UINT_MOD = Z.of_nat (n + 1) mod UINT_MOD.
Proof.
  intros ->. rewrite Nat2Z.inj_add. now rewrite Z.add_mod_idemp_l.
Qed.

Lemma pull_nonempty (b : DataBuffer) (v : IQSampleVector) (b' : DataBuffer) :
  m_queue b <> [] -> pull b = Some (v, b') ->
  m_queue b = v :: m_queue b'.
Proof.
  unfold pull. destruct (m_queue b) as [|w q]; [congruence|].
  now intros _ [= <- <-].
Qed.

Lemma pull_end_marked (b : DataBuffer) (v : IQSampleVector)
  (b' : DataBuffer) :
  pull b = Some (v, b') -> m_end_marked b' = m_end_marked b.
Proof.
  unfold pull. destruct (m_queue b); [destruct (m_end_marked b) eqn:E|].
  - now intros [= <- <-].
  - discriminate.
  - now intros [= <- <-].
Qed.

Lemma loop_inv_step (a : action) (s : sys) :
  loop_inv s -> loop_inv (step a s).
Proof.
  intros [Hdn Hblk Hcons Hproc Hpush Hrelay Hop Hoe].
  step_cases; constructor; views; auto; try discriminate; try congruence.
  all: try (rewrite length_app; apply block_next; assumption).
  all: try (apply consecutive_snoc; assumption).
  all: try (apply Forall_app; split; [assumption|];
            constructor; [|constructor]; rewrite Hdn; split;
            [reflexivity | discriminate]).
  all: try (rewrite filter_app, map_app, <- Hpush; cbn [filter it_blk fst];
            match goal with H : (0 <? block _) = _ |- _ => rewrite H end;
            cbn [map app it_out snd]; now rewrite ?app_nil_r).
  all: try (unfold push; cbn [m_queue m_end_marked]).
  - now rewrite app_assoc, Hrelay.
  - intros _. now destruct (m_queue (output_buffer s)).
  - intros _. left. now destruct (m_queue (output_buffer s)).
  - intros _. left. intros E. apply queued_zero_empty in E.
    match goal with H : N.eqb _ 0 = false |- _ =>
      apply N.eqb_neq in H; contradiction end.
  - intros _.
    match goal with H : wait_buffer_fill _ _ = true |- _ =>
      unfold wait_buffer_fill in H; apply orb_true_iff in H as [H | H] end;
      [left | now right].
    intros E. apply queued_zero_empty in E. rewrite E in *.
    discriminate.
  - intros _.
    match goal with H : pull_end_reached _ = false |- _ =>
      unfold pull_end_reached in H end.
    destruct (m_queue (output_buffer s)); [|discriminate].
    destruct (Hoe eq_refl); congruence.
  - match goal with H : pull _ = Some _ |- _ =>
      apply pull_nonempty in H; [|auto] end.
    rewrite <- Hrelay, <- app_assoc. cbn [app]. congruence.
Qed.

Lemma loop_inv_run (cfg : ParseInt.cstring) (sched : list action) :
  loop_inv (run sched (init cfg)).
Proof.
  apply run_invariant; [exact loop_inv_step | apply loop_inv_init].
Qed.

Lemma process_default (v : IQSampleVector) :
  process hb_kernel hb_shift Downsampler_default v = v.
Proof. reflexivity. Qed.

(** The queue length is over the limit of the overflow check. *)
Definition over (q : N) : bool := 10 * ifrate <? Z.of_N q.

Lemma warnings_of_cons (e : event) (t : list event) :
  warnings_of (e :: t) =
  ((match e with EvWarn => 1 | _ => 0 end) + warnings_of t)%nat.
Proof. unfold warnings_of. cbn [filter]. now destruct e. Qed.

(** The latch of the warning: set by the first check that finds the queue
    over the limit, never cleared, and one line on stderr when it is set. *)
Record warn_inv (s : sys) : Prop := mkWarnInv {
  inv_latch : inbuf_length_warning s = existsb over (checks s);
  inv_lines : warnings s = if inbuf_length_warning s then 1%nat else 0%nat
}.

Lemma warn_inv_step (a : action) (s : sys) :
  warn_inv s -> warn_inv (step a s).
Proof.
  intros [Hl Hw].
  step_cases; constructor; unfold warnings in *; views;
    rewrite ?warnings_of_cons, ?existsb_app; cbn [existsb Nat.add];
    rewrite ?orb_false_r; auto.
  - match goal with H : (_ && _)%bool = true |- _ =>
      apply andb_true_iff in H as [_ H]; fold (over (queued_samples (source_buffer s))) in H;
      rewrite H end.
    now rewrite orb_true_r.
  - match goal with H : (_ && _)%bool = true |- _ =>
      apply andb_true_iff in H as [H _]; apply negb_true_iff in H;
      rewrite H in Hw end.
    now rewrite Hw.
  - match goal with H : (_ && _)%bool = false |- _ =>
      apply andb_false_iff in H as [Hc | Hc] end.
    + apply negb_false_iff in Hc. rewrite <- Hl, Hc. reflexivity.
    + fold (over (queued_samples (source_buffer s))) in Hc.
      rewrite Hc, orb_false_r. exact Hl.
Qed.

Lemma warn_inv_run (cfg : ParseInt.cstring) (sched : list action) :
  warn_inv (run sched (init cfg)).
Proof.
  apply run_invariant; [exact warn_inv_step|].
  constructor; reflexivity.
Qed.

(** *** Shutdown *)

(** The flag is only ever stored true. *)
Lemma step_flag (a : action) (s : sys) :
  stop_flag s = true -> stop_flag (step a s) = true.
Proof. intros H. step_cases; simpl; auto. Qed.

Lemma run_flag (sched : list action) (s : sys) :
  stop_flag s = true -> stop_flag (run sched s) = true.
Proof. apply (run_invariant (fun s => stop_flag s = true)), step_flag. Qed.

Definition past_stop (pc : main_pc) : bool :=
  match pc with M_PushEnd | M_Join | M_Returned => true | _ => false end.

Definition past_push_end (pc : main_pc) : bool :=
  match pc with M_Join | M_Returned => true | _ => false end.

(** The order of the shutdown sequence of [main]. *)
Record stop_inv (s : sys) : Prop := mkStopInv {
  inv_stopped : past_stop (mpc s) = true -> dev_running s = false;
  inv_ended :
    past_push_end (mpc s) = true -> m_end_marked (output_buffer s) = true;
  inv_joined : mpc s = M_Returned -> opc s = O_Done;
  inv_code :
    exit_code s = if main_pc_returned (mpc s) then Some Undefined else None
}.

Lemma stop_inv_step (a : action) (s : sys) :
  stop_inv s -> stop_inv (step a s).
Proof.
  intros [Hs He Hj Hc].
  step_cases; constructor; cbn -[Z.ltb] in *;
    try rewrite Heqm in *; cbn in *; auto; try discriminate;
    try congruence.
  all: try (intros HH; specialize (Hj HH); congruence).
  intros HH. rewrite <- (He HH).
  match goal with H : pull _ = Some _ |- _ =>
    apply (pull_end_marked _ _ _ H) end.
Qed.

Lemma stop_inv_run (cfg : ParseInt.cstring) (sched : list action) :
  stop_inv (run sched (init cfg)).
Proof.
  apply run_invariant; [exact stop_inv_step|].
  constructor; cbn; auto; discriminate.
Qed.

(** Emissions still possible once the flag is set: the iteration in
    progress, in each thread. *)
Definition budget_main (pc : main_pc) : nat :=
  match pc with M_Check | M_Pull => 1 | _ => 0 end.

Definition budget_out (pc : out_pc) : nat :=
  match pc with O_Fill | O_Wait | O_EndCheck | O_Pull => 1 | _ => 0 end.

Lemma step_budget (a : action) (s : sys) :
  stop_flag s = true ->
  (length (pushed (step a s)) + budget_main (mpc (step a s))
   <= length (pushed s) + budget_main (mpc s))%nat /\
  (length (written (step a s)) + budget_out (opc (step a s))
   <= length (written s) + budget_out (opc s))%nat.
Proof.
  intros Hf.
  step_cases; views; rewrite ?length_app;
    repeat match goal with
           | H : mpc _ = _ |- _ => rewrite H
           | H : opc _ = _ |- _ => rewrite H
           end;
    cbn [length budget_main budget_out]; try congruence; lia.
Qed.

Lemma run_budget (sched : list action) (s : sys) :
  stop_flag s = true ->
  (length (pushed (run sched s)) + budget_main (mpc (run sched s))
   <= length (pushed s) + budget_main (mpc s))%nat /\
  (length (written (run sched s)) + budget_out (opc (run sched s))
   <= length (written s) + budget_out (opc s))%nat.
Proof.
  revert s. induction sched as [|a l IH]; intros s Hf; [simpl; split; lia|].
  rewrite run_cons.
  destruct (IH (step a s) (step_flag a s Hf)) as [H1 H2].
  destruct (step_budget a s Hf) as [H3 H4]. split; lia.
Qed.

(** Case analysis on a test that no other pending test hides. *)
Ltac innermost_if :=
  match goal with
  | |- context [if ?c then _ else _] =>
      lazymatch c with
      | context [if _ then _ else _] => fail
      | context [match _ with 0%N => _ | Npos _ => _ end] => fail
      | _ => destruct c
      end
  | |- context [match ?c with 0%N => _ | Npos _ => _ end] =>
      lazymatch c with
      | context [if _ then _ else _] => fail
      | _ => destruct c
      end
  end.

(** The schedule that lets the two threads finish: [main] up to its
    [join], the output thread up to its return, [main] again. *)
Definition drain : list action := repeat Main 5 ++ repeat Out 5 ++ [Main].

Lemma main_reaches_join (s : sys) :
  stop_flag s = true -> pull (source_buffer s) <> None ->
  past_push_end (mpc (run (repeat Main 5) s)) = true.
Proof.
  destruct s as [f [q e] ob d c r b w o m op x t].
  cbn [stop_flag source_buffer]. intros -> Hp.
  destruct m, op, q as [|[|y v] q], e;
    try (exfalso; apply Hp; reflexivity);
    repeat first
      [ progress cbn -[Z.ltb process Z.modulo Z.mul]
      | progress rewrite ?outputbuf_on
      | innermost_if ];
    reflexivity.
Qed.

Lemma out_reaches_done (s : sys) :
  stop_flag s = true -> m_end_marked (output_buffer s) = true ->
  opc (run (repeat Out 5) s) = O_Done /\
  mpc (run (repeat Out 5) s) = mpc s.
Proof.
  destruct s as [f sb [q e] d c r b w o m op x t].
  cbn [stop_flag output_buffer m_end_marked]. intros -> ->.
  destruct op, q as [|v q];
    repeat first
      [ progress cbn -[Z.to_N N.leb]
      | progress (unfold wait_buffer_fill; cbn [m_end_marked])
      | progress rewrite ?orb_true_r
      | innermost_if ];
    auto.
Qed.

Lemma drain_returns (cfg : ParseInt.cstring) (sched : list action) :
  stop_flag (run sched (init cfg)) = true ->
  pull (source_buffer (run sched (init cfg))) <> None ->
  mpc (run (sched ++ drain) (init cfg)) = M_Returned /\
  exit_code (run (sched ++ drain) (init cfg)) = Some Undefined.
Proof.
  intros Hf Hp.
  assert (Hret : mpc (run (sched ++ drain) (init cfg)) = M_Returned).
  { assert (E : run (sched ++ drain) (init cfg) =
                main_step (run (repeat Out 5)
                             (run (sched ++ repeat Main 5) (init cfg)))).
    { unfold drain.
      rewrite (run_app sched (repeat Main 5 ++ repeat Out 5 ++ [Main])),
        (run_app (repeat Main 5) (repeat Out 5 ++ [Main])),
        (run_app (repeat Out 5) [Main]), (run_app sched (repeat Main 5)).
      reflexivity. }
    rewrite E. clear E.
    set (s1 := run (sched ++ repeat Main 5) (init cfg)).
    assert (H1 : past_push_end (mpc s1) = true).
    { unfold s1. rewrite run_app. now apply main_reaches_join. }
    assert (Hf1 : stop_flag s1 = true).
    { unfold s1. rewrite run_app. now apply run_flag. }
    pose proof (inv_ended _ (stop_inv_run cfg (sched ++ repeat Main 5)) H1)
      as He1. fold s1 in He1.
    destruct (out_reaches_done s1 Hf1 He1) as [Hd Hm].
    set (s2 := run (repeat Out 5) s1) in *.
    unfold Daemon.main_step. rewrite Hm.
    destruct (mpc s1); try discriminate.
    - now rewrite Hd.
    - exact Hm. }
  split; [exact Hret|].
  rewrite (inv_code _ (stop_inv_run cfg (sched ++ drain))), Hret.
  reflexivity.
Qed.

End RunFacts.

(** *** The configuration string, as the claims read it *)

(** Items of a comma separated list. *)
Definition split_on (sep : ascii) (s : ParseInt.cstring)
  : list ParseInt.cstring :=
  fold_right
    (fun c acc =>
       if Ascii.eqb c sep then [] :: acc
       else match acc with
            | h :: t => (c :: h) :: t
            | [] => [[c]]
            end)
    [[]] s.

(** The value given to [key] by an item [key=value] of the string. *)
Definition config_value (key : string) (cfg : ParseInt.cstring)
  : option ParseInt.cstring :=
  let items :=
    map (ParseInt.span (fun c => negb (Ascii.eqb c "="))) (split_on "," cfg) in
  match find (fun kv => if list_eq_dec ascii_dec (fst kv) (ParseInt.cstr key)
                        then true else false) items with
  | Some (_, v) => Some (tl v)
  | None => None
  end.

Definition config_int (key : string) (cfg : ParseInt.cstring) : option Z :=
  match config_value key cfg with
  | Some v =>
      match ParseInt.parse_int ParseInt.LP64_LONG_MIN ParseInt.LP64_LONG_MAX
              v 0 false with
      | (true, n) => Some n
      | (false, _) => None
      end
  | None => None
  end.

Definition fcpos_of (n : Z) : fcPos_t :=
  if n =? 0 then FC_POS_INFRA else if n =? 1 then FC_POS_SUPRA
  else FC_POS_CENTER.

Example config_readme :
  let cfg := ParseInt.cstr "txdelay=300,fecblk=8,freq=433970000,decim=5,fcpos=2" in
  config_int "decim" cfg = Some 5 /\ config_int "fcpos" cfg = Some 2 /\
  config_int "srate" cfg = None.
Proof. vm_compute. auto. Qed.

(** *** A run of the daemon, as an example *)

Definition v4 (k : Z) : IQSampleVector := [(k, 1); (k, 2); (k, 3); (k, 4)].

(** Three vectors from the device, the main loop over them, a signal, and
    both threads left to finish. *)
Definition demo_sched : list action :=
  [Env (DevPush (v4 1)); Env (DevPush (v4 2)); Env (DevPush (v4 3))]
  ++ repeat Main 9 ++ [Out; Out; Env (Signal 15)] ++ drain.

Example demo_run :
  let s := run kernel6 7 48000 demo_sched (init (ParseInt.cstr "decim=1")) in
  rev (trace s) =
  [EvCheck 12; EvIter 0 (v4 1) (v4 1);
   EvCheck 8; EvIter 1 (v4 2) (v4 2); EvPush (v4 2);
   EvCheck 4; EvIter 2 (v4 3) (v4 3); EvPush (v4 3);
   EvSignal 15; EvDevStop; EvPushEnd; EvWrite (v4 2); EvJoin; EvReturn 0;
   EvDeleteSource; EvDeleteAutomatic]
  /\ exit_code s = Some Undefined /\ m_queue (output_buffer s) = [v4 3].
Proof. vm_compute. auto. Qed.

(** *** The claims on the main loop *)

Definition emitting (it : iteration) : bool := 0 <? it_blk it.

(** C9.  In every run the first vector pulled is processed by the
    decimator under block number 0 and is neither pushed to the output
    buffer nor written; what is pushed are the outputs of the later
    iterations with a non-zero block number, starting with the second
    one, and the UDP sink only gets what went through the output
    buffer. *)
Theorem first_block_thrown_away (hb_kernel : list Z) (hb_shift ifrate : Z)
  (cfg : ParseInt.cstring) (sched : list action) :
  let s := run hb_kernel hb_shift ifrate sched (init cfg) in
  match iterations s with
  | [] => pushed s = []
  | it :: rest =>
      it_blk it = 0 /\
      it_out it = process hb_kernel hb_shift (dn s) (it_in it) /\
      pushed s = map it_out (filter emitting rest) /\
      match rest with
      | [] => pushed s = []
      | it2 :: _ => hd_error (pushed s) = Some (it_out it2)
      end
  end /\
  written s ++ m_queue (output_buffer s) = pushed s.
Proof.
  intros s.
  destruct (loop_inv_run hb_kernel hb_shift ifrate cfg sched)
    as [Hdn _ Hcons Hproc Hpush Hrelay _ _].
  fold s in Hdn, Hcons, Hproc, Hpush, Hrelay.
  split; [|exact Hrelay].
  destruct (iterations s) as [|it rest]; [exact Hpush|].
  unfold consecutive in Hcons. cbn [map length seq] in Hcons.
  injection Hcons as Hb0 Hrest.
  change (Z.of_nat 0 mod UINT_MOD) with 0 in Hb0.
  inversion Hproc as [|? ? [Ho _] _]; subst.
  cbn [filter] in Hpush. rewrite Hb0 in Hpush. cbn [Z.ltb Z.compare] in Hpush.
  rewrite Hdn. repeat split; auto.
  destruct rest as [|it2 rest']; [exact Hpush|].
  cbn [map length seq] in Hrest. injection Hrest as Hb1 _.
  change (Z.of_nat 1 mod UINT_MOD) with 1 in Hb1.
  rewrite Hpush. cbn [filter]. unfold emitting. rewrite Hb1. reflexivity.
Qed.

(** C5, as amended.  Whatever the configuration string, it goes to the
    device alone: the decimator of the data path is the
    default-constructed one (log2 factor 0, centered) throughout the run,
    so every vector leaves [process] as it was pulled, and what is pushed
    to the output buffer are the pulled vectors themselves. *)
Theorem decimator_keeps_defaults (hb_kernel : list Z) (hb_shift ifrate : Z)
  (cfg : ParseInt.cstring) (sched : list action) :
  let s := run hb_kernel hb_shift ifrate sched (init cfg) in
  dev_config s = cfg /\
  m_decim (dn s) = 0%N /\ m_fcPos (dn s) = FC_POS_CENTER /\
  Forall (fun it => it_out it = it_in it) (iterations s) /\
  pushed s = map it_in (filter emitting (iterations s)).
Proof.
  intros s.
  destruct (loop_inv_run hb_kernel hb_shift ifrate cfg sched)
    as [Hdn _ _ Hproc Hpush _ _ _].
  fold s in Hdn, Hproc, Hpush.
  assert (Hid : Forall (fun it => it_out it = it_in it) (iterations s)).
  { eapply Forall_impl; [|exact Hproc]. now intros it [-> _]. }
  split; [apply (run_dn hb_kernel hb_shift ifrate sched (init cfg))|].
  rewrite Hdn. repeat split; auto.
  rewrite Hpush. apply map_ext_in. intros it Hin.
  apply filter_In in Hin as [Hin _].
  rewrite Forall_forall in Hid. auto.
Qed.

(** C5 as worded fails: with [decim=2,fcpos=0] in the configuration the
    decimator still has factor 0 and is centered, and the vector pushed
    for the network has the 8 samples of the device vector, not the 2 of a
    decimation by 4. *)
Lemma config_decim_not_applied :
  let cfg := ParseInt.cstr "decim=2,fcpos=0" in
  let sched :=
    [Env (DevPush (tone 8)); Env (DevPush (tone 8))] ++ repeat Main 6 in
  let s := run kernel6 7 1000000 sched (init cfg) in
  config_int "decim" cfg = Some 2 /\
  option_map fcpos_of (config_int "fcpos" cfg) = Some FC_POS_INFRA /\
  m_decim (dn s) = 0%N /\ m_fcPos (dn s) = FC_POS_CENTER /\
  pushed s = [tone 8] /\
  process kernel6 7 (mkDownsampler 2 FC_POS_INFRA) (tone 8) = [(0, 0); (1, -1)].
Proof. vm_compute. repeat split. Qed.

(** C6, as amended.  The warning is a latch: one line is logged by the
    first overflow check that finds more than 10 x ifrate samples queued,
    and none afterwards, whatever the queue does later; the check never
    leaves the loop, touches neither the exit code nor the stop flag, and
    is followed by the pull. *)
Theorem overflow_warning_latched (hb_kernel : list Z) (hb_shift ifrate : Z)
  (cfg : ParseInt.cstring) (sched : list action) :
  let s := run hb_kernel hb_shift ifrate sched (init cfg) in
  warnings s = (if existsb (over ifrate) (checks s) then 1 else 0)%nat /\
  inbuf_length_warning s = existsb (over ifrate) (checks s) /\
  forall t : sys,
    match mpc t with
    | M_Check =>
        mpc (main_step hb_kernel hb_shift ifrate t) = M_Pull /\
        exit_code (main_step hb_kernel hb_shift ifrate t) = exit_code t /\
        stop_flag (main_step hb_kernel hb_shift ifrate t) = stop_flag t
    | _ => True
    end.
Proof.
  intros s.
  destruct (warn_inv_run hb_kernel hb_shift ifrate cfg sched) as [Hl Hw].
  fold s in Hl, Hw. repeat split.
  - now rewrite Hw, Hl.
  - exact Hl.
  - intros t. destruct (mpc t) eqn:E; auto.
    unfold main_step. rewrite E.
    destruct (negb (inbuf_length_warning t) && _)%bool; cbn; auto.
Qed.

(** C6 as worded fails: the queue passes the limit (10 samples at
    ifrate = 1), is emptied, and passes the limit again; these are two
    occurrences and one warning. *)
Lemma overflow_warning_once_per_run :
  let sched :=
    [Env (DevPush (tone 12)); Main; Main; Main; Main; Main;
     Env (DevPush (tone 12)); Main; Main; Env (DevPush (tone 12)); Main] in
  let s := run kernel6 7 1 sched (init []) in
  checks s = [12%N; 0%N; 12%N] /\
  occurrences (map (over 1) (checks s)) = 2%nat /\
  warnings s = 1%nat /\ mpc s = M_Pull.
Proof. vm_compute. repeat split. Qed.


(** The shutdown sequence in every run.  Once [handle_sigterm] has run
    the flag is set and stays set; after that the main thread pushes at
    most one more vector and at most one more vector is written to the UDP
    sink; [main] reaches its [return 0] only after the device was stopped,
    the end of the output buffer signalled and the output thread finished;
    the process never ends with an exit status there, the [return] ends
    in the delete of the automatic [udp_output_instance]; and as soon as
    the pending [pull] on the source buffer can return, the two threads,
    left to run, bring [main] to that [return]. *)
Theorem shutdown_sequence (hb_kernel : list Z) (hb_shift ifrate : Z)
  (cfg : ParseInt.cstring) (pre post : list action) (sig : Z) :
  let s1 :=
    run hb_kernel hb_shift ifrate (pre ++ [Env (Signal sig)]) (init cfg) in
  let s2 := run hb_kernel hb_shift ifrate post s1 in
  stop_flag s1 = true /\ stop_flag s2 = true /\
  (length (pushed s2) <= length (pushed s1) + 1)%nat /\
  (length (written s2) <= length (written s1) + 1)%nat /\
  (exit_code s2 = None \/ exit_code s2 = Some Undefined) /\
  (forall code, exit_code s2 <> Some (Status code)) /\
  (mpc s2 = M_Returned ->
   exit_code s2 = Some Undefined /\ opc s2 = O_Done /\
   dev_running s2 = false /\ m_end_marked (output_buffer s2) = true) /\
  (pull (source_buffer s2) <> None ->
   mpc (run hb_kernel hb_shift ifrate drain s2) = M_Returned /\
   exit_code (run hb_kernel hb_shift ifrate drain s2) = Some Undefined).
Proof.
  intros s1 s2.
  assert (Hf1 : stop_flag s1 = true).
  { unfold s1. rewrite run_app. reflexivity. }
  assert (Hf2 : stop_flag s2 = true) by now apply run_flag.
  assert (E2 : s2 = run hb_kernel hb_shift ifrate
                      ((pre ++ [Env (Signal sig)]) ++ post) (init cfg)).
  { unfold s2, s1. now rewrite (run_app _ _ _ (pre ++ [Env (Signal sig)])). }
  pose proof (stop_inv_run hb_kernel hb_shift ifrate cfg
                ((pre ++ [Env (Signal sig)]) ++ post)) as [Hs He Hj Hc].
  rewrite <- E2 in Hs, He, Hj, Hc.
  destruct (run_budget hb_kernel hb_shift ifrate post s1 Hf1) as [B1 B2].
  fold s2 in B1, B2.
  split; [exact Hf1|]. split; [exact Hf2|].
  split; [destruct (mpc s1), (mpc s2); cbn in B1; lia|].
  split; [destruct (opc s1), (opc s2); cbn in B2; lia|].
  split; [rewrite Hc; destruct (mpc s2); cbn; auto|].
  split; [intros code; rewrite Hc; destruct (mpc s2); cbn; discriminate|].
  split.
  - intros H. rewrite Hc, H. repeat split; auto.
    + apply Hs. now rewrite H.
    + apply He. now rewrite H.
  - intros Hp. rewrite E2, <- run_app.
    apply drain_returns; rewrite <- E2; assumption.
Qed.

(** The threads alone: no signal, nothing from the device. *)
Definition thread_step (a : action) : bool :=
  match a with Main | Out => true | Env _ => false end.

(** [main] does not look at the flag while it waits in
    [source_buffer.pull()]: blocked there on an empty buffer whose end is
    not signalled, it stays there whatever the two threads do, flag set or
    not; the device is not stopped and the process does not end. *)
Lemma blocked_in_pull (hb_kernel : list Z) (hb_shift ifrate : Z)
  (sched : list action) :
  forall s : sys,
    mpc s = M_Pull -> pull (source_buffer s) = None ->
    forallb thread_step sched = true ->
    let s' := run hb_kernel hb_shift ifrate sched s in
    mpc s' = M_Pull /\ pull (source_buffer s') = None /\
    dev_running s' = dev_running s /\ exit_code s' = exit_code s /\
    pushed s' = pushed s.
Proof.
  induction sched as [|a l IH]; intros s Hpc Hp Hq; [cbn; auto|].
  cbn [forallb] in Hq. apply andb_true_iff in Hq as [Ha Hl].
  cbn zeta. rewrite run_cons.
  assert (H1 : mpc (step hb_kernel hb_shift ifrate a s) = M_Pull /\
               source_buffer (step hb_kernel hb_shift ifrate a s)
               = source_buffer s /\
               dev_running (step hb_kernel hb_shift ifrate a s)
               = dev_running s /\
               exit_code (step hb_kernel hb_shift ifrate a s)
               = exit_code s /\
               pushed (step hb_kernel hb_shift ifrate a s) = pushed s).
  { destruct a as [| |e]; [| |discriminate].
    - unfold step, main_step. rewrite Hpc, Hp. auto.
    - unfold step, out_step, set_out, pushed.
      destruct (opc s);
        repeat match goal with
               | |- context [if ?c then _ else _] => destruct c
               | |- context [match pull ?b with _ => _ end] =>
                   destruct (pull b) as [[? ?]|]
               end; cbn; auto. }
  destruct H1 as (E1 & E2 & E3 & E4 & E5).
  destruct (IH (step hb_kernel hb_shift ifrate a s) E1)
    as (F1 & F2 & F3 & F4 & F5); [now rewrite E2 | exact Hl |].
  cbn zeta in *. repeat split; congruence.
Qed.

(** The device has delivered one vector, which the loop has taken, and
    [main] waits for the next when SIGINT arrives. *)
Definition blocked_sched : list action :=
  [Env (DevPush (v4 1))] ++ repeat Main 6 ++ [Env (Signal 2)]
  ++ repeat Main 50 ++ repeat Out 50 ++ repeat Main 50.

(** C8, on two runs with a signal.  A streaming run of the daemon in
    which SIGTERM arrives and the threads are left to finish ([demo_sched]):
    the flag is set, the loop is left, the device is stopped, the end of
    the output buffer is signalled and the output thread is joined, as the
    claim says; then [return 0] runs the destructors, [~unique_ptr] deletes
    the automatic [udp_output_instance], and the process ends in undefined
    behaviour and not with exit status 0.  And while [main] waits in
    [pull] on an empty source buffer ([blocked_sched]) the signal sets the
    flag and nothing else: 150 steps of the threads later the loop has not
    been left and the device is not stopped. *)
Theorem shutdown_ends_undefined :
  (let s := run kernel6 7 48000 demo_sched (init (ParseInt.cstr "decim=1")) in
   stop_flag s = true /\ mpc s = M_Returned /\ dev_running s = false /\
   m_end_marked (output_buffer s) = true /\ opc s = O_Done /\
   firstn 6 (trace s) =
     [EvDeleteAutomatic; EvDeleteSource; EvReturn 0; EvJoin;
      EvWrite (v4 2); EvPushEnd] /\
   exit_code s = Some Undefined /\ exit_code s <> Some (Status 0)) /\
  (let s := run kernel6 7 48000 blocked_sched (init []) in
   stop_flag s = true /\ mpc s = M_Pull /\ dev_running s = true /\
   m_end_marked (output_buffer s) = false /\ exit_code s = None).
Proof.
  split.
  - vm_compute. repeat split; discriminate.
  - vm_compute. repeat split.
Qed.

End Daemon.

(** ** Octets *)

Module Bytes.

Local Open Scope N_scope.

Definition byte : Type := Byte.byte.

(** The low eight bits of a number, as a C conversion to [uint8_t]. *)
Definition byte_of_N (n : N) : byte :=
  match Byte.of_N (N.land n 255) with
  | Some b => b
  | None => Byte.x00
  end.

Definition bxor (a b : byte) : byte :=
  byte_of_N (N.lxor (Byte.to_N a) (Byte.to_N b)).

(** Little-endian bytes of an unsigned 32-bit field, and back. *)
Definition le32 (n : N) : list byte :=
  [byte_of_N n; byte_of_N (N.shiftr n 8); byte_of_N (N.shiftr n 16);
   byte_of_N (N.shiftr n 24)].

Definition le_value (bs : list byte) : N :=
  fold_right (fun b acc => Byte.to_N b + 256 * acc) 0 bs.

(** Byte-wise XOR of two sequences, over their common length. *)
Fixpoint xor_bytes (a b : list byte) : list byte :=
  match a, b with
  | x :: a', y :: b' => bxor x y :: xor_bytes a' b'
  | _, _ => []
  end.

Lemma land_255 (n : N) : N.land n 255 = n mod 256.
Proof. change 255 with (N.ones 8). now rewrite N.land_ones. Qed.

Lemma to_N_byte_of_N (n : N) : Byte.to_N (byte_of_N n) = n mod 256.
Proof.
  unfold byte_of_N. rewrite land_255.
  destruct (Byte.of_N (n mod 256)) as [b|] eqn:E.
  - now apply Byte.to_of_N in E.
  - apply Byte.of_N_None_iff in E.
    pose proof (N.mod_upper_bound n 256). lia.
Qed.

Lemma to_N_lt (b : byte) : Byte.to_N b < 256.
Proof. pose proof (Byte.to_N_bounded b). lia. Qed.

Lemma to_N_inj (a b : byte) : Byte.to_N a = Byte.to_N b -> a = b.
Proof.
  intros H. pose proof (Byte.of_to_N a) as Ha. rewrite H in Ha.
  rewrite Byte.of_to_N in Ha. congruence.
Qed.

Lemma byte_of_N_to_N (b : byte) : byte_of_N (Byte.to_N b) = b.
Proof.
  apply to_N_inj. rewrite to_N_byte_of_N.
  apply N.mod_small, to_N_lt.
Qed.

Lemma land_lxor (a b c : N) :
  N.land (N.lxor a b) c = N.lxor (N.land a c) (N.land b c).
Proof.
  apply N.bits_inj. intros n.
  rewrite N.land_spec, !N.lxor_spec, !N.land_spec.
  destruct (N.testbit a n), (N.testbit b n), (N.testbit c n); reflexivity.
Qed.

Lemma to_N_bxor (a b : byte) :
  Byte.to_N (bxor a b) = N.lxor (Byte.to_N a) (Byte.to_N b).
Proof.
  unfold bxor. rewrite to_N_byte_of_N, <- land_255.
  rewrite land_lxor, !land_255.
  now rewrite !N.mod_small by apply to_N_lt.
Qed.

Lemma lxor_swap (a b c d : N) :
  N.lxor (N.lxor a b) (N.lxor c d) = N.lxor (N.lxor a c) (N.lxor b d).
Proof.
  apply N.bits_inj. intros n. rewrite !N.lxor_spec.
  destruct (N.testbit a n), (N.testbit b n), (N.testbit c n),
    (N.testbit d n); reflexivity.
Qed.

Lemma lxor_lt_pow2 (a b n : N) : a < 2 ^ n -> b < 2 ^ n -> N.lxor a b < 2 ^ n.
Proof.
  intros Ha Hb.
  destruct (N.eq_dec (N.lxor a b) 0) as [E|E].
  - rewrite E. apply N.le_lt_trans with a; [apply N.le_0_l | exact Ha].
  - apply N.log2_lt_pow2; [lia|].
    apply N.le_lt_trans with (N.max (N.log2 a) (N.log2 b));
      [apply N.log2_lxor|].
    destruct (N.eq_dec a 0) as [->|Ha0], (N.eq_dec b 0) as [->|Hb0].
    + now rewrite N.lxor_0_l in E.
    + rewrite N.max_r by apply N.le_0_l. apply N.log2_lt_pow2; lia.
    + rewrite N.max_l by apply N.le_0_l. apply N.log2_lt_pow2; lia.
    + apply N.max_lub_lt; apply N.log2_lt_pow2; lia.
Qed.

End Bytes.

(** ** The meta data block and its CRC32 *)

Module Meta.

Import Bytes.
Local Open Scope N_scope.

(** The reflected IEEE 802.3 polynomial. *)
Definition CRC_POLY : N := 0xEDB88320.
Definition CRC_INIT : N := 0xFFFFFFFF.
Definition CRC_XOROUT : N := 0xFFFFFFFF.

(** One bit of the reflected algorithm: shift right, and when the bit
    shifted out is set, subtract the polynomial. *)
Definition crc_shift (c : N) : N :=
  N.lxor (N.shiftr c 1) (if N.testbit c 0 then CRC_POLY else 0).

Definition crc_byte (c : N) (b : byte) : N :=
  N.iter 8 crc_shift (N.lxor c (Byte.to_N b)).

Definition crc_raw (init : N) (bs : list byte) : N :=
  fold_left crc_byte bs init.

(** Modelled from the spec: the CRC32 of the meta block is computed by a
    library that is not among the sources; the spec fixes it as the
    IEEE 802.3 CRC (reflected polynomial 0xEDB88320, initial value
    0xFFFFFFFF, final XOR 0xFFFFFFFF). *)
Definition crc32 (bs : list byte) : N :=
  N.lxor (crc_raw CRC_INIT bs) CRC_XOROUT.

(** The check value of the algorithm: the CRC of the ASCII digits 1 to 9. *)
Example crc32_check_value :
  crc32 (map byte_of_N [49; 50; 51; 52; 53; 54; 55; 56; 57]) = 0xCBF43926.
Proof. vm_compute. reflexivity. Qed.

(** The fields of the meta data block, in the order of the README table. *)
Record MetaData : Type := mkMetaData {
  center_frequency : N;     (* kHz, 4 bytes *)
  sample_rate : N;          (* samples per second, 4 bytes *)
  sample_bytes : N;         (* 1 byte *)
  sample_bits : N;          (* 1 byte *)
  nb_original_blocks : N;   (* 1 byte *)
  nb_fec_blocks : N;        (* 1 byte *)
  tv_sec : N;               (* 4 bytes *)
  tv_usec : N               (* 4 bytes *)
}.

(** The 20 bytes that the CRC covers. *)
Definition meta_header (m : MetaData) : list byte :=
  le32 (center_frequency m) ++ le32 (sample_rate m)
  ++ [byte_of_N (sample_bytes m); byte_of_N (sample_bits m);
      byte_of_N (nb_original_blocks m); byte_of_N (nb_fec_blocks m)]
  ++ le32 (tv_sec m) ++ le32 (tv_usec m).

(** Modelled from the spec: the body of block zero as the Rx packer
    builds it: the header, its CRC32 at offset 20, and 484 reserved
    bytes. *)
Definition meta_body (m : MetaData) : list byte :=
  meta_header m ++ le32 (crc32 (meta_header m)) ++ repeat Byte.x00 484.

(** Modelled from the spec: the check made on the Tx side once block zero
    is there: the CRC of bytes 0..19 against the field at offset 20. *)
Definition crc_ok (body : list byte) : bool :=
  N.eqb (crc32 (firstn 20 body)) (le_value (firstn 4 (skipn 20 body))).

Inductive meta_check : Type :=
  | MetaAccepted
  | CRCFailure.

Definition check_meta (body : list byte) : meta_check :=
  if crc_ok body then MetaAccepted else CRCFailure.

(** Bit [j] of byte [k] inverted. *)
Fixpoint flip_bit (k j : nat) (body : list byte) : list byte :=
  match body, k with
  | [], _ => []
  | b :: r, O => bxor b (byte_of_N (2 ^ N.of_nat j)) :: r
  | b :: r, S k' => b :: flip_bit k' j r
  end.

(** *** The CRC is linear over GF(2) *)

Lemma crc_shift_lxor (a b : N) :
  crc_shift (N.lxor a b) = N.lxor (crc_shift a) (crc_shift b).
Proof.
  unfold crc_shift. rewrite N.shiftr_lxor, N.lxor_spec, lxor_swap.
  f_equal.
  destruct (N.testbit a 0), (N.testbit b 0); cbn [xorb];
    now rewrite ?N.lxor_nilpotent, ?N.lxor_0_r, ?N.lxor_0_l.
Qed.

Lemma iter_crc_shift_lxor (n : nat) (a b : N) :
  Nat.iter n crc_shift (N.lxor a b) =
  N.lxor (Nat.iter n crc_shift a) (Nat.iter n crc_shift b).
Proof.
  induction n as [|n IH]; [reflexivity|].
  now rewrite !Nat.iter_succ, IH, crc_shift_lxor.
Qed.

Lemma crc_byte_lxor (c d : N) (x y : byte) :
  crc_byte (N.lxor c d) (bxor x y) = N.lxor (crc_byte c x) (crc_byte d y).
Proof.
  unfold crc_byte. rewrite to_N_bxor, lxor_swap.
  change 8 with (N.of_nat 8). rewrite !N2Nat.inj_iter, !Nat2N.id.
  apply iter_crc_shift_lxor.
Qed.

Lemma crc_raw_lxor (m e : list byte) (c d : N) :
  length m = length e ->
  crc_raw (N.lxor c d) (xor_bytes m e) =
  N.lxor (crc_raw c m) (crc_raw d e).
Proof.
  revert e c d. induction m as [|x m IH]; intros [|y e] c d H;
    try discriminate; [reflexivity|].
  cbn [xor_bytes crc_raw fold_left]. rewrite crc_byte_lxor.
  apply IH. now injection H.
Qed.

(** *** A flipped bit as the XOR with a unit pattern *)

Definition unit_pattern (k j n : nat) : list byte :=
  flip_bit k j (repeat Byte.x00 n).

Lemma bxor_zero_r (b : byte) : bxor b Byte.x00 = b.
Proof.
  apply to_N_inj. rewrite to_N_bxor. change (Byte.to_N Byte.x00) with 0.
  apply N.lxor_0_r.
Qed.

Lemma bxor_zero_l (b : byte) : bxor Byte.x00 b = b.
Proof.
  apply to_N_inj. rewrite to_N_bxor. change (Byte.to_N Byte.x00) with 0.
  apply N.lxor_0_l.
Qed.

Lemma xor_bytes_zero (h : list byte) :
  xor_bytes h (repeat Byte.x00 (length h)) = h.
Proof.
  induction h as [|b h IH]; [reflexivity|].
  cbn [length repeat xor_bytes]. now rewrite bxor_zero_r, IH.
Qed.

Lemma flip_bit_xor (k j : nat) (h : list byte) :
  flip_bit k j h = xor_bytes h (unit_pattern k j (length h)).
Proof.
  unfold unit_pattern. revert k. induction h as [|b h IH]; intros k.
  - now destruct k.
  - destruct k as [|k]; cbn [length repeat flip_bit xor_bytes].
    + now rewrite bxor_zero_l, xor_bytes_zero.
    + now rewrite bxor_zero_r, <- IH.
Qed.

Lemma length_flip_bit (k j : nat) (h : list byte) :
  length (flip_bit k j h) = length h.
Proof.
  revert k. induction h as [|b h IH]; intros [|k]; cbn; auto.
Qed.

Lemma firstn_flip_bit (n k j : nat) (body : list byte) :
  (k < n)%nat -> firstn n (flip_bit k j body) = flip_bit k j (firstn n body).
Proof.
  revert n k. induction body as [|b body IH]; intros n k H.
  - destruct k; cbn [flip_bit]; now rewrite firstn_nil.
  - destruct n as [|n]; [lia|]. destruct k as [|k]; cbn; [reflexivity|].
    f_equal. apply IH. lia.
Qed.

Lemma skipn_flip_bit (n k j : nat) (body : list byte) :
  (k < n)%nat -> skipn n (flip_bit k j body) = skipn n body.
Proof.
  revert n k. induction body as [|b body IH]; intros n k H.
  - now destruct k.
  - destruct n as [|n]; [lia|]. destruct k as [|k]; cbn; [reflexivity|].
    apply IH. lia.
Qed.

(** No single-bit pattern over 20 bytes has a zero remainder. *)
Definition unit_remainders_nonzero : bool :=
  forallb (fun k =>
             forallb (fun j =>
                        negb (N.eqb (crc_raw 0 (unit_pattern k j 20)) 0))
                     (seq 0 8))
          (seq 0 20).

Lemma unit_remainder (k j : nat) :
  (k < 20)%nat -> (j < 8)%nat -> crc_raw 0 (unit_pattern k j 20) <> 0.
Proof.
  intros Hk Hj.
  assert (H : unit_remainders_nonzero = true) by (vm_compute; reflexivity).
  unfold unit_remainders_nonzero in H. rewrite forallb_forall in H.
  specialize (H k). rewrite forallb_forall in H.
  specialize (H ltac:(apply in_seq; lia) j ltac:(apply in_seq; lia)).
  apply negb_true_iff, N.eqb_neq in H. exact H.
Qed.

(** The CRC of a 20-byte header changes when one of its bits does. *)
Lemma crc32_flip_bit (k j : nat) (h : list byte) :
  length h = 20%nat -> (k < 20)%nat -> (j < 8)%nat ->
  crc32 (flip_bit k j h) <> crc32 h.
Proof.
  intros Hl Hk Hj E. unfold crc32 in E.
  rewrite flip_bit_xor, Hl in E.
  rewrite <- (N.lxor_0_r CRC_INIT) in E at 1.
  rewrite crc_raw_lxor in E
    by (unfold unit_pattern; now rewrite length_flip_bit, repeat_length).
  apply (unit_remainder k j Hk Hj).
  set (r := crc_raw 0 (unit_pattern k j 20)) in *.
  set (c := crc_raw CRC_INIT h) in *.
  assert (H : N.lxor (N.lxor c CRC_XOROUT) (N.lxor (N.lxor c r) CRC_XOROUT)
              = 0) by (rewrite E; apply N.lxor_nilpotent).
  rewrite <- H. apply N.bits_inj. intros n. rewrite !N.lxor_spec.
  destruct (N.testbit c n), (N.testbit r n), (N.testbit CRC_XOROUT n);
    reflexivity.
Qed.

(** *** The field at offset 20 *)

Lemma le_value_le32 (n : N) : n < 2 ^ 32 -> le_value (le32 n) = n.
Proof.
  intros H. unfold le_value, le32. cbn [fold_right].
  rewrite !to_N_byte_of_N, !N.shiftr_div_pow2.
  change (2 ^ 8) with 256. change (2 ^ 16) with 65536.
  change (2 ^ 24) with 16777216. change (2 ^ 32) with 4294967296 in H.
  replace (n / 65536) with (n / 256 / 256)
    by (now rewrite N.Div0.div_div).
  replace (n / 16777216) with (n / 256 / 256 / 256)
    by (now rewrite !N.Div0.div_div).
  pose proof (N.div_mod n 256 ltac:(discriminate)) as E1.
  pose proof (N.div_mod (n / 256) 256 ltac:(discriminate)) as E2.
  pose proof (N.div_mod (n / 256 / 256) 256 ltac:(discriminate)) as E3.
  pose proof (N.mod_upper_bound n 256 ltac:(discriminate)).
  pose proof (N.mod_upper_bound (n / 256) 256 ltac:(discriminate)).
  pose proof (N.mod_upper_bound (n / 256 / 256) 256 ltac:(discriminate)).
  set (q1 := n / 256) in *. set (q2 := q1 / 256) in *.
  set (q3 := q2 / 256) in *.
  set (r1 := n mod 256) in *. set (r2 := q1 mod 256) in *.
  set (r3 := q2 mod 256) in *.
  clearbody r1 r2 r3 q3 q2 q1.
  assert (Hq : q3 < 256) by lia.
  rewrite (N.mod_small _ _ Hq). lia.
Qed.

Lemma crc_shift_lt (c : N) : c < 2 ^ 32 -> crc_shift c < 2 ^ 32.
Proof.
  intros H. unfold crc_shift. apply lxor_lt_pow2.
  - rewrite N.shiftr_div_pow2. change (2 ^ 1) with 2.
    change (2 ^ 32) with 4294967296 in *.
    apply N.Div0.div_lt_upper_bound. lia.
  - destruct (N.testbit c 0); reflexivity.
Qed.

Lemma crc_byte_lt (c : N) (b : byte) : c < 2 ^ 32 -> crc_byte c b < 2 ^ 32.
Proof.
  intros H. unfold crc_byte.
  assert (H0 : N.lxor c (Byte.to_N b) < 2 ^ 32).
  { apply lxor_lt_pow2; [exact H|].
    pose proof (to_N_lt b). change (2 ^ 32) with 4294967296. lia. }
  change 8 with (N.of_nat 8). rewrite N2Nat.inj_iter, Nat2N.id.
  generalize 8%nat. intros n. induction n as [|n IH]; [exact H0|].
  rewrite Nat.iter_succ. now apply crc_shift_lt.
Qed.

Lemma crc32_lt (bs : list byte) : crc32 bs < 2 ^ 32.
Proof.
  unfold crc32. apply lxor_lt_pow2; [|reflexivity].
  unfold crc_raw. assert (H : CRC_INIT < 2 ^ 32) by reflexivity.
  revert H. generalize CRC_INIT. induction bs as [|b bs IH]; intros c H.
  - exact H.
  - cbn [fold_left]. apply IH. now apply crc_byte_lt.
Qed.

Lemma length_meta_header (m : MetaData) : length (meta_header m) = 20%nat.
Proof. reflexivity. Qed.

Lemma meta_body_header (m : MetaData) :
  firstn 20 (meta_body m) = meta_header m.
Proof.
  unfold meta_body.
  rewrite <- (length_meta_header m) at 1.
  now rewrite firstn_app, Nat.sub_diag, firstn_all, firstn_O, app_nil_r.
Qed.

Lemma meta_body_crc_field (m : MetaData) :
  firstn 4 (skipn 20 (meta_body m)) = le32 (crc32 (meta_header m)).
Proof.
  unfold meta_body.
  rewrite <- (length_meta_header m) at 1.
  rewrite skipn_app, Nat.sub_diag, skipn_all. reflexivity.
Qed.

(** C3.  In the body of block zero the 4-byte field at offset 20 is the
    CRC32 of bytes 0..19, so the body passes the check of the Tx side;
    and in any body that passes the check, inverting any one bit of bytes
    0..19 makes the recomputed CRC differ from the stored one: the Tx
    side reports CRCFailure. *)
Theorem meta_crc_detects_bit_flips :
  (forall m : MetaData,
      length (meta_body m) = 508%nat /\
      firstn 4 (skipn 20 (meta_body m))
      = le32 (crc32 (firstn 20 (meta_body m))) /\
      check_meta (meta_body m) = MetaAccepted) /\
  (forall (body : list byte) (k j : nat),
      (24 <= length body)%nat -> check_meta body = MetaAccepted ->
      (k < 20)%nat -> (j < 8)%nat ->
      crc32 (firstn 20 (flip_bit k j body))
      <> le_value (firstn 4 (skipn 20 (flip_bit k j body))) /\
      check_meta (flip_bit k j body) = CRCFailure).
Proof.
  split.
  - intros m. split; [reflexivity|].
    rewrite meta_body_header, meta_body_crc_field. split; [reflexivity|].
    unfold check_meta, crc_ok.
    rewrite meta_body_header, meta_body_crc_field.
    rewrite le_value_le32 by apply crc32_lt.
    now rewrite N.eqb_refl.
  - intros body k j Hlen Hok Hk Hj.
    assert (Hne : crc32 (firstn 20 (flip_bit k j body))
                  <> le_value (firstn 4 (skipn 20 (flip_bit k j body)))).
    { unfold check_meta, crc_ok in Hok.
      destruct (N.eqb_spec (crc32 (firstn 20 body))
                  (le_value (firstn 4 (skipn 20 body)))) as [E|]; [|discriminate].
      rewrite firstn_flip_bit, skipn_flip_bit, <- E by assumption.
      apply crc32_flip_bit; auto.
      rewrite length_firstn. lia. }
    split; [exact Hne|].
    unfold check_meta, crc_ok.
    now destruct (N.eqb_spec (crc32 (firstn 20 (flip_bit k j body)))
                    (le_value (firstn 4 (skipn 20 (flip_bit k j body))))).
Qed.

Definition demo_meta : MetaData :=
  mkMetaData 433970 31250 2 16 128 8 1500000000 250000.

Example demo_meta_crc : crc32 (meta_header demo_meta) = 0x17E07C9B.
Proof. vm_compute. reflexivity. Qed.

Lemma meta_crc_detects_bit_flips_witness :
  (24 <= length (meta_body demo_meta))%nat /\
  check_meta (meta_body demo_meta) = MetaAccepted /\
  (3 < 20)%nat /\ (5 < 8)%nat /\
  check_meta (flip_bit 3 5 (meta_body demo_meta)) = CRCFailure.
Proof.
  assert (H1 : (24 <= length (meta_body demo_meta))%nat)
    by (vm_compute; lia).
  assert (H2 : check_meta (meta_body demo_meta) = MetaAccepted)
    by (vm_compute; reflexivity).
  assert (H3 : (3 < 20)%nat) by lia.
  assert (H4 : (5 < 8)%nat) by lia.
  split; [exact H1|]. split; [exact H2|].
  split; [exact H3|]. split; [exact H4|].
  exact (proj2 (proj2 meta_crc_detects_bit_flips
                  (meta_body demo_meta) 3%nat 5%nat H1 H2 H3 H4)).
Defined.

End Meta.

(** ** Packaging of samples into blocks and frames *)

Module Packaging.

Import Bytes Downsample.

(** The sizes of the README: blocks of 512 bytes, 4 of them signalling. *)
Definition UDPSIZE : nat := 512.
Definition HEADER_SIZE : nat := 4.
Definition BODY_SIZE : nat := UDPSIZE - HEADER_SIZE.

(** 128 data blocks per frame, the first one holding the meta data. *)
Definition NB_DATA_BLOCKS : nat := 128.
Definition NB_SAMPLE_BLOCKS : nat := NB_DATA_BLOCKS - 1.

(** Modelled from the spec: the packer is not among the sources; the spec
    gives the number of IQ samples of a sample block as
    508 / (2 * bytesPerSample). *)
Definition samples_per_block (bytes_per_sample : nat) : nat :=
  BODY_SIZE / (2 * bytes_per_sample).

Definition frame_samples (bytes_per_sample : nat) : nat :=
  NB_SAMPLE_BLOCKS * samples_per_block bytes_per_sample.

(** A signed integer on [n] bytes, little-endian, two's complement. *)
Definition enc_int (n : nat) (x : Z) : list byte :=
  map (fun k => byte_of_N (Z.to_N ((x / 2 ^ (8 * Z.of_nat k)) mod 256)))
      (seq 0 n).

Definition dec_int (bs : list byte) : Z :=
  let u := Z.of_N (le_value bs) in
  let w := (2 ^ (8 * Z.of_nat (length bs)))%Z in
  if (u <? w / 2)%Z then u else (u - w)%Z.

(** I then Q. *)
Definition enc_sample (bps : nat) (s : IQSample) : list byte :=
  enc_int bps (fst s) ++ enc_int bps (snd s).

Definition dec_sample (bps : nat) (bs : list byte) : IQSample :=
  (dec_int (firstn bps bs), dec_int (skipn bps bs)).

(** A list cut into pieces of [n] elements. *)
Fixpoint chunks_fuel {A : Type} (fuel n : nat) (l : list A) : list (list A) :=
  match fuel with
  | O => []
  | S f =>
      match l with
      | [] => []
      | _ :: _ => firstn n l :: chunks_fuel f n (skipn n l)
      end
  end.

Definition chunks {A : Type} (n : nat) (l : list A) : list (list A) :=
  chunks_fuel (length l) n l.

(** Modelled from the spec: a sample block body is the samples copied
    byte for byte, completed with zeros up to 508 bytes. *)
Definition pack_block (bps : nat) (samples : IQSampleVector) : list byte :=
  firstn BODY_SIZE
    (concat (map (enc_sample bps) samples) ++ repeat Byte.x00 BODY_SIZE).

(** Modelled from the spec: the bodies of blocks 1..127 of a frame. *)
Definition pack_frame (bps : nat) (samples : IQSampleVector)
  : list (list byte) :=
  map (pack_block bps) (chunks (samples_per_block bps) samples).

(** Modelled from the spec: the samples a body carries, as the Tx side
    expands them. *)
Definition unpack_block (bps : nat) (body : list byte) : IQSampleVector :=
  map (dec_sample bps)
      (chunks (2 * bps) (firstn (samples_per_block bps * (2 * bps)) body)).

Definition in_range (bps : nat) (x : Z) : Prop :=
  (- 2 ^ (8 * Z.of_nat bps - 1) <= x < 2 ^ (8 * Z.of_nat bps - 1))%Z.

Definition sample_in_range (bps : nat) (s : IQSample) : Prop :=
  in_range bps (fst s) /\ in_range bps (snd s).

Example samples_per_block_16bit : samples_per_block 2 = 127.
Proof. reflexivity. Qed.

Example samples_per_block_8bit : samples_per_block 1 = 254.
Proof. reflexivity. Qed.

Example pack_block_scenario_A :
  firstn 8 (pack_block 2 [(1, 2); (3, 4)]%Z)
  = map byte_of_N [1; 0; 2; 0; 3; 0; 4; 0]%N.
Proof. vm_compute. reflexivity. Qed.

Example unpack_negative :
  unpack_block 2 (pack_block 2 (repeat (-2, 300)%Z 127)) = repeat (-2, 300)%Z 127.
Proof. vm_compute. reflexivity. Qed.

(** *** Cutting and joining *)

Lemma firstn_exact {A : Type} (n : nat) (a b : list A) :
  length a = n -> firstn n (a ++ b) = a.
Proof.
  intros <-.
  now rewrite firstn_app, Nat.sub_diag, firstn_all, firstn_O, app_nil_r.
Qed.

Lemma skipn_exact {A : Type} (n : nat) (a b : list A) :
  length a = n -> skipn n (a ++ b) = b.
Proof.
  intros <-. now rewrite skipn_app, Nat.sub_diag, skipn_all.
Qed.

Lemma chunks_fuel_concat {A : Type} (n : nat) (ps : list (list A)) :
  (0 < n)%nat -> Forall (fun p => length p = n) ps ->
  forall fuel, (length (concat ps) <= fuel)%nat ->
  chunks_fuel fuel n (concat ps) = ps.
Proof.
  intros Hn Hps. induction Hps as [|p ps Hp Hps IH]; intros fuel Hf.
  - destruct fuel; reflexivity.
  - cbn [concat] in *. rewrite length_app in Hf.
    destruct fuel as [|f]; [lia|].
    destruct p as [|a p]; [simpl in Hp; lia|].
    cbn [chunks_fuel app].
    change (a :: p ++ concat ps) with ((a :: p) ++ concat ps).
    rewrite (firstn_exact _ _ _ Hp), (skipn_exact _ _ _ Hp).
    f_equal. apply IH. lia.
Qed.

Lemma concat_chunks_fuel {A : Type} (n : nat) (fuel : nat) (l : list A) :
  (0 < n)%nat -> (length l <= fuel)%nat ->
  concat (chunks_fuel fuel n l) = l.
Proof.
  intros Hn. revert l. induction fuel as [|f IH]; intros l Hl.
  - destruct l; [reflexivity | simpl in Hl; lia].
  - destruct l as [|a l]; [reflexivity|].
    cbn [chunks_fuel concat]. rewrite IH.
    + apply firstn_skipn.
    + rewrite length_skipn. cbn [length] in *. lia.
Qed.

Lemma chunks_fuel_shape {A : Type} (n m : nat) :
  (0 < n)%nat ->
  forall (fuel : nat) (l : list A),
    length l = (m * n)%nat -> (length l <= fuel)%nat ->
    length (chunks_fuel fuel n l) = m /\
    Forall (fun p => length p = n) (chunks_fuel fuel n l).
Proof.
  intros Hn. induction m as [|m IH]; intros fuel l Hl Hf.
  - destruct l; [|discriminate]. destruct fuel; split; auto.
  - cbn [Nat.mul] in Hl.
    destruct fuel as [|f]; [lia|].
    destruct l as [|a l]; [simpl in Hl; lia|].
    cbn [chunks_fuel].
    destruct (IH f (skipn n (a :: l))) as [H1 H2].
    + rewrite length_skipn. lia.
    + rewrite length_skipn. cbn [length] in *. lia.
    + split; [cbn [length]; now rewrite H1|].
      constructor; [|exact H2]. rewrite length_firstn. lia.
Qed.

(** *** Samples to bytes and back *)

Lemma byte_of_mod256 (x : Z) :
  Byte.to_N (byte_of_N (Z.to_N (x mod 256))) = Z.to_N (x mod 256).
Proof.
  rewrite to_N_byte_of_N. apply N.mod_small.
  pose proof (Z.mod_pos_bound x 256 eq_refl). lia.
Qed.

Lemma dec_enc_int (bps : nat) (x : Z) :
  bps = 1%nat \/ bps = 2%nat -> in_range bps x ->
  dec_int (enc_int bps x) = x.
Proof.
  unfold in_range, dec_int, enc_int.
  intros [-> | ->] Hx; cbn [seq map length le_value fold_right];
    rewrite !byte_of_mod256;
    cbn -[Z.div Z.modulo Z.to_N Z.of_N N.mul N.add] in *.
  - rewrite Z.div_1_r.
    pose proof (Z.mod_pos_bound x 256 eq_refl).
    pose proof (Z.div_mod x 256 ltac:(discriminate)).
    rewrite ?N.mul_0_r, ?N.add_0_r, Z2N.id by lia.
    change (256 / 2)%Z with 128%Z.
    match goal with |- context [(?a <? ?b)%Z] =>
      destruct (Z.ltb_spec a b) end; lia.
  - rewrite Z.div_1_r.
    pose proof (Z.mod_pos_bound x 256 eq_refl).
    pose proof (Z.mod_pos_bound (x / 256) 256 eq_refl).
    pose proof (Z.div_mod x 256 ltac:(discriminate)).
    pose proof (Z.div_mod (x / 256) 256 ltac:(discriminate)).
    rewrite ?N.mul_0_r, ?N.add_0_r.
    rewrite N2Z.inj_add, N2Z.inj_mul, !Z2N.id by lia.
    change (Z.of_N 256) with 256%Z. change (65536 / 2)%Z with 32768%Z.
    match goal with |- context [(?a <? ?b)%Z] =>
      destruct (Z.ltb_spec a b) end; lia.
Qed.

Lemma length_enc_int (n : nat) (x : Z) : length (enc_int n x) = n.
Proof. unfold enc_int. now rewrite length_map, length_seq. Qed.

Lemma length_enc_sample (bps : nat) (s : IQSample) :
  length (enc_sample bps s) = (2 * bps)%nat.
Proof. unfold enc_sample. rewrite length_app, !length_enc_int. lia. Qed.

Lemma dec_enc_sample (bps : nat) (s : IQSample) :
  bps = 1%nat \/ bps = 2%nat -> sample_in_range bps s ->
  dec_sample bps (enc_sample bps s) = s.
Proof.
  intros Hb [Hi Hq]. unfold dec_sample, enc_sample.
  rewrite (firstn_exact _ _ _ (length_enc_int bps (fst s))).
  rewrite (skipn_exact _ _ _ (length_enc_int bps (fst s))).
  rewrite !dec_enc_int by assumption. now destruct s.
Qed.

Lemma length_concat_enc (bps : nat) (v : IQSampleVector) :
  length (concat (map (enc_sample bps) v)) = (length v * (2 * bps))%nat.
Proof.
  induction v as [|s v IH]; [reflexivity|].
  cbn [map concat length]. rewrite length_app, length_enc_sample, IH. lia.
Qed.

Lemma block_is_full (bps : nat) :
  bps = 1%nat \/ bps = 2%nat ->
  (samples_per_block bps * (2 * bps) = BODY_SIZE)%nat /\
  (0 < samples_per_block bps)%nat.
Proof. intros [-> | ->]; cbv; split; lia. Qed.

Lemma unpack_pack_block (bps : nat) (blk : IQSampleVector) :
  bps = 1%nat \/ bps = 2%nat ->
  length blk = samples_per_block bps ->
  Forall (sample_in_range bps) blk ->
  length (pack_block bps blk) = BODY_SIZE /\
  unpack_block bps (pack_block bps blk) = blk.
Proof.
  intros Hb Hl Hr. destruct (block_is_full bps Hb) as [Hfull Hpos].
  assert (Hlen : length (concat (map (enc_sample bps) blk)) = BODY_SIZE).
  { now rewrite length_concat_enc, Hl. }
  unfold pack_block. rewrite (firstn_exact _ _ _ Hlen).
  split; [exact Hlen|].
  unfold unpack_block. rewrite Hfull, <- Hlen, firstn_all.
  unfold chunks. rewrite chunks_fuel_concat.
  - rewrite map_map. rewrite <- (map_id blk) at 2.
    apply map_ext_Forall.
    eapply Forall_impl; [|exact Hr]. intros s Hs.
    now apply dec_enc_sample.
  - destruct Hb as [-> | ->]; lia.
  - apply Forall_map, Forall_forall. intros s _.
    apply length_enc_sample.
  - lia.
Qed.

(** C2.  With 1 or 2 bytes per sample, a frame worth of samples packs
    into 127 sample blocks of 508 bytes; each block carries exactly
    508 / (2 * bytesPerSample) samples, the frame conveys exactly
    127 x samplesPerBlock samples, the ones that were packed; with 2
    bytes per sample that is 127 samples per block and 16129 per
    frame. *)
Theorem frame_sample_counts (bps : nat) (samples : IQSampleVector) :
  bps = 1%nat \/ bps = 2%nat ->
  length samples = frame_samples bps ->
  Forall (sample_in_range bps) samples ->
  samples_per_block bps = (508 / (2 * bps))%nat /\
  length (pack_frame bps samples) = 127%nat /\
  Forall (fun body =>
            length body = 508%nat /\
            length (unpack_block bps body) = samples_per_block bps)
         (pack_frame bps samples) /\
  concat (map (unpack_block bps) (pack_frame bps samples)) = samples /\
  length samples = (127 * samples_per_block bps)%nat /\
  (bps = 2%nat ->
   samples_per_block bps = 127%nat /\ length samples = 16129%nat).
Proof.
  intros Hb Hl Hr. destruct (block_is_full bps Hb) as [Hfull Hpos].
  set (spb := samples_per_block bps) in *.
  assert (Hshape := chunks_fuel_shape spb NB_SAMPLE_BLOCKS Hpos
                      (length samples) samples Hl (le_n _)).
  fold (chunks spb samples) in Hshape. destruct Hshape as [Hn Hlens].
  assert (Hcat : concat (chunks spb samples) = samples)
    by (apply concat_chunks_fuel; [exact Hpos | apply le_n]).
  assert (Hrs : Forall (Forall (sample_in_range bps)) (chunks spb samples)).
  { apply Forall_concat. now rewrite Hcat. }
  assert (Hblk : Forall (fun blk =>
                           length (pack_block bps blk) = BODY_SIZE /\
                           unpack_block bps (pack_block bps blk) = blk)
                        (chunks spb samples)).
  { rewrite Forall_forall in *. intros blk Hin.
    apply unpack_pack_block; auto. }
  split; [reflexivity|]. unfold pack_frame. fold spb.
  split; [now rewrite length_map|].
  split.
  - apply Forall_map. rewrite Forall_forall in *. intros blk Hin.
    destruct (Hblk blk Hin) as [H1 H2]. split; [exact H1|].
    rewrite H2. now apply Hlens.
  - split.
    + rewrite map_map. rewrite <- Hcat at 2. f_equal.
      rewrite <- (map_id (chunks spb samples)) at 2.
      apply map_ext_Forall.
      eapply Forall_impl; [|exact Hblk]. now intros blk [_ H].
    + split; [exact Hl|].
      intros ->. split; [reflexivity | exact Hl].
Qed.

Lemma frame_sample_counts_witness :
  let samples := repeat (-2, 300)%Z 16129 in
  (2 = 1 \/ 2 = 2)%nat /\
  length samples = frame_samples 2 /\
  length (pack_frame 2 samples) = 127%nat /\
  concat (map (unpack_block 2) (pack_frame 2 samples)) = samples.
Proof.
  intros samples.
  assert (H1 : (2 = 1 \/ 2 = 2)%nat) by (right; reflexivity).
  assert (H2 : length samples = frame_samples 2) by (vm_compute; reflexivity).
  assert (H3 : Forall (sample_in_range 2) samples).
  { apply Forall_forall. intros s Hs. apply repeat_spec in Hs. subst s.
    split; cbv; split; congruence. }
  destruct (frame_sample_counts 2 samples H1 H2 H3)
    as (_ & H4 & _ & H5 & _).
  split; [exact H1|]. split; [exact H2|]. split; [exact H4 | exact H5].
Defined.

End Packaging.

(** ** The field GF(2^8) *)

Module GF256.

Import Bytes.
Local Open Scope N_scope.

(** Modelled from the spec: the per-byte arithmetic of the codec is that
    of GF(2^8); the codec library is not among the sources.  The
    reduction polynomial is x^8 + x^6 + x^3 + x^2 + 1. *)
Definition GF_POLY : N := 0x14D.

(** Multiplication by x, on the bits of a field element. *)
Definition xtime (a : N) : N :=
  N.lxor (N.shiftl a 1) (if N.testbit a 7 then GF_POLY else 0).

(** Shift-and-add product: bit [i] of [b] selects [a * x^i]. *)
Fixpoint nmul_from (n : nat) (a b i : N) : N :=
  match n with
  | O => 0
  | S n' =>
      N.lxor (if N.testbit b i then a else 0)
             (nmul_from n' (xtime a) b (N.succ i))
  end.

Definition nmul (a b : N) : N := nmul_from 8 a b 0.

(** The inverse as the power 254, by squarings. *)
Definition ninv (x : N) : N :=
  let x2 := nmul x x in
  let x3 := nmul x2 x in
  let x6 := nmul x3 x3 in
  let x7 := nmul x6 x in
  let x14 := nmul x7 x7 in
  let x15 := nmul x14 x in
  let x30 := nmul x15 x15 in
  let x31 := nmul x30 x in
  let x62 := nmul x31 x31 in
  let x63 := nmul x62 x in
  let x126 := nmul x63 x63 in
  let x127 := nmul x126 x in
  nmul x127 x127.

Definition gzero : byte := Byte.x00.
Definition gone : byte := Byte.x01.
Definition gadd (a b : byte) : byte := bxor a b.
Definition gsub (a b : byte) : byte := bxor a b.
Definition gopp (a : byte) : byte := a.
Definition gmul (a b : byte) : byte :=
  byte_of_N (nmul (Byte.to_N a) (Byte.to_N b)).
Definition ginv (a : byte) : byte := byte_of_N (ninv (Byte.to_N a)).
Definition gdiv (a b : byte) : byte := gmul a (ginv b).

Example nmul_wraps : nmul 0x80 2 = 0x4D.
Proof. reflexivity. Qed.

Example ninv_two : ninv 2 = 0xA6 /\ nmul 2 0xA6 = 1.
Proof. split; reflexivity. Qed.

(** *** Linearity over GF(2) *)

Definition additive (f : N -> N) : Prop :=
  forall a b, f (N.lxor a b) = N.lxor (f a) (f b).

Lemma additive_zero (f : N -> N) : additive f -> f 0 = 0.
Proof.
  intros H. pose proof (H 0 0) as E. rewrite N.lxor_0_l in E.
  rewrite E at 1. apply N.lxor_nilpotent.
Qed.

Lemma additive_compose (f g : N -> N) :
  additive f -> additive g -> additive (fun a => f (g a)).
Proof. intros Hf Hg a b. now rewrite Hg, Hf. Qed.

Lemma xtime_additive : additive xtime.
Proof.
  intros a b. unfold xtime. rewrite N.shiftl_lxor, N.lxor_spec, lxor_swap.
  f_equal.
  destruct (N.testbit a 7), (N.testbit b 7); cbn [xorb];
    now rewrite ?N.lxor_nilpotent, ?N.lxor_0_r, ?N.lxor_0_l.
Qed.

Lemma nmul_from_additive_l (n : nat) (b i : N) :
  additive (fun a => nmul_from n a b i).
Proof.
  revert i. induction n as [|n IH]; intros i a c; cbn [nmul_from].
  - now rewrite N.lxor_0_l.
  - rewrite xtime_additive, IH, lxor_swap. f_equal.
    destruct (N.testbit b i); [reflexivity | now rewrite N.lxor_0_l].
Qed.

Lemma nmul_from_additive_r (n : nat) (a i : N) :
  additive (fun b => nmul_from n a b i).
Proof.
  revert a i. induction n as [|n IH]; intros a i b c; cbn [nmul_from].
  - now rewrite N.lxor_0_l.
  - rewrite IH, lxor_swap, N.lxor_spec. f_equal.
    destruct (N.testbit b i), (N.testbit c i); cbn [xorb];
      now rewrite ?N.lxor_nilpotent, ?N.lxor_0_r, ?N.lxor_0_l.
Qed.

Lemma nmul_additive_l (b : N) : additive (fun a => nmul a b).
Proof. apply nmul_from_additive_l. Qed.

Lemma nmul_additive_r (a : N) : additive (nmul a).
Proof. apply nmul_from_additive_r. Qed.

(** *** Two linear maps that agree on the powers of x agree on bytes *)

Lemma testbit_high (a m : N) : a < 2 ^ m -> N.testbit a m = false.
Proof.
  intros H. destruct (N.eq_dec a 0) as [->|Ha]; [apply N.bits_0|].
  apply N.bits_above_log2, N.log2_lt_pow2; [lia | exact H].
Qed.

Lemma split_top (a n : N) :
  a < 2 ^ N.succ n ->
  a = N.lxor (a mod 2 ^ n) (if N.testbit a n then 2 ^ n else 0).
Proof.
  intros H. apply N.bits_inj. intros m. rewrite N.lxor_spec.
  destruct (N.lt_trichotomy m n) as [Hlt | [-> | Hgt]].
  - rewrite N.mod_pow2_bits_low by assumption.
    destruct (N.testbit a n);
      [rewrite N.pow2_bits_false by lia | rewrite N.bits_0];
      now rewrite xorb_false_r.
  - rewrite N.mod_pow2_bits_high by lia.
    destruct (N.testbit a n);
      [now rewrite N.pow2_bits_true | now rewrite N.bits_0].
  - rewrite N.mod_pow2_bits_high by lia.
    rewrite testbit_high.
    + destruct (N.testbit a n);
        [now rewrite N.pow2_bits_false by lia | now rewrite N.bits_0].
    + apply N.lt_le_trans with (2 ^ N.succ n); [exact H|].
      apply N.pow_le_mono_r; lia.
Qed.

Lemma additive_ext (f g : N -> N) (n : nat) :
  additive f -> additive g ->
  (forall i : nat, (i < n)%nat -> f (2 ^ N.of_nat i) = g (2 ^ N.of_nat i)) ->
  forall a, a < 2 ^ N.of_nat n -> f a = g a.
Proof.
  intros Hf Hg. induction n as [|n IH]; intros Hb a Ha.
  - change (2 ^ N.of_nat 0) with 1 in Ha.
    assert (a = 0) by lia. subst a.
    now rewrite (additive_zero f Hf), (additive_zero g Hg).
  - rewrite Nat2N.inj_succ in Ha.
    rewrite (split_top a (N.of_nat n) Ha), Hf, Hg. f_equal.
    + apply IH; [intros i Hi; apply Hb; lia|].
      apply N.mod_upper_bound, N.pow_nonzero. discriminate.
    + destruct (N.testbit a (N.of_nat n)).
      * apply Hb. lia.
      * now rewrite (additive_zero f Hf), (additive_zero g Hg).
Qed.

Lemma additive_ext8 (f g : N -> N) :
  additive f -> additive g ->
  forallb (fun i => N.eqb (f (2 ^ N.of_nat i)) (g (2 ^ N.of_nat i)))
          (seq 0 8) = true ->
  forall a, a < 256 -> f a = g a.
Proof.
  intros Hf Hg Hb a Ha. apply (additive_ext f g 8 Hf Hg); [|exact Ha].
  intros i Hi. rewrite forallb_forall in Hb.
  apply N.eqb_eq, Hb, in_seq. lia.
Qed.

(** *** The field laws on bit patterns *)

Ltac each_below_8 i :=
  do 8 (destruct i as [|i]; [vm_compute; reflexivity|]); lia.

Lemma N256_forall (P : N -> bool) :
  forallb P (map N.of_nat (seq 0 256)) = true ->
  forall a, a < 256 -> P a = true.
Proof.
  intros H a Ha. rewrite forallb_forall in H. apply H.
  rewrite <- (N2Nat.id a). apply in_map, in_seq. lia.
Qed.

Lemma xtime_lt (a : N) : a < 256 -> xtime a < 256.
Proof.
  intros Ha. apply N.ltb_lt.
  apply (N256_forall (fun a => xtime a <? 256)); [|exact Ha].
  vm_compute. reflexivity.
Qed.

Lemma nmul_from_lt (n : nat) (a b i : N) :
  a < 256 -> nmul_from n a b i < 256.
Proof.
  revert a i. induction n as [|n IH]; intros a i Ha; cbn [nmul_from].
  - reflexivity.
  - apply (lxor_lt_pow2 _ _ 8).
    + destruct (N.testbit b i); [exact Ha | reflexivity].
    + apply IH, xtime_lt, Ha.
Qed.

Lemma nmul_lt (a b : N) : a < 256 -> nmul a b < 256.
Proof. apply nmul_from_lt. Qed.

Lemma ninv_lt (a : N) : a < 256 -> ninv a < 256.
Proof. intros Ha. unfold ninv. repeat apply nmul_lt. exact Ha. Qed.

Lemma nmul_comm_basis (i : nat) (b : N) :
  (i < 8)%nat -> b < 256 -> nmul (2 ^ N.of_nat i) b = nmul b (2 ^ N.of_nat i).
Proof.
  intros Hi. apply (additive_ext (nmul (2 ^ N.of_nat i))
                      (fun b => nmul b (2 ^ N.of_nat i)) 8).
  - apply nmul_additive_r.
  - apply nmul_additive_l.
  - intros j Hj. revert Hi Hj.
    do 8 (destruct i as [|i]; [intros _; each_below_8 j|]). lia.
Qed.

Lemma nmul_comm (a b : N) : a < 256 -> b < 256 -> nmul a b = nmul b a.
Proof.
  intros Ha Hb. revert a Ha.
  apply (additive_ext (fun a => nmul a b) (nmul b) 8).
  - apply nmul_additive_l.
  - apply nmul_additive_r.
  - intros i Hi. now apply nmul_comm_basis.
Qed.

Lemma nmul_1_l (a : N) : a < 256 -> nmul 1 a = a.
Proof.
  apply (additive_ext8 (nmul 1) (fun a => a)).
  - apply nmul_additive_r.
  - now intros x y.
  - vm_compute. reflexivity.
Qed.

Lemma nmul_assoc_basis2 (j k : nat) (a : N) :
  (j < 8)%nat -> (k < 8)%nat -> a < 256 ->
  nmul (nmul a (2 ^ N.of_nat j)) (2 ^ N.of_nat k) =
  nmul a (nmul (2 ^ N.of_nat j) (2 ^ N.of_nat k)).
Proof.
  intros Hj Hk.
  apply (additive_ext
           (fun a => nmul (nmul a (2 ^ N.of_nat j)) (2 ^ N.of_nat k))
           (fun a => nmul a (nmul (2 ^ N.of_nat j) (2 ^ N.of_nat k))) 8).
  - apply (additive_compose (fun x => nmul x (2 ^ N.of_nat k))
             (fun a => nmul a (2 ^ N.of_nat j)));
      apply nmul_additive_l.
  - apply nmul_additive_l.
  - intros i Hi. revert Hj Hk Hi.
    do 8 (destruct j as [|j];
          [intros _;
           do 8 (destruct k as [|k]; [intros _; each_below_8 i|]); lia|]).
    lia.
Qed.

Lemma nmul_assoc_basis1 (k : nat) (a b : N) :
  (k < 8)%nat -> a < 256 -> b < 256 ->
  nmul (nmul a b) (2 ^ N.of_nat k) = nmul a (nmul b (2 ^ N.of_nat k)).
Proof.
  intros Hk Ha. revert b.
  apply (additive_ext
           (fun b => nmul (nmul a b) (2 ^ N.of_nat k))
           (fun b => nmul a (nmul b (2 ^ N.of_nat k))) 8).
  - apply (additive_compose (fun x => nmul x (2 ^ N.of_nat k)) (nmul a));
      [apply nmul_additive_l | apply nmul_additive_r].
  - apply (additive_compose (nmul a) (fun b => nmul b (2 ^ N.of_nat k)));
      [apply nmul_additive_r | apply nmul_additive_l].
  - intros j Hj. now apply nmul_assoc_basis2.
Qed.

Lemma nmul_assoc (a b c : N) :
  a < 256 -> b < 256 -> c < 256 ->
  nmul (nmul a b) c = nmul a (nmul b c).
Proof.
  intros Ha Hb. revert c.
  apply (additive_ext (nmul (nmul a b)) (fun c => nmul a (nmul b c)) 8).
  - apply nmul_additive_r.
  - apply (additive_compose (nmul a) (nmul b)); apply nmul_additive_r.
  - intros k Hk. now apply nmul_assoc_basis1.
Qed.

Lemma ninv_l (a : N) : a < 256 -> a <> 0 -> nmul (ninv a) a = 1.
Proof.
  intros Ha Hn.
  assert (H : (N.eqb a 0 || N.eqb (nmul (ninv a) a) 1)%bool = true).
  { apply (N256_forall
             (fun a => (N.eqb a 0 || N.eqb (nmul (ninv a) a) 1)%bool));
      [vm_compute; reflexivity | exact Ha]. }
  apply orb_true_iff in H as [H | H]; apply N.eqb_eq in H; congruence.
Qed.

(** *** The field on bytes *)

Lemma to_N_gmul (a b : byte) :
  Byte.to_N (gmul a b) = nmul (Byte.to_N a) (Byte.to_N b).
Proof.
  unfold gmul. rewrite to_N_byte_of_N.
  apply N.mod_small, nmul_lt, to_N_lt.
Qed.

Lemma to_N_ginv (a : byte) : Byte.to_N (ginv a) = ninv (Byte.to_N a).
Proof.
  unfold ginv. rewrite to_N_byte_of_N.
  apply N.mod_small, ninv_lt, to_N_lt.
Qed.

Lemma gadd_comm (a b : byte) : gadd a b = gadd b a.
Proof. apply to_N_inj. unfold gadd. rewrite !to_N_bxor. apply N.lxor_comm. Qed.

Lemma gadd_assoc (a b c : byte) : gadd a (gadd b c) = gadd (gadd a b) c.
Proof.
  apply to_N_inj. unfold gadd. rewrite !to_N_bxor.
  symmetry. apply N.lxor_assoc.
Qed.

Lemma gadd_0_l (a : byte) : gadd gzero a = a.
Proof. apply to_N_inj. unfold gadd. rewrite to_N_bxor. apply N.lxor_0_l. Qed.

Lemma gadd_self (a : byte) : gadd a a = gzero.
Proof.
  apply to_N_inj. unfold gadd. rewrite to_N_bxor. apply N.lxor_nilpotent.
Qed.

Lemma gmul_comm (a b : byte) : gmul a b = gmul b a.
Proof.
  apply to_N_inj. rewrite !to_N_gmul. apply nmul_comm; apply to_N_lt.
Qed.

Lemma gmul_assoc (a b c : byte) : gmul a (gmul b c) = gmul (gmul a b) c.
Proof.
  apply to_N_inj. rewrite !to_N_gmul.
  symmetry. apply nmul_assoc; apply to_N_lt.
Qed.

Lemma gmul_1_l (a : byte) : gmul gone a = a.
Proof. apply to_N_inj. rewrite to_N_gmul. apply nmul_1_l, to_N_lt. Qed.

Lemma gmul_distr_l (a b c : byte) :
  gmul (gadd a b) c = gadd (gmul a c) (gmul b c).
Proof.
  apply to_N_inj. unfold gadd. rewrite to_N_gmul, !to_N_bxor, !to_N_gmul.
  apply (nmul_additive_l (Byte.to_N c)).
Qed.

Lemma ginv_l (a : byte) : a <> gzero -> gmul (ginv a) a = gone.
Proof.
  intros Ha. apply to_N_inj. rewrite to_N_gmul, to_N_ginv.
  apply ninv_l; [apply to_N_lt|].
  intros E. apply Ha, to_N_inj. exact E.
Qed.

Lemma gf_ring_theory : ring_theory gzero gone gadd gmul gsub gopp eq.
Proof.
  constructor.
  - exact gadd_0_l.
  - exact gadd_comm.
  - exact gadd_assoc.
  - exact gmul_1_l.
  - exact gmul_comm.
  - exact gmul_assoc.
  - exact gmul_distr_l.
  - reflexivity.
  - exact gadd_self.
Qed.

Lemma gf_field_theory :
  field_theory gzero gone gadd gmul gsub gopp gdiv ginv eq.
Proof.
  constructor.
  - exact gf_ring_theory.
  - discriminate.
  - reflexivity.
  - exact ginv_l.
Qed.

Add Field gf256_field : gf_field_theory.

(** Characteristic two: subtraction is addition. *)
Lemma gsub_gadd (a b : byte) : gsub a b = gadd a b.
Proof. reflexivity. Qed.

Lemma gadd_eq_zero (a b : byte) : gadd a b = gzero -> a = b.
Proof.
  intros H. change (gadd a b) with (gsub a b) in H.
  transitivity (gadd (gsub a b) b); [ring | rewrite H; ring].
Qed.

Lemma gmul_nonzero (a b : byte) :
  a <> gzero -> b <> gzero -> gmul a b <> gzero.
Proof.
  intros Ha Hb E. apply Ha.
  transitivity (gmul (gmul a b) (ginv b)); [field; exact Hb|].
  rewrite E. ring.
Qed.

Lemma ginv_nonzero (a : byte) : a <> gzero -> ginv a <> gzero.
Proof.
  intros Ha E. pose proof (ginv_l a Ha) as H. rewrite E in H.
  assert (H0 : gmul gzero a = gzero) by ring.
  rewrite H0 in H. discriminate.
Qed.

End GF256.

(** ** The Cauchy MDS block erasure code *)

Module Fec.

Import Bytes GF256.

Definition body : Type := list byte.

(** A coefficient row of the system and its right-hand side. *)
Definition row : Type := (list byte * body)%type.

Definition vscale (c : byte) (v : list byte) : list byte := map (gmul c) v.

Definition vzero (len : nat) : list byte := repeat gzero len.

(** Linear combination of bodies of [len] bytes. *)
Fixpoint dot (len : nat) (cs : list byte) (vs : list body) : body :=
  match cs, vs with
  | c :: cs', v :: vs' => xor_bytes (vscale c v) (dot len cs' vs')
  | _, _ => vzero len
  end.

(** The first unknown eliminated from the coefficients of a row, by the
    pivot row [cs] scaled with [pinv], the inverse of the pivot. *)
Definition elim_coefs (pinv : byte) (cs : list byte) (crow : list byte)
  : list byte :=
  match crow with
  | [] => []
  | c' :: cs' => xor_bytes cs' (vscale (gmul c' pinv) cs)
  end.

Definition eliminate (pinv : byte) (cs : list byte) (r : body) (rw : row)
  : row :=
  match fst rw with
  | [] => rw
  | c' :: _ =>
      (elim_coefs pinv cs (fst rw),
       xor_bytes (snd rw) (vscale (gmul c' pinv) r))
  end.

(** Modelled from the spec: the decoder reconstructs by Gaussian
    elimination.  On [n] equations in [n] unknown bodies: the
    first row is the pivot row, the first unknown is eliminated from the
    others, the remaining system is solved and the first unknown follows
    by substitution.  A zero pivot gives [None]. *)
Fixpoint solve (len n : nat) (rows : list row) : option (list body) :=
  match n with
  | O => Some []
  | S n' =>
      match rows with
      | (c :: cs, r) :: rest =>
          if Byte.eqb c gzero then None
          else
            let pinv := ginv c in
            match solve len n' (map (eliminate pinv cs r) rest) with
            | Some xs =>
                Some (vscale pinv (xor_bytes r (dot len cs xs)) :: xs)
            | None => None
            end
      | _ => None
      end
  end.

(** The geometry of a frame: 128 data blocks with bodies of 508 bytes. *)
Definition NB_DATA : nat := 128.
Definition BODY_LEN : nat := 508.

(** Modelled from the spec: the two sequences of distinct field elements
    of the Cauchy matrix, deterministic from [(k, m)]:
    [y_j = j] for the data columns, [x_i = k + i] for the parity rows. *)
Definition xcoord (k i : nat) : byte := byte_of_N (N.of_nat (k + i)).
Definition ycoord (j : nat) : byte := byte_of_N (N.of_nat j).

(** Modelled from the spec: row [i] of the Cauchy part is
    [1 / (x_i + y_j)] in GF(2^8). *)
Definition coef (k i j : nat) : byte := ginv (gadd (xcoord k i) (ycoord j)).

(** Modelled from the spec: the codec is an external library that is not
    among the sources; the spec gives a parity body as the linear
    combination of the [k] data bodies with the coefficients of a row of
    the Cauchy matrix. *)
Definition parity (len k : nat) (data : list body) (i : nat) : body :=
  dot len (map (coef k i) (seq 0 k)) data.

(** Modelled from the spec: [encode(data[0..k))] gives the [m] parity
    bodies. *)
Definition encode (len k m : nat) (data : list body) : list body :=
  map (parity len k data) (seq 0 m).

(** The elements selected by a mask. *)
Fixpoint sel {A : Type} (mask : list bool) (l : list A) : list A :=
  match mask, l with
  | b :: mask', x :: l' => if b then x :: sel mask' l' else sel mask' l'
  | _, _ => []
  end.

(** What arrives of a frame: the blocks whose mask bit is set. *)
Fixpoint erase {A : Type} (mask : list bool) (l : list A) : list (option A) :=
  match mask, l with
  | b :: mask', x :: l' => (if b then Some x else None) :: erase mask' l'
  | _, _ => []
  end.

Definition present {A : Type} (rx : list (option A)) : list bool :=
  map (fun o => match o with Some _ => true | None => false end) rx.

Definition values {A : Type} (rx : list (option A)) : list A :=
  flat_map (fun o => match o with Some v => [v] | None => [] end) rx.

(** The received data bodies completed with the reconstructed ones. *)
Fixpoint fill (rx : list (option body)) (sol : list body) : list body :=
  match rx with
  | [] => []
  | Some d :: rx' => d :: fill rx' sol
  | None :: rx' =>
      match sol with
      | x :: sol' => x :: fill rx' sol'
      | [] => []
      end
  end.

(** Modelled from the spec: the decoder gets the blocks of a frame by
    their original index ([None] for a block that did not arrive); it
    takes as many of the parity bodies present as data bodies are
    missing (InsufficientBlocks, here [None], when there are too few),
    removes the contribution of the data bodies present from them, and
    reconstructs the missing data bodies by Gaussian elimination over
    the Cauchy matrix restricted to those rows and columns. *)
Definition decode (len k m : nat) (rx : list (option body))
  : option (list body) :=
  let rx_data := firstn k rx in
  let rx_parity := skipn k rx in
  let have := present rx_data in
  let lost_idx := sel (map negb have) (seq 0 k) in
  let n := length lost_idx in
  let par_idx := firstn n (sel (present rx_parity) (seq 0 m)) in
  let par_val := firstn n (values rx_parity) in
  if (length par_idx <? n)%nat then None
  else
    let rows :=
      map (fun ip : nat * body =>
             (map (coef k (fst ip)) lost_idx,
              xor_bytes (snd ip)
                (dot len (map (coef k (fst ip)) (sel have (seq 0 k)))
                     (values rx_data))))
          (combine par_idx par_val) in
    match solve len n rows with
    | Some sol => Some (fill rx_data sol)
    | None => None
    end.

Definition count_true (mask : list bool) : nat :=
  length (filter (fun b => b) mask).

(** A small code with the same construction: 4 data bodies of 3 bytes,
    2 parity bodies, two data bodies lost. *)
Definition toy_data : list body :=
  map (map byte_of_N) [[1; 2; 3]; [40; 50; 60]; [7; 7; 7]; [255; 0; 128]]%N.

Example toy_encode :
  encode 3 4 2 toy_data = map (map byte_of_N) [[128; 77; 68]; [0; 232; 49]]%N.
Proof. vm_compute. reflexivity. Qed.

Example toy_decode :
  decode 3 4 2
    (erase [true; false; false; true; true; true]
       (toy_data ++ encode 3 4 2 toy_data))
  = Some toy_data.
Proof. vm_compute. reflexivity. Qed.

Example toy_insufficient :
  decode 3 4 2
    (erase [true; false; false; false; true; true]
       (toy_data ++ encode 3 4 2 toy_data))
  = None.
Proof. vm_compute. reflexivity. Qed.

(** *** Bodies as vectors over the field *)

Lemma length_xor_bytes (a b : list byte) :
  length (xor_bytes a b) = Nat.min (length a) (length b).
Proof.
  revert b. induction a as [|x a IH]; intros [|y b]; cbn; auto.
Qed.

Lemma length_vscale (c : byte) (v : list byte) :
  length (vscale c v) = length v.
Proof. apply length_map. Qed.

Lemma length_vzero (len : nat) : length (vzero len) = len.
Proof. apply repeat_length. Qed.

Lemma xor_bytes_swap (a b c d : list byte) :
  xor_bytes (xor_bytes a b) (xor_bytes c d) =
  xor_bytes (xor_bytes a c) (xor_bytes b d).
Proof.
  revert b c d. induction a as [|x a IH]; intros [|y b] [|z c] [|w d];
    cbn [xor_bytes]; try reflexivity.
  f_equal; [|apply IH]. change bxor with gadd. ring.
Qed.

(** In characteristic two a body added twice cancels. *)
Lemma xor_bytes_cancel (a b : list byte) :
  length a = length b -> xor_bytes (xor_bytes a b) b = a.
Proof.
  revert b. induction a as [|x a IH]; intros [|y b] H; try discriminate;
    cbn [xor_bytes]; [reflexivity|].
  f_equal; [|apply IH; now injection H].
  change bxor with gadd. change (gadd (gadd x y) y) with (gadd (gsub x y) y).
  ring.
Qed.

Lemma xor_bytes_cancel_l (a b : list byte) :
  length a = length b -> xor_bytes (xor_bytes a b) a = b.
Proof.
  revert b. induction a as [|x a IH]; intros [|y b] H; try discriminate;
    cbn [xor_bytes]; [reflexivity|].
  f_equal; [|apply IH; now injection H].
  change bxor with gadd. change (gadd (gadd x y) x) with (gsub (gadd x y) x).
  ring.
Qed.

Lemma xor_bytes_cancel_pair (a b c : list byte) :
  length a = length b -> length a = length c ->
  xor_bytes (xor_bytes a b) (xor_bytes a c) = xor_bytes b c.
Proof.
  revert b c. induction a as [|x a IH]; intros [|y b] [|z c] Hb Hc;
    try discriminate; cbn [xor_bytes]; [reflexivity|].
  f_equal; [|apply IH; [now injection Hb | now injection Hc]].
  change bxor with gadd.
  change (gadd (gadd x y) (gadd x z)) with (gsub (gadd x y) (gsub x z)).
  ring.
Qed.

Lemma vscale_xor_bytes (c : byte) (u v : list byte) :
  vscale c (xor_bytes u v) = xor_bytes (vscale c u) (vscale c v).
Proof.
  revert v. induction u as [|x u IH]; intros [|y v]; cbn [xor_bytes vscale map];
    try reflexivity.
  f_equal; [|apply IH]. change bxor with gadd. ring.
Qed.

Lemma vscale_vscale (a b : byte) (v : list byte) :
  vscale a (vscale b v) = vscale (gmul a b) v.
Proof.
  unfold vscale. rewrite map_map. apply map_ext. intros x. ring.
Qed.

Lemma vscale_one (v : list byte) : vscale gone v = v.
Proof.
  unfold vscale. rewrite <- (map_id v) at 2. apply map_ext. intros x. ring.
Qed.

Lemma vscale_vzero (c : byte) (len : nat) : vscale c (vzero len) = vzero len.
Proof.
  unfold vscale, vzero. rewrite map_repeat.
  replace (gmul c gzero) with gzero by ring. reflexivity.
Qed.

Lemma xor_bytes_vzero (len : nat) :
  xor_bytes (vzero len) (vzero len) = vzero len.
Proof. induction len as [|n IH]; [reflexivity|]. cbn. now f_equal. Qed.

Lemma length_dot (len : nat) (cs : list byte) (vs : list body) :
  Forall (fun v => length v = len) vs -> length (dot len cs vs) = len.
Proof.
  intros H. revert cs. induction H as [|v vs Hv Hvs IH]; intros [|c cs];
    cbn [dot]; try apply length_vzero.
  rewrite length_xor_bytes, length_vscale, IH, Hv. apply Nat.min_id.
Qed.

(** The combination is linear in the coefficients. *)
Lemma dot_linear (len : nat) (f : byte) (cs' cs : list byte)
  (xs : list body) :
  length cs' = length cs ->
  dot len (xor_bytes cs' (vscale f cs)) xs =
  xor_bytes (dot len cs' xs) (vscale f (dot len cs xs)).
Proof.
  revert cs xs. induction cs' as [|a cs' IH]; intros [|b cs] xs H;
    try discriminate.
  - cbn [xor_bytes dot]. now rewrite vscale_vzero, xor_bytes_vzero.
  - change (vscale f (b :: cs)) with (gmul f b :: vscale f cs).
    destruct xs as [|x xs]; cbn [xor_bytes dot].
    + now rewrite vscale_vzero, xor_bytes_vzero.
    + rewrite IH by (now injection H).
      rewrite vscale_xor_bytes, vscale_vscale, xor_bytes_swap. f_equal.
      unfold vscale. clear. induction x as [|e x IHx]; [reflexivity|].
      cbn [map xor_bytes]. f_equal; [|exact IHx].
      change bxor with gadd. ring.
Qed.

(** *** Elimination solves the systems it can pivot on *)

(** [n] rows of [n] coefficients. *)
Definition square (n : nat) (m : list (list byte)) : Prop :=
  length m = n /\ Forall (fun r => length r = n) m.

(** No pivot met by the elimination is zero. *)
Fixpoint good (n : nat) (m : list (list byte)) : Prop :=
  match n with
  | O => True
  | S n' =>
      match m with
      | (c :: cs) :: rest =>
          c <> gzero /\ good n' (map (elim_coefs (ginv c) cs) rest)
      | _ => False
      end
  end.

(** The right-hand side of a row is its combination of [sol]. *)
Definition consistent (len : nat) (sol : list body) (rw : row) : Prop :=
  snd rw = dot len (fst rw) sol.

Lemma fst_eliminate (pinv : byte) (cs : list byte) (r : body) (rw : row) :
  fst (eliminate pinv cs r rw) = elim_coefs pinv cs (fst rw).
Proof. unfold eliminate. destruct rw as [[|c' cs'] r']; reflexivity. Qed.

Lemma map_fst_eliminate (pinv : byte) (cs : list byte) (r : body)
  (rest : list row) :
  map fst (map (eliminate pinv cs r) rest) =
  map (elim_coefs pinv cs) (map fst rest).
Proof.
  rewrite !map_map. apply map_ext. intros rw. apply fst_eliminate.
Qed.

Lemma square_elim (n : nat) (c : byte) (cs : list byte)
  (rest : list (list byte)) (pinv : byte) :
  square (S n) ((c :: cs) :: rest) ->
  square n (map (elim_coefs pinv cs) rest).
Proof.
  intros [Hl Hr]. inversion Hr as [|? ? Hc Hrest]; subst.
  split; [rewrite length_map; now injection Hl|].
  apply Forall_map. eapply Forall_impl; [|exact Hrest].
  intros [|c' cs'] H; [discriminate|].
  cbn [elim_coefs]. rewrite length_xor_bytes, length_vscale.
  cbn [length] in *. lia.
Qed.

Lemma consistent_eliminate (len : nat) (c : byte) (cs : list byte)
  (r x1 : body) (xs : list body) (rw : row) :
  c <> gzero -> length x1 = len -> Forall (fun v => length v = len) xs ->
  length (fst rw) = S (length cs) ->
  consistent len (x1 :: xs) (c :: cs, r) ->
  consistent len (x1 :: xs) rw ->
  consistent len xs (eliminate (ginv c) cs r rw).
Proof.
  intros Hc Hx1 Hxs Hlen Hp Hrw. unfold consistent in *.
  destruct rw as [[|c' cs'] r']; [discriminate|].
  cbn [fst snd dot eliminate elim_coefs] in *.
  rewrite dot_linear by (now injection Hlen).
  rewrite Hrw, Hp, vscale_xor_bytes, vscale_vscale.
  replace (gmul (gmul c' (ginv c)) c) with c' by (field; exact Hc).
  apply xor_bytes_cancel_pair.
  - now rewrite length_vscale, length_dot.
  - now rewrite !length_vscale, length_dot.
Qed.

Lemma back_substitute (len : nat) (c : byte) (cs : list byte)
  (x1 : body) (xs : list body) :
  c <> gzero -> length x1 = len -> Forall (fun v => length v = len) xs ->
  vscale (ginv c)
    (xor_bytes (xor_bytes (vscale c x1) (dot len cs xs)) (dot len cs xs))
  = x1.
Proof.
  intros Hc Hx1 Hxs.
  rewrite xor_bytes_cancel by (now rewrite length_vscale, length_dot).
  rewrite vscale_vscale.
  replace (gmul (ginv c) c) with gone by (field; exact Hc).
  apply vscale_one.
Qed.

Theorem solve_correct (len n : nat) :
  forall (rows : list row) (sol : list body),
    square n (map fst rows) -> good n (map fst rows) ->
    length sol = n -> Forall (fun v => length v = len) sol ->
    Forall (consistent len sol) rows ->
    solve len n rows = Some sol.
Proof.
  induction n as [|n IH]; intros rows sol Hsq Hgood Hlen Hsol Hcons.
  - destruct sol; [reflexivity | discriminate].
  - destruct rows as [|[[|c cs] r] rest]; cbn [map fst good] in Hgood;
      try contradiction.
    destruct Hgood as [Hc Hgood].
    destruct sol as [|x1 xs]; [discriminate|].
    pose proof (Forall_inv Hsol) as Hx1. cbv beta in Hx1.
    pose proof (Forall_inv_tail Hsol) as Hxs.
    pose proof (Forall_inv Hcons) as Hp.
    pose proof (Forall_inv_tail Hcons) as Hrest.
    cbn [solve].
    destruct (Byte.eqb c gzero) eqn:E;
      [apply Byte.byte_dec_bl in E; contradiction|].
    assert (Hshape : Forall (fun rw : row => length (fst rw) = S (length cs))
                       rest).
    { destruct Hsq as [_ Hr]. cbn [map fst] in Hr.
      pose proof (Forall_inv Hr) as Hc0. cbv beta in Hc0.
      pose proof (Forall_inv_tail Hr) as Hr0.
      apply Forall_map in Hr0. eapply Forall_impl; [|exact Hr0].
      intros rw H. cbv beta in H. cbn [length] in Hc0. lia. }
    rewrite (IH (map (eliminate (ginv c) cs r) rest) xs).
    + f_equal. f_equal. unfold consistent in Hp. cbn [fst snd dot] in Hp.
      rewrite Hp. now apply back_substitute.
    + rewrite map_fst_eliminate. apply (square_elim n c cs _ _ Hsq).
    + rewrite map_fst_eliminate. exact Hgood.
    + now injection Hlen.
    + exact Hxs.
    + apply Forall_map. rewrite Forall_forall in *. intros rw Hin.
      apply (consistent_eliminate len c cs r x1 xs rw); auto.
      apply Forall_forall. exact Hxs.
Qed.

(** *** Cauchy matrices can always be pivoted on *)

(** A row or a column of a scaled Cauchy matrix: its field element and
    its non-zero scale. *)
Definition entry (xr yc : byte * byte) : byte :=
  gmul (gmul (snd xr) (snd yc)) (ginv (gadd (fst xr) (fst yc))).

Definition cauchy_matrix (rows_p cols_p : list (byte * byte))
  : list (list byte) :=
  map (fun xr => map (entry xr) cols_p) rows_p.

Record cauchy_ok (rows_p cols_p : list (byte * byte)) : Prop := mkCauchyOk {
  ok_rows : NoDup (map fst rows_p);
  ok_cols : NoDup (map fst cols_p);
  ok_apart :
    forall x y, In x (map fst rows_p) -> In y (map fst cols_p) -> x <> y;
  ok_row_scale : Forall (fun p => snd p <> gzero) rows_p;
  ok_col_scale : Forall (fun p => snd p <> gzero) cols_p
}.

(** After the elimination of the first unknown the row of [x] is scaled
    by [(x - x1) / (x + y1)] and the column of [y] by
    [(y - y1) / (x1 + y)]. *)
Definition row_step (x1 y1 : byte) (xr : byte * byte) : byte * byte :=
  (fst xr, gmul (gmul (snd xr) (gsub (fst xr) x1)) (ginv (gadd (fst xr) y1))).

Definition col_step (x1 y1 : byte) (yc : byte * byte) : byte * byte :=
  (fst yc, gmul (gmul (snd yc) (gsub (fst yc) y1)) (ginv (gadd x1 (fst yc)))).

Lemma cauchy_elim (x x1 y y1 r r1 c c1 : byte) :
  gadd x y <> gzero -> gadd x y1 <> gzero -> gadd x1 y <> gzero ->
  gadd x1 y1 <> gzero -> r1 <> gzero -> c1 <> gzero ->
  gsub (entry (x, r) (y, c))
       (gmul (gmul (entry (x, r) (y1, c1)) (ginv (entry (x1, r1) (y1, c1))))
             (entry (x1, r1) (y, c)))
  = entry (row_step x1 y1 (x, r)) (col_step x1 y1 (y, c)).
Proof.
  intros Hxy Hxy1 Hx1y Hx1y1 Hr1 Hc1.
  unfold entry, row_step, col_step. cbn [fst snd].
  field. repeat split; assumption.
Qed.

Lemma xor_bytes_map {A : Type} (f g : A -> byte) (k : byte) (l : list A) :
  xor_bytes (map f l) (vscale k (map g l)) =
  map (fun e => gsub (f e) (gmul k (g e))) l.
Proof.
  induction l as [|e l IH]; [reflexivity|].
  cbn [map vscale xor_bytes]. fold (vscale k (map g l)). now rewrite IH.
Qed.

Lemma gadd_nonzero (a b : byte) : a <> b -> gadd a b <> gzero.
Proof. intros H E. apply H, gadd_eq_zero, E. Qed.

Lemma entry_nonzero (xr yc : byte * byte) :
  snd xr <> gzero -> snd yc <> gzero -> fst xr <> fst yc ->
  entry xr yc <> gzero.
Proof.
  intros Hr Hc Hxy. unfold entry.
  apply gmul_nonzero; [now apply gmul_nonzero|].
  now apply ginv_nonzero, gadd_nonzero.
Qed.

Lemma map_fst_row_step (x1 y1 : byte) (l : list (byte * byte)) :
  map fst (map (row_step x1 y1) l) = map fst l.
Proof. rewrite map_map. now apply map_ext. Qed.

Lemma map_fst_col_step (x1 y1 : byte) (l : list (byte * byte)) :
  map fst (map (col_step x1 y1) l) = map fst l.
Proof. rewrite map_map. now apply map_ext. Qed.

(** One elimination step maps a scaled Cauchy matrix to the scaled
    Cauchy matrix of the remaining rows and columns. *)
Lemma cauchy_matrix_step (x1 r1 y1 c1 : byte)
  (rows_p cols_p : list (byte * byte)) :
  cauchy_ok ((x1, r1) :: rows_p) ((y1, c1) :: cols_p) ->
  map (elim_coefs (ginv (entry (x1, r1) (y1, c1)))
         (map (entry (x1, r1)) cols_p))
      (cauchy_matrix rows_p ((y1, c1) :: cols_p))
  = cauchy_matrix (map (row_step x1 y1) rows_p) (map (col_step x1 y1) cols_p).
Proof.
  intros [Hr Hc Hap Hrs Hcs].
  cbn [map fst] in Hr, Hc, Hap.
  unfold cauchy_matrix. rewrite !map_map.
  apply map_ext_in. intros [x r] Hin.
  cbn [map elim_coefs]. rewrite xor_bytes_map, map_map.
  apply map_ext_in. intros [y c] Hin'.
  assert (Hx : In x (map fst rows_p)) by (apply (in_map fst _ _ Hin)).
  assert (Hy : In y (map fst cols_p)) by (apply (in_map fst _ _ Hin')).
  apply cauchy_elim.
  - apply gadd_nonzero, Hap; cbn [In]; auto.
  - apply gadd_nonzero, Hap; cbn [In]; auto.
  - apply gadd_nonzero, Hap; cbn [In]; auto.
  - apply gadd_nonzero, Hap; cbn [In]; auto.
  - exact (Forall_inv Hrs).
  - exact (Forall_inv Hcs).
Qed.

Lemma cauchy_ok_step (x1 r1 y1 c1 : byte)
  (rows_p cols_p : list (byte * byte)) :
  cauchy_ok ((x1, r1) :: rows_p) ((y1, c1) :: cols_p) ->
  cauchy_ok (map (row_step x1 y1) rows_p) (map (col_step x1 y1) cols_p).
Proof.
  intros [Hr Hc Hap Hrs Hcs].
  cbn [map fst] in Hr, Hc, Hap.
  pose proof (NoDup_cons_iff x1 (map fst rows_p)) as [Hnr _].
  pose proof (NoDup_cons_iff y1 (map fst cols_p)) as [Hnc _].
  destruct (Hnr Hr) as [Hx1 Hr']. destruct (Hnc Hc) as [Hy1 Hc'].
  constructor; rewrite ?map_fst_row_step, ?map_fst_col_step; auto.
  - intros x y Hx Hy. apply Hap; cbn [In]; auto.
  - apply Forall_map. rewrite Forall_forall. intros [x r] Hin.
    assert (Hx : In x (map fst rows_p)) by (apply (in_map fst _ _ Hin)).
    pose proof (Forall_inv_tail Hrs) as Hrs'.
    rewrite Forall_forall in Hrs'. specialize (Hrs' _ Hin).
    unfold row_step. cbn [fst snd] in *.
    apply gmul_nonzero; [apply gmul_nonzero; [exact Hrs'|]|].
    + apply (gadd_nonzero x x1). intros ->. contradiction.
    + apply ginv_nonzero, gadd_nonzero, Hap; cbn [In]; auto.
  - apply Forall_map. rewrite Forall_forall. intros [y c] Hin.
    assert (Hy : In y (map fst cols_p)) by (apply (in_map fst _ _ Hin)).
    pose proof (Forall_inv_tail Hcs) as Hcs'.
    rewrite Forall_forall in Hcs'. specialize (Hcs' _ Hin).
    unfold col_step. cbn [fst snd] in *.
    apply gmul_nonzero; [apply gmul_nonzero; [exact Hcs'|]|].
    + apply (gadd_nonzero y y1). intros ->. contradiction.
    + apply ginv_nonzero, gadd_nonzero, Hap; cbn [In]; auto.
Qed.

Theorem cauchy_good (n : nat) :
  forall rows_p cols_p : list (byte * byte),
    length rows_p = n -> length cols_p = n ->
    cauchy_ok rows_p cols_p ->
    good n (cauchy_matrix rows_p cols_p).
Proof.
  induction n as [|n IH]; intros rows_p cols_p Hlr Hlc Hok; [exact I|].
  destruct rows_p as [|[x1 r1] rows_p]; [discriminate|].
  destruct cols_p as [|[y1 c1] cols_p]; [discriminate|].
  change (cauchy_matrix ((x1, r1) :: rows_p) ((y1, c1) :: cols_p))
    with ((entry (x1, r1) (y1, c1) :: map (entry (x1, r1)) cols_p)
            :: cauchy_matrix rows_p ((y1, c1) :: cols_p)).
  cbn [good]. split.
  - destruct Hok as [_ _ Hap Hrs Hcs].
    apply entry_nonzero.
    + exact (Forall_inv Hrs).
    + exact (Forall_inv Hcs).
    + apply Hap; cbn [map fst In]; auto.
  - rewrite (cauchy_matrix_step x1 r1 y1 c1 rows_p cols_p Hok).
    apply IH.
    + rewrite length_map. now injection Hlr.
    + rewrite length_map. now injection Hlc.
    + exact (cauchy_ok_step x1 r1 y1 c1 rows_p cols_p Hok).
Qed.

Lemma cauchy_square (rows_p cols_p : list (byte * byte)) :
  length rows_p = length cols_p ->
  square (length cols_p) (cauchy_matrix rows_p cols_p).
Proof.
  intros H. unfold square, cauchy_matrix. split.
  - now rewrite length_map.
  - apply Forall_map, Forall_forall. intros xr _. apply length_map.
Qed.

(** *** Masks, erasures and selections *)

Lemma sel_map {A B : Type} (f : A -> B) (mask : list bool) (l : list A) :
  sel mask (map f l) = map f (sel mask l).
Proof.
  revert l. induction mask as [|b mask IH]; intros [|x l]; cbn [sel map];
    try reflexivity.
  destruct b; cbn [map]; now rewrite IH.
Qed.

Lemma length_sel {A : Type} (mask : list bool) (l : list A) :
  length mask = length l -> length (sel mask l) = count_true mask.
Proof.
  unfold count_true. revert l.
  induction mask as [|b mask IH]; intros [|x l] H; try discriminate;
    [reflexivity|].
  cbn [sel filter]. destruct b; cbn [length]; rewrite IH; auto;
    now injection H.
Qed.

Lemma In_sel {A : Type} (mask : list bool) (l : list A) (x : A) :
  In x (sel mask l) -> In x l.
Proof.
  revert l. induction mask as [|b mask IH]; intros [|y l]; cbn [sel];
    try contradiction.
  destruct b; cbn [In]; intros H; [destruct H as [H | H]|]; auto.
Qed.

Lemma NoDup_sel {A : Type} (mask : list bool) (l : list A) :
  NoDup l -> NoDup (sel mask l).
Proof.
  revert l. induction mask as [|b mask IH]; intros [|y l] H; cbn [sel];
    try (now constructor).
  pose proof (NoDup_cons_iff y l) as [Hn _]. destruct (Hn H) as [Hy Hl].
  destruct b; [|now apply IH].
  constructor; [|now apply IH].
  intros Hin. apply Hy, (In_sel mask l y Hin).
Qed.

Lemma In_firstn {A : Type} (n : nat) (l : list A) (x : A) :
  In x (firstn n l) -> In x l.
Proof.
  intros H. rewrite <- (firstn_skipn n l). apply in_or_app. now left.
Qed.

Lemma NoDup_firstn {A : Type} (n : nat) (l : list A) :
  NoDup l -> NoDup (firstn n l).
Proof.
  intros H. rewrite <- (firstn_skipn n l) in H.
  exact (NoDup_app_remove_r _ _ H).
Qed.

Lemma present_erase {A : Type} (mask : list bool) (l : list A) :
  length mask = length l -> present (erase mask l) = mask.
Proof.
  unfold present. revert l.
  induction mask as [|b mask IH]; intros [|x l] H; try discriminate;
    [reflexivity|].
  cbn [erase map]. rewrite IH by (now injection H). now destruct b.
Qed.

Lemma values_erase {A : Type} (mask : list bool) (l : list A) :
  values (erase mask l) = sel mask l.
Proof.
  unfold values. revert l.
  induction mask as [|b mask IH]; intros [|x l]; cbn [erase flat_map sel];
    try reflexivity.
  rewrite IH. now destruct b.
Qed.

Lemma length_erase {A : Type} (mask : list bool) (l : list A) :
  length mask = length l -> length (erase mask l) = length l.
Proof.
  revert l. induction mask as [|b mask IH]; intros [|x l] H;
    try discriminate; [reflexivity|].
  cbn [erase length]. now rewrite IH by (now injection H).
Qed.

Lemma erase_app {A : Type} (m1 m2 : list bool) (l1 l2 : list A) :
  length m1 = length l1 ->
  erase (m1 ++ m2) (l1 ++ l2) = erase m1 l1 ++ erase m2 l2.
Proof.
  revert l1. induction m1 as [|b m1 IH]; intros [|x l1] H;
    try discriminate; [reflexivity|].
  cbn [app erase]. now rewrite IH by (now injection H).
Qed.

Lemma fill_erase (mask : list bool) (data : list body) :
  length mask = length data ->
  fill (erase mask data) (sel (map negb mask) data) = data.
Proof.
  revert data. induction mask as [|b mask IH]; intros [|d data] H;
    try discriminate; [reflexivity|].
  cbn [erase map sel]. destruct b; cbn [negb fill];
    now rewrite IH by (now injection H).
Qed.

Lemma count_true_app (a b : list bool) :
  count_true (a ++ b) = (count_true a + count_true b)%nat.
Proof. unfold count_true. now rewrite filter_app, length_app. Qed.

Lemma count_true_negb (mask : list bool) :
  (count_true mask + count_true (map negb mask) = length mask)%nat.
Proof.
  unfold count_true. induction mask as [|b mask IH]; [reflexivity|].
  destruct b; cbn [map negb filter length]; lia.
Qed.

Lemma combine_map_self {A B : Type} (f : A -> B) (l : list A) :
  combine l (map f l) = map (fun i => (i, f i)) l.
Proof. induction l as [|x l IH]; [reflexivity|]. cbn. now rewrite IH. Qed.

(** *** Splitting a combination along a mask *)

Lemma xor_bytes_comm (a b : list byte) : xor_bytes a b = xor_bytes b a.
Proof.
  revert b. induction a as [|x a IH]; intros [|y b]; cbn [xor_bytes];
    try reflexivity.
  f_equal; [|apply IH]. change bxor with gadd. ring.
Qed.

Lemma xor_bytes_assoc (a b c : list byte) :
  xor_bytes a (xor_bytes b c) = xor_bytes (xor_bytes a b) c.
Proof.
  revert b c. induction a as [|x a IH]; intros [|y b] [|z c];
    cbn [xor_bytes]; try reflexivity.
  f_equal; [|apply IH]. change bxor with gadd. ring.
Qed.

Lemma dot_split (len : nat) (mask : list bool) :
  forall (cs : list byte) (vs : list body),
    length mask = length cs -> length mask = length vs ->
    dot len cs vs =
    xor_bytes (dot len (sel mask cs) (sel mask vs))
              (dot len (sel (map negb mask) cs) (sel (map negb mask) vs)).
Proof.
  induction mask as [|b mask IH]; intros [|c cs] [|v vs] Hc Hv;
    try discriminate.
  - cbn [sel map dot]. now rewrite xor_bytes_vzero.
  - cbn [map sel].
    destruct b; cbn [negb dot]; rewrite (IH cs vs);
      try (now injection Hc); try (now injection Hv).
    + apply xor_bytes_assoc.
    + rewrite !xor_bytes_assoc. f_equal. apply xor_bytes_comm.
Qed.

(** *** The coordinates of the generator matrix *)

Lemma to_N_coord (a : nat) :
  (a < 256)%nat -> Byte.to_N (byte_of_N (N.of_nat a)) = N.of_nat a.
Proof. intros H. rewrite to_N_byte_of_N. apply N.mod_small. lia. Qed.

Lemma coord_inj (a b : nat) :
  (a < 256)%nat -> (b < 256)%nat ->
  byte_of_N (N.of_nat a) = byte_of_N (N.of_nat b) -> a = b.
Proof.
  intros Ha Hb H. apply (f_equal Byte.to_N) in H.
  rewrite !to_N_coord in H by assumption. lia.
Qed.

Lemma NoDup_map_in {A B : Type} (f : A -> B) (l : list A) :
  (forall a b, In a l -> In b l -> f a = f b -> a = b) ->
  NoDup l -> NoDup (map f l).
Proof.
  induction l as [|x l IH]; intros Hinj Hnd; cbn [map]; [constructor|].
  pose proof (NoDup_cons_iff x l) as [Hn _]. destruct (Hn Hnd) as [Hx Hl].
  constructor.
  - intros Hin. apply in_map_iff in Hin. destruct Hin as [y [Hy Hin]].
    apply Hx. rewrite (Hinj x y); auto; [now left | now right].
  - apply IH; auto. intros a b Ha Hb. apply Hinj; now right.
Qed.

Lemma coef_entry (k i j : nat) :
  coef k i j = entry (xcoord k i, gone) (ycoord j, gone).
Proof. unfold coef, entry; cbn [fst snd]. now rewrite !gmul_1_l. Qed.

Lemma coef_matrix (k : nat) (P L : list nat) :
  map (fun i => map (coef k i) L) P =
  cauchy_matrix (map (fun i => (xcoord k i, gone)) P)
                (map (fun j => (ycoord j, gone)) L).
Proof.
  unfold cauchy_matrix. rewrite map_map. apply map_ext. intros i.
  rewrite map_map. apply map_ext. intros j. apply coef_entry.
Qed.

Lemma coef_cauchy_ok (k m : nat) (P L : list nat) :
  (k + m <= 256)%nat ->
  NoDup P -> NoDup L ->
  (forall i, In i P -> (i < m)%nat) ->
  (forall j, In j L -> (j < k)%nat) ->
  cauchy_ok (map (fun i => (xcoord k i, gone)) P)
            (map (fun j => (ycoord j, gone)) L).
Proof.
  intros Hkm HP HL HPm HLk. constructor.
  - rewrite map_map. cbn [fst]. apply NoDup_map_in; [|assumption].
    intros a b Ha Hb E. apply HPm in Ha, Hb.
    apply coord_inj in E; lia.
  - rewrite map_map. cbn [fst]. apply NoDup_map_in; [|assumption].
    intros a b Ha Hb E. apply HLk in Ha, Hb.
    apply coord_inj in E; lia.
  - intros x y Hx Hy E. rewrite map_map in Hx, Hy. cbn [fst] in Hx, Hy.
    apply in_map_iff in Hx, Hy.
    destruct Hx as [i [Ei Hi]]. destruct Hy as [j [Ej Hj]].
    apply HPm in Hi. apply HLk in Hj. subst x y.
    apply coord_inj in E; lia.
  - apply Forall_forall. intros p Hp. apply in_map_iff in Hp.
    destruct Hp as [i [Ei _]]. subst p. discriminate.
  - apply Forall_forall. intros p Hp. apply in_map_iff in Hp.
    destruct Hp as [i [Ei _]]. subst p. discriminate.
Qed.

(** *** The decoder recovers the frame *)

Lemma Forall_sel {A : Type} (Q : A -> Prop) (mask : list bool) (l : list A) :
  Forall Q l -> Forall Q (sel mask l).
Proof.
  intros H. apply Forall_forall. intros x Hx.
  apply (proj1 (Forall_forall Q l) H), (In_sel mask l x Hx).
Qed.

Theorem decode_erased (len k m : nat) (data : list body) (mask : list bool) :
  (k + m <= 256)%nat ->
  length data = k ->
  Forall (fun d => length d = len) data ->
  length mask = (k + m)%nat ->
  (k <= count_true mask)%nat ->
  decode len k m (erase mask (data ++ encode len k m data)) = Some data.
Proof.
  intros Hkm Hdata Hlen Hmask Hcount.
  set (md := firstn k mask). set (mp := skipn k mask).
  assert (Emask : mask = md ++ mp) by (symmetry; apply firstn_skipn).
  assert (Hmd : length md = k) by (unfold md; rewrite length_firstn; lia).
  assert (Hmp : length mp = m) by (unfold mp; rewrite length_skipn; lia).
  assert (Henc : length (encode len k m data) = m)
    by (unfold encode; now rewrite length_map, length_seq).
  rewrite Emask, erase_app by congruence.
  unfold decode.
  assert (Hed : length (erase md data) = k)
    by (rewrite length_erase; congruence).
  assert (Ef : firstn k (erase md data ++ erase mp (encode len k m data)) =
               erase md data).
  { rewrite <- Hed.
    now rewrite firstn_app, Nat.sub_diag, firstn_all, firstn_O, app_nil_r. }
  assert (Es : skipn k (erase md data ++ erase mp (encode len k m data)) =
               erase mp (encode len k m data)).
  { rewrite <- Hed.
    now rewrite skipn_app, Nat.sub_diag, skipn_all, skipn_O. }
  cbv zeta. rewrite Ef, Es.
  rewrite !present_erase, !values_erase by congruence.
  set (L := sel (map negb md) (seq 0 k)).
  set (n := length L).
  set (P := firstn n (sel mp (seq 0 m))).
  assert (Hn : n = count_true (map negb md)).
  { unfold n, L. apply length_sel. now rewrite length_map, length_seq. }
  assert (HP : length P = n).
  { unfold P. rewrite length_firstn, length_sel by (now rewrite length_seq).
    apply Nat.min_l. rewrite Hn.
    pose proof (count_true_negb md) as Hc.
    rewrite Emask, count_true_app in Hcount. lia. }
  assert (Eval : firstn n (sel mp (encode len k m data)) =
                 map (parity len k data) P).
  { unfold encode, P. now rewrite sel_map, firstn_map. }
  rewrite Eval, combine_map_self, HP, Nat.ltb_irrefl, map_map.
  cbn [fst snd].
  rewrite (solve_correct len n _ (sel (map negb md) data)).
  - now rewrite fill_erase by congruence.
  - rewrite map_map. cbn [fst]. rewrite coef_matrix.
    unfold n. rewrite <- (length_map (fun j => (ycoord j, gone)) L).
    apply cauchy_square. rewrite !length_map. exact HP.
  - rewrite map_map. cbn [fst]. rewrite coef_matrix.
    apply cauchy_good; [now rewrite length_map | now rewrite length_map |].
    apply (coef_cauchy_ok k m); auto.
    + unfold P. apply NoDup_firstn, NoDup_sel, seq_NoDup.
    + unfold L. apply NoDup_sel, seq_NoDup.
    + intros i Hi. unfold P in Hi. apply In_firstn, In_sel, in_seq in Hi. lia.
    + intros j Hj. unfold L in Hj. apply In_sel, in_seq in Hj. lia.
  - rewrite Hn. apply length_sel. rewrite length_map. congruence.
  - now apply Forall_sel.
  - apply Forall_forall. intros rw Hrw. apply in_map_iff in Hrw.
    destruct Hrw as [i [Ei _]]. subst rw. unfold consistent. cbn [fst snd].
    unfold parity at 1.
    rewrite (dot_split len md (map (coef k i) (seq 0 k)) data)
      by (rewrite ?length_map, ?length_seq; congruence).
    rewrite !sel_map. fold L.
    apply xor_bytes_cancel_l.
    rewrite !length_dot; auto using Forall_sel.
Qed.

(** With fewer than [k] blocks the decoder gives up: the parity blocks
    that arrived do not cover the lost data blocks. *)
Lemma decode_insufficient (len k m : nat) (data : list body)
      (mask : list bool) :
  length data = k ->
  length mask = (k + m)%nat ->
  (count_true mask < k)%nat ->
  decode len k m (erase mask (data ++ encode len k m data)) = None.
Proof.
  intros Hdata Hmask Hcount.
  set (md := firstn k mask). set (mp := skipn k mask).
  assert (Emask : mask = md ++ mp) by (symmetry; apply firstn_skipn).
  assert (Hmd : length md = k) by (unfold md; rewrite length_firstn; lia).
  assert (Hmp : length mp = m) by (unfold mp; rewrite length_skipn; lia).
  assert (Henc : length (encode len k m data) = m)
    by (unfold encode; now rewrite length_map, length_seq).
  rewrite Emask, erase_app by congruence.
  unfold decode.
  assert (Hed : length (erase md data) = k)
    by (rewrite length_erase; congruence).
  assert (Ef : firstn k (erase md data ++ erase mp (encode len k m data)) =
               erase md data).
  { rewrite <- Hed.
    now rewrite firstn_app, Nat.sub_diag, firstn_all, firstn_O, app_nil_r. }
  assert (Es : skipn k (erase md data ++ erase mp (encode len k m data)) =
               erase mp (encode len k m data)).
  { rewrite <- Hed.
    now rewrite skipn_app, Nat.sub_diag, skipn_all, skipn_O. }
  cbv zeta. rewrite Ef, Es.
  rewrite !present_erase by congruence.
  set (L := sel (map negb md) (seq 0 k)).
  assert (Hn : length L = count_true (map negb md)).
  { unfold L. apply length_sel. now rewrite length_map, length_seq. }
  assert (Hlt : (length (firstn (length L) (sel mp (seq 0 m))) <? length L)%nat
                = true).
  { apply Nat.ltb_lt.
    rewrite length_firstn, length_sel by (now rewrite length_seq).
    pose proof (count_true_negb md) as Hc.
    rewrite Emask, count_true_app in Hcount. lia. }
  now rewrite Hlt.
Qed.

(** A frame of 128 bodies of 508 bytes, and the reception of scenario C:
    eight parity blocks, blocks 3, 17, 45, 80, 100, 130, 131 and 132
    lost. *)
Definition demo_frame : list body :=
  map (fun j => map (fun t => byte_of_N (N.of_nat (j * 7 + t * 3)))
                    (seq 0 BODY_LEN))
      (seq 0 NB_DATA).

Definition demo_lost : list nat := [3; 17; 45; 80; 100; 130; 131; 132]%nat.

Definition demo_mask : list bool :=
  map (fun i => negb (existsb (Nat.eqb i) demo_lost)) (seq 0 (NB_DATA + 8)).

Lemma demo_frame_shape :
  length demo_frame = NB_DATA /\
  Forall (fun d => length d = BODY_LEN) demo_frame.
Proof.
  unfold demo_frame. split; [now rewrite length_map, length_seq|].
  apply Forall_forall. intros d Hd. apply in_map_iff in Hd.
  destruct Hd as [j [<- _]]. now rewrite length_map, length_seq.
Qed.

(** C1. FEC completeness: for every redundancy count [R <= 127] and every
    frame of 128 data-block bodies of 508 bytes, whenever at least 128 of
    the [128 + R] encoded blocks are available (the mask marks the blocks
    that arrived, data and parity alike), the decoder returns the 128
    data-block bodies exactly. *)
Theorem fec_completeness (R : nat) (data : list body) (mask : list bool) :
  (R <= 127)%nat ->
  length data = NB_DATA ->
  Forall (fun d => length d = BODY_LEN) data ->
  length mask = (NB_DATA + R)%nat ->
  (NB_DATA <= count_true mask)%nat ->
  decode BODY_LEN NB_DATA R
         (erase mask (data ++ encode BODY_LEN NB_DATA R data))
  = Some data.
Proof.
  intros HR Hdata Hlen Hmask Hcount.
  apply decode_erased; auto.
  unfold NB_DATA. lia.
Qed.

Lemma fec_completeness_witness :
  decode BODY_LEN NB_DATA 8
         (erase demo_mask (demo_frame ++ encode BODY_LEN NB_DATA 8 demo_frame))
  = Some demo_frame.
Proof.
  apply (fec_completeness 8 demo_frame demo_mask).
  - unfold lt. apply Nat.leb_le. vm_compute. reflexivity.
  - exact (proj1 demo_frame_shape).
  - exact (proj2 demo_frame_shape).
  - vm_compute. reflexivity.
  - apply Nat.leb_le. vm_compute. reflexivity.
Defined.

End Fec.

(** ** More on [parse_int]: what holds whatever the width of [long] *)

Module ParseIntFacts.

Import ParseInt.
Local Open Scope Z_scope.

Lemma clamp_long_range (LONG_MIN LONG_MAX m : Z) :
  LONG_MIN <= LONG_MAX ->
  LONG_MIN <= clamp_long LONG_MIN LONG_MAX m <= LONG_MAX.
Proof.
  intros H. unfold clamp_long.
  destruct (Z.ltb_spec m LONG_MIN); [lia|].
  destruct (Z.ltb_spec LONG_MAX m); lia.
Qed.

(** The value stored into [v] always fits an [int]: the final assignment
    [v = t] never truncates. *)
Lemma parse_int_in_range (LONG_MIN LONG_MAX : Z) (s : cstring) (v : Z)
  (allow_unit : bool) (n : Z) :
  parse_int LONG_MIN LONG_MAX s v allow_unit = (true, n) ->
  INT_MIN <= n <= INT_MAX.
Proof.
  unfold parse_int.
  destruct (strtol LONG_MIN LONG_MAX s) as [t k].
  destruct (Nat.eqb k 0); [discriminate|].
  match goal with |- context [if ?c then (t * 1000, _) else _] =>
    destruct c end;
  match goal with |- context [if ?c then (false, v) else _] =>
    destruct c eqn:E end; try discriminate;
  intros [= <-];
  apply orb_false_iff in E as [E E2]; apply orb_false_iff in E as [_ E1];
  apply Z.ltb_ge in E1, E2; lia.
Qed.

(** X1.  Where [long] has the range of [int] (the ILP32 targets) the range
    test of [parse_int] cannot fail: every decimal numeral is accepted,
    whatever its magnitude, and the value stored is the number it denotes
    clamped to [INT_MIN, INT_MAX]. *)
Theorem parse_int_narrow_long_clamps (d : cstring) (m v : Z)
  (allow_unit : bool) :
  numeral d m ->
  parse_int INT_MIN INT_MAX d v allow_unit =
  (true, Z.max INT_MIN (Z.min INT_MAX m)).
Proof.
  intros (ws & sg & ds & -> & Hws & Hsg & Hne & Hds & ->).
  rewrite <- (app_nil_r ds) at 1.
  rewrite (parse_int_numeral INT_MIN INT_MAX ws sg ds [] v allow_unit)
    by (simpl; auto).
  cbv zeta. rewrite andb_false_r, !andb_false_l.
  set (m := sign_of sg (digits_val ds)).
  pose proof (clamp_long_range INT_MIN INT_MAX m) as Hr.
  assert (Hc : clamp_long INT_MIN INT_MAX m = Z.max INT_MIN (Z.min INT_MAX m)).
  { unfold clamp_long, INT_MIN, INT_MAX.
    destruct (Z.ltb_spec m (-2147483648)); [lia|].
    destruct (Z.ltb_spec 2147483647 m); lia. }
  rewrite Hc in *. cbn [orb].
  destruct (Z.ltb_spec (Z.max INT_MIN (Z.min INT_MAX m)) INT_MIN);
    [unfold INT_MIN, INT_MAX in *; lia|].
  destruct (Z.ltb_spec INT_MAX (Z.max INT_MIN (Z.min INT_MAX m)));
    [unfold INT_MIN, INT_MAX in *; lia | reflexivity].
Qed.

Lemma numeral_five_billion : numeral (cstr "5000000000") 5000000000.
Proof.
  exists [], [], (cstr "5000000000").
  repeat split; try reflexivity; [left; reflexivity | discriminate].
Qed.

Lemma parse_int_narrow_long_clamps_witness :
  parse_int INT_MIN INT_MAX (cstr "5000000000") 7 false = (true, 2147483647).
Proof.
  exact (parse_int_narrow_long_clamps (cstr "5000000000") 5000000000 7 false
           numeral_five_billion).
Defined.

(** Allowing the unit never changes how an input accepted without it is
    read. *)
Lemma parse_int_unit_conservative (LONG_MIN LONG_MAX : Z) (s : cstring)
  (v n : Z) :
  parse_int LONG_MIN LONG_MAX s v false = (true, n) ->
  parse_int LONG_MIN LONG_MAX s v true = (true, n).
Proof.
  unfold parse_int.
  destruct (strtol LONG_MIN LONG_MAX s) as [t k].
  destruct (Nat.eqb k 0); [discriminate|].
  cbn [andb].
  destruct (skipn k s) as [|c r]; [|discriminate].
  cbn [andb]. auto.
Qed.

(** X2.  The unit suffix, whatever the width of [long] (as long as it
    holds the two bounds of the guard): a numeral denoting [m] followed
    by [k] is accepted, with units allowed, exactly when
    [-2147483 < m < 2147483], and the value is then [1000 * m]; otherwise
    the call returns false and leaves the variable alone.  So no value
    above 2147482000 can be written with the suffix, and a numeral too
    large for [long] is never accepted with it. *)
Theorem parse_int_unit_suffix (LONG_MIN LONG_MAX : Z) (d : cstring)
  (m v : Z) :
  LONG_MIN <= -2147483 -> 2147483 <= LONG_MAX ->
  numeral d m ->
  parse_int LONG_MIN LONG_MAX (d ++ ["k"%char]) v true =
  if ((-2147483 <? m) && (m <? 2147483))%bool
  then (true, 1000 * m) else (false, v).
Proof.
  intros Hlo Hhi (ws & sg & ds & -> & Hws & Hsg & Hne & Hds & ->).
  rewrite <- !app_assoc.
  rewrite (parse_int_numeral LONG_MIN LONG_MAX ws sg ds ["k"%char] v true)
    by (simpl; auto).
  cbv zeta. set (m := sign_of sg (digits_val ds)).
  cbn [andb Ascii.eqb Bool.eqb tl].
  assert (Hc : ((-2147483 <? clamp_long LONG_MIN LONG_MAX m)
                && (clamp_long LONG_MIN LONG_MAX m <? 2147483))%bool =
               ((-2147483 <? m) && (m <? 2147483))%bool /\
               (((-2147483 <? m) && (m <? 2147483))%bool = true ->
                clamp_long LONG_MIN LONG_MAX m = m)).
  { unfold clamp_long.
    destruct (Z.ltb_spec m LONG_MIN); [|destruct (Z.ltb_spec LONG_MAX m)].
    - destruct (Z.ltb_spec (-2147483) LONG_MIN); [lia|].
      destruct (Z.ltb_spec (-2147483) m); [lia|]. split; [reflexivity|].
      discriminate.
    - destruct (Z.ltb_spec LONG_MAX 2147483); [lia|].
      destruct (Z.ltb_spec m 2147483); [lia|].
      rewrite !andb_false_r. split; [reflexivity | discriminate].
    - split; reflexivity. }
  destruct Hc as [Hc Hid]. rewrite Hc.
  destruct ((-2147483 <? m) && (m <? 2147483))%bool eqn:E.
  - rewrite (Hid eq_refl).
    apply andb_true_iff in E as [E1 E2]. apply Z.ltb_lt in E1, E2.
    cbn [orb].
    destruct (Z.ltb_spec (m * 1000) INT_MIN); [unfold INT_MIN in *; lia|].
    destruct (Z.ltb_spec INT_MAX (m * 1000)); [unfold INT_MAX in *; lia|].
    cbn [orb]. f_equal. lia.
  - reflexivity.
Qed.

Lemma numeral_2147483 : numeral (cstr "2147483") 2147483.
Proof.
  exists [], [], (cstr "2147483").
  repeat split; try reflexivity; [left; reflexivity | discriminate].
Qed.

Lemma parse_int_unit_suffix_witness :
  parse_int INT_MIN INT_MAX (cstr "2147483k") 7 true = (false, 7).
Proof.
  assert (Hlo : INT_MIN <= -2147483) by (unfold INT_MIN; lia).
  assert (Hhi : 2147483 <= INT_MAX) by (unfold INT_MAX; lia).
  exact (parse_int_unit_suffix INT_MIN INT_MAX (cstr "2147483") 2147483 7
           Hlo Hhi numeral_2147483).
Defined.

End ParseIntFacts.

(** ** The start of [main]: options, device selection, start-up checks *)

Module Startup.

Import ParseInt.
Local Open Scope Z_scope.

(** The code of a character, as an [int]. *)
Definition chr (c : ascii) : Z := Z.of_nat (nat_of_ascii c).

(** [tolower] in the C locale. *)
Definition tolower (c : ascii) : ascii :=
  let n := nat_of_ascii c in
  if (Nat.leb 65 n && Nat.leb n 90)%bool then ascii_of_nat (n + 32) else c.

(** [strcasecmp] of the C library: the strings are compared character by
    character with letters lowered; the result is the difference of the
    first two characters that differ, the terminating NUL included. *)
Fixpoint strcasecmp (a b : cstring) : Z :=
  match a, b with
  | [], [] => 0
  | [], d :: _ => 0 - chr (tolower d)
  | c :: _, [] => chr (tolower c) - 0
  | c :: a', d :: b' =>
      if Ascii.eqb (tolower c) (tolower d) then strcasecmp a' b'
      else chr (tolower c) - chr (tolower d)
  end.

(** The four source classes of main.cpp. *)
Inductive devkind : Type := RTLSDR | HACKRF | AIRSPY | BLADERF.

(** The source objects [get_device] constructs: three are opened by device
    index, the BladeRF by the name found at that index. *)
Inductive Source : Type :=
  | RtlSdrSource (dev_index : Z)
  | HackRFSource (dev_index : Z)
  | AirspySource (dev_index : Z)
  | BladeRFSource (serial : cstring).

Definition UINT_MOD : Z := 2 ^ 32.

Definition SIGINT : Z := 2.
Definition SIGTERM : Z := 15.

(** What [getopt_long] returned: the option character and [optarg]
    (a null pointer is [None]). *)
Definition getopt_ret : Type := (Z * option cstring)%type.

(** The short options string and the long options table given to
    [getopt_long]. *)
Definition optstring : string := "t:c:d:r:M:b:I:D:C:".

Definition longopts : list (string * Z * ascii) :=
  [("devtype"%string, 2, "t"%char); ("config"%string, 2, "c"%char);
   ("dev"%string, 1, "d"%char); ("pcmrate"%string, 1, "r"%char);
   ("mono"%string, 0, "M"%char); ("buffer"%string, 1, "b"%char);
   ("address"%string, 2, "I"%char); ("dport"%string, 1, "D"%char);
   ("cport"%string, 1, "C"%char)].

(** The option characters [getopt_long] can return for this call: the
    letters of the short options string and the values of the table. *)
Definition known_option (c : Z) : bool :=
  (existsb (fun a => andb (negb (Ascii.eqb a ":")) (c =? chr a))
           (list_ascii_of_string optstring)
   || existsb (fun e => c =? chr (snd e)) longopts)%bool.

(** *** Device type names

    [strcasecmp(devtype.c_str(), name) == 0] *)
Definition is_type (devtype : cstring) (name : string) : bool :=
  strcasecmp devtype (cstr name) =? 0.

(** No NUL among the characters, as in every C string. *)
Definition nul_free (s : cstring) : bool :=
  forallb (fun c => negb (Ascii.eqb c zero)) s.

Definition type_name (k : devkind) : string :=
  match k with
  | RTLSDR => "rtlsdr"
  | HACKRF => "hackrf"
  | AIRSPY => "airspy"
  | BLADERF => "bladerf"
  end.

(** The device type the two chains of tests select. *)
Definition kind_by_chain (devtype : cstring) : option devkind :=
  if is_type devtype "rtlsdr" then Some RTLSDR
  else if is_type devtype "hackrf" then Some HACKRF
  else if is_type devtype "airspy" then Some AIRSPY
  else if is_type devtype "bladerf" then Some BLADERF
  else None.

Lemma chr_inj (a b : ascii) : chr a = chr b -> a = b.
Proof.
  unfold chr. intros H. apply Nat2Z.inj in H.
  now rewrite <- (ascii_nat_embedding a), <- (ascii_nat_embedding b), H.
Qed.

Lemma tolower_nul (c : ascii) : tolower c = zero -> c = zero.
Proof.
  destruct c as [[] [] [] [] [] [] [] []]; vm_compute; intros H;
    try reflexivity; discriminate.
Qed.

Lemma chr_tolower_nonzero (c : ascii) :
  Ascii.eqb c zero = false -> chr (tolower c) <> 0.
Proof.
  intros H E. change 0 with (chr zero) in E.
  apply chr_inj, tolower_nul in E. subst c. discriminate.
Qed.

Lemma strcasecmp_zero (a : cstring) :
  forall b : cstring,
    nul_free a = true -> nul_free b = true ->
    (strcasecmp a b = 0 <-> map tolower a = map tolower b).
Proof.
  unfold nul_free.
  induction a as [|c a IH]; intros [|d b] Ha Hb;
    cbn [strcasecmp map forallb] in *.
  - tauto.
  - apply andb_true_iff in Hb as [Hd _]. apply negb_true_iff in Hd.
    pose proof (chr_tolower_nonzero d Hd). split; [lia | discriminate].
  - apply andb_true_iff in Ha as [Hc _]. apply negb_true_iff in Hc.
    pose proof (chr_tolower_nonzero c Hc). split; [lia | discriminate].
  - apply andb_true_iff in Ha as [_ Ha]. apply andb_true_iff in Hb as [_ Hb].
    destruct (Ascii.eqb_spec (tolower c) (tolower d)) as [E | N].
    + rewrite (IH b Ha Hb). rewrite E. split; [congruence|].
      now intros [= ->].
    + split.
      * intros H. exfalso. apply N, chr_inj. lia.
      * intros [= E _]. contradiction.
Qed.

Lemma is_type_named (devtype : cstring) (k : devkind) :
  nul_free devtype = true ->
  (is_type devtype (type_name k) = true <->
   map tolower devtype = cstr (type_name k)).
Proof.
  intros H. unfold is_type. rewrite Z.eqb_eq.
  rewrite (strcasecmp_zero devtype (cstr (type_name k)) H)
    by (destruct k; reflexivity).
  now destruct k.
Qed.

Lemma kind_by_chain_named (devtype : cstring) (k : devkind) :
  nul_free devtype = true ->
  (kind_by_chain devtype = Some k <->
   map tolower devtype = cstr (type_name k)).
Proof.
  intros H.
  pose proof (is_type_named devtype RTLSDR H) as H1.
  pose proof (is_type_named devtype HACKRF H) as H2.
  pose proof (is_type_named devtype AIRSPY H) as H3.
  pose proof (is_type_named devtype BLADERF H) as H4.
  unfold kind_by_chain. cbn [type_name] in *.
  destruct (is_type devtype "rtlsdr");
    [|destruct (is_type devtype "hackrf");
      [|destruct (is_type devtype "airspy");
        [|destruct (is_type devtype "bladerf")]]].
  all: split; [intros [= <-]; tauto|].
  all: intros E; destruct k; cbn [type_name] in E.
  all: try reflexivity.
  all: try (apply H1 in E; discriminate).
  all: try (apply H2 in E; discriminate).
  all: try (apply H3 in E; discriminate).
  all: try (apply H4 in E; discriminate).
  all: exfalso;
    repeat match goal with
           | Hx : true = true <-> _ |- _ =>
               rewrite (proj1 Hx eq_refl) in E; clear Hx
           end;
    discriminate.
Qed.

Section Env.

Local Set Default Proof Using "Type".

(** What main.cpp takes from the other translation units and from the
    system: the type [double] with [parse_dbl] of util.h, the device
    lists and the state of the objects it constructs. *)
Variable double : Type.
Variable parse_dbl : cstring -> double -> bool * double.
Variable dbl_negative : double -> bool.        (* [bufsecs < 0] *)
Variable dbl_minus_one : double.               (* [-1] *)
Variables LONG_MIN LONG_MAX : Z.
Variable get_device_names : devkind -> list cstring -> list cstring.
Variable sigaction_error : Z -> option cstring.
Variable udp_error : Z -> option cstring.      (* [UDPSink(dataport)] *)
Variable source_error : Source -> option cstring.
Variable configure_error : Source -> cstring -> option cstring.
Variable start_error : Source -> cstring.      (* [error()] after [start] *)
Variables configured_frequency frequency sample_rate : Source -> double.

(** What is written to stderr, and the calls into the device classes. *)
Inductive event : Type :=
  | Banner                          (* "SDRDaemon - Collect samples ..." *)
  | Usage                           (* the text of [usage()] *)
  | ErrInvalidArgument (label : string)
  | ErrInvalidOptions               (* "ERROR: Invalid command line options" *)
  | ErrUnexpectedOptions            (* "ERROR: Unexpected command line options" *)
  | WarnSigint (e : cstring)
  | WarnSigterm (e : cstring)
  | OpenUdpSink (port : Z)          (* [UDPSink udp_output_instance(dataport)] *)
  | ErrUdpOutput (e : cstring)
  | ErrWrongDeviceType              (* two lines *)
  | ErrInvalidIndex (devidx : Z)
  | FoundDevices (n : Z)
  | DeviceLine (i : Z) (name : cstring)
  | UsingDevice (devidx : Z) (name : cstring)
  | ErrSource (e : cstring)         (* "ERROR source: %s" *)
  | ErrConfiguration (e : cstring)
  | ErrSourceStart (e : cstring)    (* "ERROR: source: %s" *)
  | TunedFor (f : double)
  | DeviceTunedFor (f : double)
  | IfSampleRate (f : double)
  | NewSource (s : Source)
  | DeleteSource (s : Source)
  | Configure (s : Source) (cfg : cstring)
  | PrintSpecificParms (s : Source)
  | Start (s : Source).

(** A computation of [main] before its loop: it goes on with a value, or
    the process exits, or it dereferences a null pointer, or it loops for
    ever.  The log is oldest first. *)
Inductive result (A : Type) : Type :=
  | Ok (a : A) (log : list event)
  | Exited (code : Z) (log : list event)
  | Crashed
  | Hangs.

Arguments Ok {A} a log.
Arguments Exited {A} code log.
Arguments Crashed {A}.
Arguments Hangs {A}.

Definition M (A : Type) : Type := list event -> result A.

Definition ret {A : Type} (a : A) : M A := fun log => Ok a log.

Definition bind {A B : Type} (m : M A) (f : A -> M B) : M B :=
  fun log =>
    match m log with
    | Ok a log' => f a log'
    | Exited code log' => Exited code log'
    | Crashed => Crashed
    | Hangs => Hangs
    end.

Definition say (e : event) : M unit := fun log => Ok tt (log ++ [e]).
Definition exit {A : Type} (code : Z) : M A := fun log => Exited code log.
Definition crash {A : Type} : M A := fun _ => Crashed.
Definition hang {A : Type} : M A := fun _ => Hangs.

Local Notation "x <- m ;; f" := (bind m (fun x => f))
  (at level 61, m at next level, right associativity).
Local Notation "m ;; f" := (bind m (fun _ => f))
  (at level 61, right associativity).

(** [usage()] and [badarg(label)]. *)
Definition usage : M unit := say Usage.

Definition badarg {A : Type} (label : string) : M A :=
  usage ;; say (ErrInvalidArgument label) ;; exit 1.

(** *** [get_device] *)

(** The loop that prints the device list. *)
Fixpoint print_devices (i : Z) (devnames : list cstring) : M unit :=
  match devnames with
  | [] => ret tt
  | name :: rest => say (DeviceLine i name) ;; print_devices (i + 1) rest
  end.

Definition new (s : Source) : M (option Source) :=
  say (NewSource s) ;; ret (Some s).

(** [static bool get_device(std::vector<std::string> &devnames,
    std::string& devtype, Source **srcsdr, int devidx)]: the result is the
    returned flag with [*srcsdr] and [devnames] after the call.  The
    counter of the listing loop is an [unsigned int] compared with a
    64-bit size: with 2^32 names or more the loop does not end. *)
Definition get_device (devnames : list cstring) (devtype : cstring)
    (srcsdr : option Source) (devidx : Z)
  : M (bool * option Source * list cstring) :=
  let found :=
    if is_type devtype "rtlsdr"
    then Some (get_device_names RTLSDR devnames)
    else if is_type devtype "hackrf"
    then Some (get_device_names HACKRF devnames)
    else if is_type devtype "airspy"
    then Some (get_device_names AIRSPY devnames)
    else if is_type devtype "bladerf"
    then Some (get_device_names BLADERF devnames)
    else None in
  match found with
  | None => say ErrWrongDeviceType ;; ret (false, srcsdr, devnames)
  | Some devnames =>
      let size := Z.of_nat (length devnames) in
      if ((devidx <? 0) || (size <=? devidx mod UINT_MOD))%bool then
        (if devidx =? -1 then ret tt else say (ErrInvalidIndex devidx)) ;;
        say (FoundDevices (size mod UINT_MOD)) ;;
        (if UINT_MOD <=? size then hang else print_devices 0 devnames) ;;
        ret (false, srcsdr, devnames)
      else
        let name := nth (Z.to_nat devidx) devnames [] in
        say (UsingDevice devidx name) ;;
        srcsdr' <-
          (if is_type devtype "rtlsdr" then new (RtlSdrSource devidx)
           else if is_type devtype "hackrf" then new (HackRFSource devidx)
           else if is_type devtype "airspy" then new (AirspySource devidx)
           else if is_type devtype "bladerf" then new (BladeRFSource name)
           else ret srcsdr) ;;
        ret (true, srcsdr', devnames)
  end.

(** *** The option loop of [main] *)

(** The local variables of [main] that the options are meant to set. *)
Record options : Type := mkOptions {
  o_devidx : Z;                 (* int devidx = 0 *)
  o_pcmrate : Z;                (* int pcmrate = 48000 *)
  o_stereo : bool;              (* bool stereo = true *)
  o_bufsecs : double;           (* double bufsecs = -1 *)
  o_config_str : cstring;
  o_devtype_str : cstring;
  o_ip_address : cstring;
  o_dataport : Z;               (* unsigned int dataport = 9090 *)
  o_cfgport : Z                 (* unsigned int cfgport = 9091 *)
}.

Definition initial_options : options :=
  mkOptions 0 48000 true dbl_minus_one [] [] [] 9090 9091.

(** The use of [optarg]: a null pointer cannot be read. *)
Definition with_optarg {A : Type} (optarg : option cstring)
    (f : cstring -> M A) : M A :=
  match optarg with
  | Some a => f a
  | None => crash
  end.

(** The body of the loop: [switch (c)]. *)
Definition handle_option (c : Z) (optarg : option cstring) (o : options)
  : M options :=
  if c =? chr "t" then
    with_optarg optarg (fun a =>
      ret (mkOptions (o_devidx o) (o_pcmrate o) (o_stereo o) (o_bufsecs o)
             (o_config_str o) a (o_ip_address o) (o_dataport o)
             (o_cfgport o)))
  else if c =? chr "c" then
    with_optarg optarg (fun a =>
      ret (mkOptions (o_devidx o) (o_pcmrate o) (o_stereo o) (o_bufsecs o)
             a (o_devtype_str o) (o_ip_address o) (o_dataport o)
             (o_cfgport o)))
  else if c =? chr "d" then
    with_optarg optarg (fun a =>
      let '(ok, v) := parse_int LONG_MIN LONG_MAX a (o_devidx o) false in
      ret (mkOptions (if ok then v else -1) (o_pcmrate o) (o_stereo o)
             (o_bufsecs o) (o_config_str o) (o_devtype_str o)
             (o_ip_address o) (o_dataport o) (o_cfgport o)))
  else if c =? chr "r" then
    with_optarg optarg (fun a =>
      let '(ok, v) := parse_int LONG_MIN LONG_MAX a (o_pcmrate o) true in
      if (negb ok || (v <? 1))%bool then badarg "-r"
      else
        ret (mkOptions (o_devidx o) v (o_stereo o) (o_bufsecs o)
               (o_config_str o) (o_devtype_str o) (o_ip_address o)
               (o_dataport o) (o_cfgport o)))
  else if c =? chr "M" then
    ret (mkOptions (o_devidx o) (o_pcmrate o) false (o_bufsecs o)
           (o_config_str o) (o_devtype_str o) (o_ip_address o)
           (o_dataport o) (o_cfgport o))
  else if c =? chr "b" then
    with_optarg optarg (fun a =>
      let '(ok, v) := parse_dbl a (o_bufsecs o) in
      if (negb ok || dbl_negative v)%bool then badarg "-b"
      else
        ret (mkOptions (o_devidx o) (o_pcmrate o) (o_stereo o) v
               (o_config_str o) (o_devtype_str o) (o_ip_address o)
               (o_dataport o) (o_cfgport o)))
  else
    usage ;; say ErrInvalidOptions ;; exit 1.

(** [while ((c = getopt_long(...)) >= 0) { switch (c) ... }] over the
    successive results of [getopt_long]; the end of the list stands for
    the final -1. *)
Fixpoint getopt_loop (rets : list getopt_ret) (o : options) : M options :=
  match rets with
  | [] => ret o
  | (c, optarg) :: rest =>
      if c <? 0 then ret o
      else o' <- handle_option c optarg o ;; getopt_loop rest o'
  end.

(** The results the loop gets to see. *)
Fixpoint processed (rets : list getopt_ret) : list getopt_ret :=
  match rets with
  | [] => []
  | r :: rest => if fst r <? 0 then [] else r :: processed rest
  end.

(** *** [main] up to its loop *)

Definition install (sig : Z) (warn : cstring -> event) : M unit :=
  match sigaction_error sig with
  | Some e => say (warn e)
  | None => ret tt
  end.

(** A use of the object behind a pointer. *)
Definition deref {A : Type} (p : option Source) (f : Source -> M A) : M A :=
  match p with
  | Some s => f s
  | None => crash
  end.

(** [main] from its first line to the entry of the main loop, given the
    results of [getopt_long] and whether [optind < argc] after the last
    one.  The value is the options and the source that streams. *)
Definition main_start (rets : list getopt_ret) (more_args : bool)
  : M (options * Source) :=
  say Banner ;;
  o <- getopt_loop rets initial_options ;;
  (if more_args then usage ;; say ErrUnexpectedOptions ;; exit 1
   else ret tt) ;;
  install SIGINT WarnSigint ;;
  install SIGTERM WarnSigterm ;;
  say (OpenUdpSink (o_dataport o)) ;;
  match udp_error (o_dataport o) with
  | Some e => say (ErrUdpOutput e) ;; exit 1
  | None => ret tt
  end ;;
  r <- get_device [] (o_devtype_str o) None (o_devidx o) ;;
  let '(found, srcsdr, _) := r in
  (if found then ret tt else exit 1) ;;
  deref srcsdr (fun s =>
    match source_error s with
    | Some e => say (ErrSource e) ;; say (DeleteSource s) ;; exit 1
    | None => ret tt
    end) ;;
  deref srcsdr (fun s =>
    say (Configure s (o_config_str o)) ;;
    match configure_error s (o_config_str o) with
    | Some e =>
        say (ErrConfiguration e) ;; say (DeleteSource s) ;; exit 1
    | None => ret tt
    end) ;;
  deref srcsdr (fun s =>
    say (TunedFor (configured_frequency s)) ;;
    say (DeviceTunedFor (frequency s)) ;;
    say (IfSampleRate (sample_rate s)) ;;
    say (PrintSpecificParms s)) ;;
  let up_srcsdr := srcsdr in
  deref up_srcsdr (fun s => say (Start s)) ;;
  (* if (!up_srcsdr): the pointer is tested *)
  match up_srcsdr with
  | None =>
      deref up_srcsdr (fun s => say (ErrSourceStart (start_error s))) ;;
      exit 1
  | Some s => ret (o, s)
  end.

(** *** The option loop: what every run of it satisfies *)

(** The options the [switch] has a case for. *)
Definition handled (c : Z) : bool :=
  existsb (Z.eqb c) (map chr ["t"; "c"; "d"; "r"; "M"; "b"]%char).

Definition null_optarg (r : getopt_ret) : bool :=
  match snd r with None => true | Some _ => false end.

(** The two error lines of the option loop. *)
Definition option_error (e : event) : bool :=
  match e with
  | ErrInvalidArgument _ | ErrInvalidOptions => true
  | _ => false
  end.

(** The ranges of the two [int] variables. *)
Definition opt_inv (o : options) : Prop :=
  1 <= o_pcmrate o <= INT_MAX /\ INT_MIN <= o_devidx o <= INT_MAX.

Definition same_ports (o o' : options) : Prop :=
  o_ip_address o' = o_ip_address o /\ o_dataport o' = o_dataport o /\
  o_cfgport o' = o_cfgport o.

Lemma handled_eqb (c : Z) (a : ascii) :
  (c =? chr a) = true -> handled (chr a) = true -> handled c = true.
Proof. intros H. apply Z.eqb_eq in H. now subst. Qed.

Lemma handle_option_spec (c : Z) (optarg : option cstring) (o : options)
  (log : list event) :
  match handle_option c optarg o log with
  | Ok o' log' =>
      handled c = true /\ log' = log /\ same_ports o o' /\
      (opt_inv o -> opt_inv o')
  | Exited code log' =>
      code = 1 /\ exists e, option_error e = true /\ log' = log ++ [Usage; e]
  | Crashed => optarg = None
  | Hangs => False
  end.
Proof.
  clear udp_error sigaction_error dbl_minus_one.
  unfold handle_option, opt_inv, same_ports.
  destruct (c =? chr "t") eqn:Et.
  { destruct optarg; cbn; auto.
    repeat split; auto; try tauto. eapply handled_eqb; eauto. }
  destruct (c =? chr "c") eqn:Ec.
  { destruct optarg; cbn; auto.
    repeat split; auto; try tauto. eapply handled_eqb; eauto. }
  destruct (c =? chr "d") eqn:Ed.
  { destruct optarg as [a|]; cbn; auto.
    destruct (parse_int LONG_MIN LONG_MAX a (o_devidx o) false)
      as [ok v] eqn:Ep.
    cbn. repeat split; auto; try tauto.
    - eapply handled_eqb; eauto.
    - destruct ok; [|unfold INT_MIN; lia].
      apply ParseIntFacts.parse_int_in_range in Ep. lia.
    - destruct ok; [|unfold INT_MAX; lia].
      apply ParseIntFacts.parse_int_in_range in Ep. lia. }
  destruct (c =? chr "r") eqn:Er.
  { destruct optarg as [a|]; cbn; auto.
    destruct (parse_int LONG_MIN LONG_MAX a (o_pcmrate o) true)
      as [ok v] eqn:Ep.
    destruct (negb ok || (v <? 1))%bool eqn:Eb.
    - cbn. rewrite <- app_assoc. split; [reflexivity|].
      eexists. split; [|reflexivity]. reflexivity.
    - apply orb_false_iff in Eb as [Eok Ev].
      apply negb_false_iff in Eok. subst ok. apply Z.ltb_ge in Ev.
      apply ParseIntFacts.parse_int_in_range in Ep.
      cbn. repeat split; auto; try tauto; try lia.
      all: try (eapply handled_eqb; now eauto). }
  destruct (c =? chr "M") eqn:Em.
  { cbn. repeat split; auto; try tauto. eapply handled_eqb; eauto. }
  destruct (c =? chr "b") eqn:Eb.
  { destruct optarg as [a|]; cbn; auto.
    destruct (parse_dbl a (o_bufsecs o)) as [ok v].
    destruct (negb ok || dbl_negative v)%bool.
    - cbn. rewrite <- app_assoc. split; [reflexivity|].
      eexists. split; [|reflexivity]. reflexivity.
    - cbn. repeat split; auto; try tauto. eapply handled_eqb; eauto. }
  cbn. rewrite <- app_assoc. split; [reflexivity|].
  eexists. split; [|reflexivity]. reflexivity.
Qed.

Lemma handle_option_default (c : Z) (optarg : option cstring) (o : options)
  (log : list event) :
  handled c = false ->
  handle_option c optarg o log = Exited 1 (log ++ [Usage; ErrInvalidOptions]).
Proof.
  intros H. unfold handled in H. cbn [map existsb] in H.
  repeat (apply orb_false_iff in H as [?E H]).
  unfold handle_option. rewrite E, E0, E1, E2, E3, E4.
  cbn. now rewrite <- app_assoc.
Qed.

Lemma getopt_loop_spec (rets : list getopt_ret) :
  forall (o : options) (log : list event),
    match getopt_loop rets o log with
    | Ok o' log' =>
        forallb (fun r => handled (fst r)) (processed rets) = true /\
        log' = log /\ same_ports o o' /\ (opt_inv o -> opt_inv o')
    | Exited code log' =>
        code = 1 /\
        exists e, option_error e = true /\ log' = log ++ [Usage; e]
    | Crashed => existsb null_optarg (processed rets) = true
    | Hangs => False
    end.
Proof.
  clear udp_error sigaction_error dbl_minus_one.
  induction rets as [|[c optarg] rest IH]; intros o log.
  - cbn. unfold same_ports. tauto.
  - cbn [getopt_loop processed fst].
    destruct (c <? 0); [cbn; unfold same_ports; tauto|].
    unfold bind.
    pose proof (handle_option_spec c optarg o log) as H.
    destruct (handle_option c optarg o log) as [o1 log1| | |];
      [|assumption| |contradiction].
    + destruct H as (Hh & -> & (P1 & P2 & P3) & Hi).
      specialize (IH o1 log).
      destruct (getopt_loop rest o1 log) as [o2 log2| | |]; auto.
      * destruct IH as (Hf & -> & (Q1 & Q2 & Q3) & Hj).
        cbn [forallb fst]. rewrite Hh, Hf.
        unfold same_ports.
        split; [reflexivity|]. split; [reflexivity|].
        split; [repeat split; congruence | auto].
      * cbn [existsb]. rewrite IH. apply orb_true_r.
    + subst optarg. reflexivity.
Qed.

(** X3.  The options [-I], [-D] and [-C] are in the string given to
    [getopt_long] and in the help text, but the [switch] has no case for
    them: such an option ends the process with status 1 after the usage
    text.  So a run that leaves the option loop has seen none of them, and
    the address, data port and configuration port are those the loop
    started with. *)
Theorem address_and_port_options_refused (rets : list getopt_ret)
  (o : options) (log : list event) :
  (known_option (chr "I") = true /\ known_option (chr "D") = true /\
   known_option (chr "C") = true) /\
  (forall c optarg,
      c = chr "I" \/ c = chr "D" \/ c = chr "C" ->
      handle_option c optarg o log =
      Exited 1 (log ++ [Usage; ErrInvalidOptions])) /\
  match getopt_loop rets o log with
  | Ok o' _ =>
      (forall r, In r (processed rets) ->
                 fst r <> chr "I" /\ fst r <> chr "D" /\ fst r <> chr "C") /\
      o_ip_address o' = o_ip_address o /\
      o_dataport o' = o_dataport o /\ o_cfgport o' = o_cfgport o
  | Exited code _ => code = 1
  | Crashed | Hangs => True
  end.
Proof.
  clear udp_error sigaction_error dbl_minus_one.
  split; [repeat split|]. split.
  - intros c optarg [-> | [-> | ->]]; now apply handle_option_default.
  - pose proof (getopt_loop_spec rets o log) as H.
    destruct (getopt_loop rets o log) as [o' log'| | |]; auto; [|tauto].
    destruct H as (Hf & _ & Hp & _). split; [|exact Hp].
    intros r Hr. rewrite forallb_forall in Hf. specialize (Hf r Hr).
    repeat split; intros E; rewrite E in Hf; discriminate.
Qed.

(** X4.  Whatever [getopt_long] returns, a run that leaves the option loop
    has [1 <= pcmrate <= INT_MAX] and [devidx] in the range of [int]
    (an argument of [-d] that is not read gives -1, one of [-r] that is
    not read or is below 1 ends the process); and the loop ends the
    process only with status 1, after the usage text and one error
    line. *)
Theorem option_loop_ranges (rets : list getopt_ret) (log : list event) :
  match getopt_loop rets initial_options log with
  | Ok o log' =>
      log' = log /\
      1 <= o_pcmrate o <= INT_MAX /\ INT_MIN <= o_devidx o <= INT_MAX
  | Exited code log' =>
      code = 1 /\ exists e, option_error e = true /\ log' = log ++ [Usage; e]
  | Crashed => existsb null_optarg (processed rets) = true
  | Hangs => False
  end.
Proof.
  pose proof (getopt_loop_spec rets initial_options log) as H.
  destruct (getopt_loop rets initial_options log) as [o' log'| | |]; auto.
  destruct H as (_ & -> & _ & Hi). split; [reflexivity|].
  apply Hi. unfold opt_inv, INT_MIN, INT_MAX. cbn. lia.
Qed.

(** *** [get_device]: which device is opened, and what is listed *)

(** The object constructed for a device type. *)
Definition open_source (k : devkind) (devidx : Z) (devnames : list cstring)
  : Source :=
  match k with
  | RTLSDR => RtlSdrSource devidx
  | HACKRF => HackRFSource devidx
  | AIRSPY => AirspySource devidx
  | BLADERF => BladeRFSource (nth (Z.to_nat devidx) devnames [])
  end.

(** The lines of the device list. *)
Definition device_lines (start : nat) (devnames : list cstring)
  : list event :=
  map (fun p => DeviceLine (Z.of_nat (fst p)) (snd p))
      (combine (seq start (length devnames)) devnames).

(** The calls into the other classes, among the events. *)
Definition is_call (e : event) : bool :=
  match e with
  | OpenUdpSink _ | NewSource _ | DeleteSource _ | Configure _ _
  | Start _ => true
  | _ => false
  end.

Definition calls (log : list event) : list event := filter is_call log.

(** The two chains of [strcasecmp] tests agree: the object constructed is
    the one of the type whose names were listed. *)
Lemma get_device_eq (devnames : list cstring) (devtype : cstring)
  (srcsdr : option Source) (devidx : Z) :
  get_device devnames devtype srcsdr devidx =
  match kind_by_chain devtype with
  | None => say ErrWrongDeviceType ;; ret (false, srcsdr, devnames)
  | Some k =>
      let names := get_device_names k devnames in
      let size := Z.of_nat (length names) in
      if ((devidx <? 0) || (size <=? devidx mod UINT_MOD))%bool then
        (if devidx =? -1 then ret tt else say (ErrInvalidIndex devidx)) ;;
        say (FoundDevices (size mod UINT_MOD)) ;;
        (if UINT_MOD <=? size then hang else print_devices 0 names) ;;
        ret (false, srcsdr, names)
      else
        say (UsingDevice devidx (nth (Z.to_nat devidx) names [])) ;;
        srcsdr' <- new (open_source k devidx names) ;;
        ret (true, srcsdr', names)
  end.
Proof.
  unfold get_device, kind_by_chain.
  destruct (is_type devtype "rtlsdr"); [reflexivity|].
  destruct (is_type devtype "hackrf"); [reflexivity|].
  destruct (is_type devtype "airspy"); [reflexivity|].
  destruct (is_type devtype "bladerf"); reflexivity.
Qed.

Lemma print_devices_log (devnames : list cstring) :
  forall (start : nat) (log : list event),
    print_devices (Z.of_nat start) devnames log =
    Ok tt (log ++ device_lines start devnames).
Proof.
  unfold device_lines.
  induction devnames as [|name rest IH]; intros start log.
  - cbn. now rewrite app_nil_r.
  - cbn [print_devices length seq combine map fst snd].
    unfold bind, say.
    replace (Z.of_nat start + 1) with (Z.of_nat (S start)) by lia.
    rewrite IH, <- app_assoc. reflexivity.
Qed.

Lemma calls_app (a b : list event) : calls (a ++ b) = calls a ++ calls b.
Proof. apply filter_app. Qed.

Lemma calls_device_lines (start : nat) (devnames : list cstring) :
  calls (device_lines start devnames) = [].
Proof.
  unfold device_lines, calls.
  induction (combine (seq start (length devnames)) devnames) as [|p l IH];
    [reflexivity | exact IH].
Qed.

(** X5.  [get_device] returns true exactly when the device type is one of
    rtlsdr, hackrf, airspy, bladerf (letters compared without case) and
    [0 <= devidx < number of devices of that type]; then [*srcsdr] is the
    new object of that type, opened by index, or by the name at that index
    for a BladeRF, and one line is printed.  When it returns false
    [*srcsdr] is untouched.  It never ends the process itself. *)
Theorem get_device_selects (devnames : list cstring) (devtype : cstring)
  (srcsdr : option Source) (devidx : Z) (log : list event) :
  nul_free devtype = true -> INT_MIN <= devidx <= INT_MAX ->
  match get_device devnames devtype srcsdr devidx log with
  | Ok (true, src, names) log' =>
      exists k,
        map tolower devtype = cstr (type_name k) /\
        names = get_device_names k devnames /\
        0 <= devidx < Z.of_nat (length names) /\
        src = Some (open_source k devidx names) /\
        log' = log ++ [UsingDevice devidx (nth (Z.to_nat devidx) names []);
                       NewSource (open_source k devidx names)]
  | Ok (false, src, names) log' =>
      src = srcsdr /\
      ((forall k, map tolower devtype <> cstr (type_name k)) /\
       names = devnames /\ log' = log ++ [ErrWrongDeviceType]
       \/
       exists k,
         map tolower devtype = cstr (type_name k) /\
         names = get_device_names k devnames /\
         ~ 0 <= devidx < Z.of_nat (length names))
  | Exited _ _ | Crashed => False
  | Hangs =>
      exists k,
        map tolower devtype = cstr (type_name k) /\
        UINT_MOD <= Z.of_nat (length (get_device_names k devnames)) /\
        devidx < 0
  end.
Proof.
  intros Hnf Hidx. rewrite get_device_eq.
  destruct (kind_by_chain devtype) as [k|] eqn:Ek.
  - apply (kind_by_chain_named devtype k Hnf) in Ek.
    cbv zeta. set (names := get_device_names k devnames).
    destruct ((devidx <? 0) || _)%bool eqn:Ei.
    + assert (Hbad : ~ 0 <= devidx < Z.of_nat (length names)).
      { apply orb_true_iff in Ei as [Ei | Ei];
          [apply Z.ltb_lt in Ei; lia|].
        apply Z.leb_le in Ei. intros Hok.
        rewrite Z.mod_small in Ei
          by (unfold UINT_MOD, INT_MAX in *; lia).
        lia. }
      unfold bind, say, ret, hang.
      destruct (devidx =? -1) eqn:Em;
        destruct (Z.leb_spec UINT_MOD (Z.of_nat (length names))) as [Hb|Hs].
      * exists k. apply Z.eqb_eq in Em. repeat split; auto; lia.
      * rewrite (print_devices_log names 0).
        split; [reflexivity|]. right. exists k. auto.
      * exists k. repeat split; auto.
        destruct (Z.ltb_spec devidx 0) as [|Hge]; [assumption|].
        exfalso. apply Hbad. unfold UINT_MOD, INT_MAX in *. lia.
      * rewrite (print_devices_log names 0).
        split; [reflexivity|]. right. exists k. auto.
    + apply orb_false_iff in Ei as [E1 E2].
      apply Z.ltb_ge in E1. apply Z.leb_gt in E2.
      rewrite Z.mod_small in E2 by (unfold UINT_MOD, INT_MAX in *; lia).
      unfold bind, say, ret, new. unfold bind, say, ret.
      exists k. rewrite <- app_assoc. repeat split; auto.
  - unfold bind, say, ret. split; [reflexivity|]. left.
    repeat split; auto. intros k E.
    apply (kind_by_chain_named devtype k Hnf) in E. congruence.
Qed.

(** X6.  With an index that is negative or not below the number of
    devices, [get_device] prints the number of devices found and then one
    line per device, in order, each with its index; this is preceded by
    the invalid index error unless the index is -1, the value [main] gives
    to an argument of [-d] it could not read, such as [list]. *)
Theorem get_device_lists_devices (devnames : list cstring)
  (devtype : cstring) (srcsdr : option Source) (devidx : Z) (k : devkind)
  (log : list event) :
  nul_free devtype = true ->
  map tolower devtype = cstr (type_name k) ->
  Z.of_nat (length (get_device_names k devnames)) < UINT_MOD ->
  devidx < 0 \/
  Z.of_nat (length (get_device_names k devnames)) <= devidx <= INT_MAX ->
  get_device devnames devtype srcsdr devidx log =
  Ok (false, srcsdr, get_device_names k devnames)
     (log ++ (if devidx =? -1 then [] else [ErrInvalidIndex devidx])
          ++ FoundDevices (Z.of_nat (length (get_device_names k devnames)))
          :: device_lines 0 (get_device_names k devnames)).
Proof.
  intros Hnf Ek Hsize Hidx. rewrite get_device_eq.
  apply (kind_by_chain_named devtype k Hnf) in Ek. rewrite Ek.
  cbv zeta. set (names := get_device_names k devnames) in *.
  assert (Ei : ((devidx <? 0)
                || (Z.of_nat (length names) <=? devidx mod UINT_MOD))%bool
               = true).
  { apply orb_true_iff. destruct Hidx as [H | H].
    - left. now apply Z.ltb_lt.
    - right. apply Z.leb_le.
      rewrite Z.mod_small by (unfold UINT_MOD, INT_MAX in *; lia). lia. }
  rewrite Ei. unfold bind, say, ret.
  destruct (Z.leb_spec UINT_MOD (Z.of_nat (length names))); [lia|].
  rewrite Z.mod_small by lia.
  destruct (devidx =? -1); rewrite (print_devices_log names 0);
    now rewrite <- !app_assoc.
Qed.

(** *** [main] up to its loop: the calls it makes and how it can end *)

Lemma get_device_shape (devnames : list cstring) (devtype : cstring)
  (srcsdr : option Source) (devidx : Z) (log : list event) :
  match get_device devnames devtype srcsdr devidx log with
  | Ok (true, src, _) log' =>
      exists s name,
        src = Some s /\ log' = log ++ [UsingDevice devidx name; NewSource s]
  | Ok (false, src, _) log' =>
      src = srcsdr /\ exists l, log' = log ++ l /\ calls l = []
  | Exited _ _ | Crashed => False
  | Hangs =>
      exists k, UINT_MOD <= Z.of_nat (length (get_device_names k devnames))
  end.
Proof.
  rewrite get_device_eq.
  destruct (kind_by_chain devtype) as [k|].
  - cbv zeta. set (names := get_device_names k devnames).
    destruct ((devidx <? 0) || _)%bool.
    + unfold bind, say, ret, hang.
      destruct (devidx =? -1);
        destruct (Z.leb_spec UINT_MOD (Z.of_nat (length names)));
        try (now exists k);
        rewrite (print_devices_log names 0);
        (split; [reflexivity|]); rewrite <- ?app_assoc;
        eexists; (split; [reflexivity|]);
        rewrite ?calls_app, calls_device_lines; reflexivity.
    + unfold bind, say, ret, new. unfold bind, say, ret.
      rewrite <- app_assoc. do 2 eexists. split; reflexivity.
  - unfold bind, say, ret. split; [reflexivity|].
    eexists. split; reflexivity.
Qed.

(** X7.  How [main] can end before its loop, by the calls it has made.
    It exits only with status 1, and then either nothing was opened, or
    only the UDP sink on port 9090, or a source was constructed and
    deleted again, after [configure] or before it; a source is never
    started on these paths.  When the loop is entered the calls were, in
    this order: the UDP sink on port 9090, the construction of the source,
    [configure] with the configuration string of the options, and
    [start]; the test that follows [start] looks at the pointer, so the
    state of the source after [start] has no influence. *)
Theorem main_start_protocol (rets : list getopt_ret) (more_args : bool) :
  match main_start rets more_args [] with
  | Ok (o, s) log =>
      calls log = [OpenUdpSink 9090; NewSource s;
                   Configure s (o_config_str o); Start s] /\
      more_args = false /\ udp_error 9090 = None /\
      source_error s = None /\ configure_error s (o_config_str o) = None /\
      getopt_loop rets initial_options [Banner] = Ok o [Banner]
  | Exited code log =>
      code = 1 /\
      (calls log = [] \/ calls log = [OpenUdpSink 9090] \/
       exists s,
         calls log = [OpenUdpSink 9090; NewSource s; DeleteSource s] \/
         exists cfg,
           calls log = [OpenUdpSink 9090; NewSource s; Configure s cfg;
                        DeleteSource s])
  | Crashed => existsb null_optarg (processed rets) = true
  | Hangs =>
      exists k, UINT_MOD <= Z.of_nat (length (get_device_names k []))
  end.
Proof.
  unfold main_start. unfold bind at 1. unfold say at 1. cbn [app].
  unfold bind at 1.
  pose proof (getopt_loop_spec rets initial_options [Banner]) as Hopt.
  destruct (getopt_loop rets initial_options [Banner]) as [o lg| | |];
    [|destruct Hopt as (-> & e & He & ->); split; [reflexivity|]; left;
      unfold calls; rewrite filter_app; destruct e; try discriminate;
      reflexivity
     |assumption|contradiction].
  destruct Hopt as (_ & -> & (_ & Hport & _) & _).
  cbn [o_dataport initial_options] in Hport. rewrite Hport.
  unfold bind at 1.
  destruct more_args; [cbn; split; [reflexivity|]; now left|].
  unfold ret at 1. unfold install, bind at 1.
  set (w1 := match sigaction_error SIGINT with
             | Some e => [WarnSigint e] | None => [] end).
  assert (E1 : match sigaction_error SIGINT with
               | Some e => say (WarnSigint e)
               | None => ret tt
               end [Banner] = Ok tt ([Banner] ++ w1)).
  { unfold w1. now destruct (sigaction_error SIGINT). }
  rewrite E1. clear E1. unfold bind at 1.
  set (w2 := match sigaction_error SIGTERM with
             | Some e => [WarnSigterm e] | None => [] end).
  assert (E2 : match sigaction_error SIGTERM with
               | Some e => say (WarnSigterm e)
               | None => ret tt
               end ([Banner] ++ w1) = Ok tt (([Banner] ++ w1) ++ w2)).
  { unfold w2. destruct (sigaction_error SIGTERM); [reflexivity|].
    now rewrite app_nil_r. }
  rewrite E2. clear E2.
  assert (Hw : calls (([Banner] ++ w1) ++ w2) = []).
  { unfold w1, w2.
    destruct (sigaction_error SIGINT), (sigaction_error SIGTERM);
      reflexivity. }
  set (log0 := ([Banner] ++ w1) ++ w2) in *. clearbody log0. clear w1 w2.
  unfold bind at 1. unfold say at 1. unfold bind at 1.
  destruct (udp_error 9090) as [e|] eqn:Eudp.
  { cbn. split; [reflexivity|]. right. left.
    rewrite !calls_app, Hw. reflexivity. }
  unfold ret at 1. unfold bind at 1.
  pose proof (get_device_shape [] (o_devtype_str o) None (o_devidx o)
                (log0 ++ [OpenUdpSink 9090])) as Hg.
  destruct (get_device [] (o_devtype_str o) None (o_devidx o)
              (log0 ++ [OpenUdpSink 9090]))
    as [[[found src] names] lg| | |]; [|contradiction|contradiction|exact Hg].
  destruct found.
  - destruct Hg as (s & name & -> & ->).
    unfold bind at 1. unfold ret at 1. unfold bind at 1.
    cbn [deref].
    destruct (source_error s) as [e|] eqn:Esrc.
    { cbn. split; [reflexivity|]. right. right. exists s. left.
      rewrite !calls_app, Hw. reflexivity. }
    unfold ret at 1. unfold bind at 1. unfold bind at 1. unfold say at 1.
    destruct (configure_error s (o_config_str o)) as [e|] eqn:Ecfg.
    { cbn. split; [reflexivity|]. right. right. exists s. right.
      exists (o_config_str o).
      rewrite !calls_app, Hw. reflexivity. }
    cbn. rewrite !calls_app, Hw. cbn. repeat split; auto.
  - destruct Hg as (-> & l & -> & Hl).
    cbn. split; [reflexivity|]. right. left.
    rewrite !calls_app, Hw, Hl. reflexivity.
Qed.

(** The warnings of the two calls of [sigaction]. *)
Definition signal_warnings : list event :=
  match sigaction_error SIGINT with
  | Some e => [WarnSigint e]
  | None => []
  end ++
  match sigaction_error SIGTERM with
  | Some e => [WarnSigterm e]
  | None => []
  end.

Lemma install_both (log : list event) :
  (install SIGINT WarnSigint ;; install SIGTERM WarnSigterm) log =
  Ok tt (log ++ signal_warnings).
Proof.
  unfold install, signal_warnings, bind, say, ret.
  destruct (sigaction_error SIGINT), (sigaction_error SIGTERM);
    rewrite <- ?app_assoc, ?app_nil_r; reflexivity.
Qed.

Lemma getopt_type_then_index (devtype arg : cstring) (log : list event) :
  fst (parse_int LONG_MIN LONG_MAX arg 0 false) = false ->
  getopt_loop [(chr "t", Some devtype); (chr "d", Some arg)]
    initial_options log =
  Ok (mkOptions (-1) 48000 true dbl_minus_one [] devtype [] 9090 9091) log.
Proof.
  intros Hp. cbn [getopt_loop]. unfold bind.
  change (chr "t" <? 0) with false. change (chr "d" <? 0) with false.
  cbv iota.
  unfold handle_option at 1. change (chr "t" =? chr "t") with true.
  cbn [with_optarg ret initial_options o_devidx o_pcmrate o_stereo o_bufsecs
       o_config_str o_devtype_str o_ip_address o_dataport o_cfgport].
  unfold handle_option.
  change (chr "d" =? chr "t") with false.
  change (chr "d" =? chr "c") with false.
  change (chr "d" =? chr "d") with true.
  cbn [with_optarg ret o_devidx o_pcmrate o_stereo o_bufsecs
       o_config_str o_devtype_str o_ip_address o_dataport o_cfgport].
  destruct (parse_int LONG_MIN LONG_MAX arg 0 false) as [ok v].
  cbn [fst] in Hp. subst ok. reflexivity.
Qed.

(** X8.  The device list on request.  With the options [-t type -d arg],
    where [type] names a device type and [arg] is not read as a number
    (such as [list]), [main] opens the UDP sink, prints the number of
    devices of that type and one line per device, and exits with status
    1: no error line is printed and no source is constructed.  The list
    is printed only if the UDP sink could be opened. *)
Theorem device_list_on_request (devtype arg : cstring) (k : devkind) :
  nul_free devtype = true ->
  map tolower devtype = cstr (type_name k) ->
  fst (parse_int LONG_MIN LONG_MAX arg 0 false) = false ->
  udp_error 9090 = None ->
  Z.of_nat (length (get_device_names k [])) < UINT_MOD ->
  main_start [(chr "t", Some devtype); (chr "d", Some arg)] false [] =
  Exited 1
    ([Banner] ++ signal_warnings ++
     [OpenUdpSink 9090;
      FoundDevices (Z.of_nat (length (get_device_names k [])))] ++
     device_lines 0 (get_device_names k [])).
Proof.
  intros Hnf Ek Hp Hudp Hsize.
  apply (kind_by_chain_named devtype k Hnf) in Ek.
  unfold main_start. unfold bind at 1. unfold say at 1. cbn [app].
  unfold bind at 1. rewrite (getopt_type_then_index devtype arg _ Hp).
  unfold bind at 1. unfold ret at 1.
  unfold bind at 1. unfold bind at 1.
  pose proof (install_both [Banner]) as Hi. unfold bind in Hi at 1.
  destruct (install SIGINT WarnSigint [Banner]) as [[] l1| | |];
    try discriminate.
  rewrite Hi. clear Hi l1.
  cbn [o_devidx o_config_str o_devtype_str o_dataport].
  unfold bind at 1. unfold say at 1. unfold bind at 1.
  rewrite Hudp. unfold ret at 1. unfold bind at 1.
  rewrite get_device_eq, Ek. cbv zeta.
  change (-1 <? 0) with true. cbn [orb].
  change (-1 =? -1) with true. cbv iota.
  unfold bind at 1. unfold ret at 1. unfold bind at 1. unfold say at 1.
  unfold bind at 1.
  destruct (Z.leb_spec UINT_MOD (Z.of_nat (length (get_device_names k []))));
    [lia|].
  rewrite (print_devices_log (get_device_names k []) 0).
  rewrite Z.mod_small by lia.
  unfold ret at 1. unfold bind at 1. unfold ret at 1. unfold exit.
  now rewrite <- !app_assoc.
Qed.

(** *** The exit status before the loop *)














End Env.

Arguments Ok {double A} a log.
Arguments Exited {double A} code log.
Arguments Crashed {double A}.
Arguments Hangs {double A}.

(** *** A machine with two RTL-SDR dongles and a HackRF *)

Definition demo_names (k : devkind) (devnames : list cstring)
  : list cstring :=
  devnames ++
  match k with
  | RTLSDR => [cstr "Generic RTL2832U OEM"; cstr "Realtek RTL2838UHIDIR"]
  | HACKRF => [cstr "HackRF One"]
  | AIRSPY => []
  | BLADERF => []
  end.

(** Nothing fails on it; [double] is taken as [Z] and [-b] is not used. *)
Definition demo_main (rets : list getopt_ret) (more_args : bool)
  : result Z (options Z * Source) :=
  main_start Z (fun _ v => (false, v)) (fun v => v <? 0) (-1)
    LP64_LONG_MIN LP64_LONG_MAX demo_names
    (fun _ => None) (fun _ => None) (fun _ => None) (fun _ _ => None)
    (fun _ => []) (fun _ => 433970000) (fun _ => 434220000)
    (fun _ => 1000000) rets more_args [].

Definition opt (c : ascii) (optarg : string) : getopt_ret :=
  (chr c, Some (cstr optarg)).

(** The first command of the README:
    [-t rtlsdr -I 192.168.1.3 -D 9090 -C 9091 -c txdelay=300,...]. *)
Example readme_command_refused :
  demo_main [opt "t" "rtlsdr"; opt "I" "192.168.1.3"; opt "D" "9090";
             opt "C" "9091"; opt "c" "txdelay=300,fecblk=8,decim=5,fcpos=2"]
            false
  = Exited 1 [Banner Z; Usage Z; ErrInvalidOptions Z].
Proof. vm_compute. reflexivity. Qed.

Example second_dongle_started :
  demo_main [opt "t" "RtlSdr"; opt "d" "1"; opt "c" "freq=433970000"] false
  = Ok (mkOptions Z 1 48000 true (-1) (cstr "freq=433970000")
          (cstr "RtlSdr") [] 9090 9091, RtlSdrSource 1)
       [Banner Z; OpenUdpSink Z 9090;
        UsingDevice Z 1 (cstr "Realtek RTL2838UHIDIR");
        NewSource Z (RtlSdrSource 1);
        Configure Z (RtlSdrSource 1) (cstr "freq=433970000");
        TunedFor Z 433970000; DeviceTunedFor Z 434220000;
        IfSampleRate Z 1000000; PrintSpecificParms Z (RtlSdrSource 1);
        Start Z (RtlSdrSource 1)].
Proof. vm_compute. reflexivity. Qed.

Example rate_with_unit :
  getopt_loop Z (fun _ v => (false, v)) (fun v => v <? 0)
    LP64_LONG_MIN LP64_LONG_MAX [opt "r" "96k"; opt "M" "x"]
    (initial_options Z (-1)) []
  = Ok (mkOptions Z 0 96000 false (-1) [] [] [] 9090 9091) [].
Proof. vm_compute. reflexivity. Qed.

Example rate_zero_refused :
  demo_main [opt "t" "hackrf"; opt "r" "0"] false
  = Exited 1 [Banner Z; Usage Z; ErrInvalidArgument Z "-r"].
Proof. vm_compute. reflexivity. Qed.

Example no_airspy_found :
  demo_main [opt "t" "airspy"] false
  = Exited 1 [Banner Z; OpenUdpSink Z 9090; ErrInvalidIndex Z 0;
              FoundDevices Z 0].
Proof. vm_compute. reflexivity. Qed.

Lemma get_device_selects_witness :
  exists k,
    map tolower (cstr "HackRF") = cstr (type_name k) /\
    [cstr "HackRF One"] = demo_names k [] /\
    0 <= 0 < Z.of_nat (length [cstr "HackRF One"]) /\
    Some (HackRFSource 0) = Some (open_source k 0 [cstr "HackRF One"]) /\
    [UsingDevice Z 0 (cstr "HackRF One"); NewSource Z (HackRFSource 0)] =
    [] ++ [UsingDevice Z 0 (nth (Z.to_nat 0) [cstr "HackRF One"] []);
           NewSource Z (open_source k 0 [cstr "HackRF One"])].
Proof.
  assert (Hr : INT_MIN <= 0 <= INT_MAX) by (unfold INT_MIN, INT_MAX; lia).
  exact (get_device_selects Z demo_names [] (cstr "HackRF") None 0 []
           eq_refl Hr).
Defined.

Lemma get_device_lists_devices_witness :
  get_device Z demo_names [] (cstr "rtlsdr") None 2 [] =
  Ok (false, None, demo_names RTLSDR [])
     ([ErrInvalidIndex Z 2; FoundDevices Z 2;
       DeviceLine Z 0 (cstr "Generic RTL2832U OEM");
       DeviceLine Z 1 (cstr "Realtek RTL2838UHIDIR")]).
Proof.
  assert (Hs : Z.of_nat (length (demo_names RTLSDR [])) < UINT_MOD)
    by (vm_compute; reflexivity).
  assert (Hi : 2 < 0 \/
               Z.of_nat (length (demo_names RTLSDR [])) <= 2 <= INT_MAX)
    by (right; vm_compute; split; discriminate).
  exact (get_device_lists_devices Z demo_names [] (cstr "rtlsdr") None 2
           RTLSDR [] eq_refl eq_refl Hs Hi).
Defined.

Lemma device_list_on_request_witness :
  demo_main [opt "t" "rtlsdr"; opt "d" "list"] false =
  Exited 1
    [Banner Z; OpenUdpSink Z 9090; FoundDevices Z 2;
     DeviceLine Z 0 (cstr "Generic RTL2832U OEM");
     DeviceLine Z 1 (cstr "Realtek RTL2838UHIDIR")].
Proof.
  assert (Hs : Z.of_nat (length (demo_names RTLSDR [])) < UINT_MOD)
    by (vm_compute; reflexivity).
  exact (device_list_on_request Z (fun _ v => (false, v)) (fun v => v <? 0)
           (-1) LP64_LONG_MIN LP64_LONG_MAX demo_names
           (fun _ => None) (fun _ => None) (fun _ => None) (fun _ _ => None)
           (fun _ => []) (fun _ => 433970000) (fun _ => 434220000)
           (fun _ => 1000000) (cstr "rtlsdr") (cstr "list") RTLSDR
           eq_refl eq_refl eq_refl eq_refl Hs).
Defined.

End Startup.

(** ** The block counter of the main loop *)

Module DaemonFacts.

Import Downsample DataBuf Daemon.
Local Open Scope Z_scope.

(** The iterations with their rank in the run, counted from 0. *)
Definition ranked (its : list iteration) : list (nat * iteration) :=
  combine (seq 0 (length its)) its.

(** The rank is not a multiple of 2^32. *)
Definition off_wrap (p : nat * iteration) : bool :=
  negb (Z.of_nat (fst p) mod UINT_MOD =? 0).

Lemma filter_by_rank (its : list iteration) :
  forall start : nat,
    map it_blk its =
    map (fun i => Z.of_nat i mod UINT_MOD) (seq start (length its)) ->
    filter (fun it => 0 <? it_blk it) its =
    map snd (filter off_wrap (combine (seq start (length its)) its)).
Proof.
  induction its as [|it its IH]; intros start H; [reflexivity|].
  cbn [length seq map combine filter] in *.
  injection H as Hb Hrest.
  rewrite (IH (S start) Hrest).
  assert (Ew : off_wrap (start, it) =
               negb (Z.of_nat start mod UINT_MOD =? 0)) by reflexivity.
  rewrite Ew, Hb.
  assert (Hm : 0 <= Z.of_nat start mod UINT_MOD)
    by (apply Z.mod_pos_bound; reflexivity).
  destruct (Z.eqb_spec (Z.of_nat start mod UINT_MOD) 0) as [E | N].
  - rewrite E. reflexivity.
  - destruct (Z.ltb_spec 0 (Z.of_nat start mod UINT_MOD)); [|lia].
    reflexivity.
Qed.

(** X9.  [block] is an [unsigned int]: it comes back to 0 after 2^32
    iterations, and the test [block > 0] then throws that vector away as
    it did the first.  In every run the vectors pushed to the output
    buffer are the outputs of exactly the iterations whose rank is not a
    multiple of 2^32, in order. *)
Theorem block_counter_wraps (hb_kernel : list Z) (hb_shift ifrate : Z)
  (cfg : ParseInt.cstring) (sched : list action) :
  let s := run hb_kernel hb_shift ifrate sched (init cfg) in
  pushed s = map it_out (map snd (filter off_wrap (ranked (iterations s))))
  /\
  forall (i : nat) (it : iteration),
    nth_error (iterations s) i = Some it ->
    it_blk it = Z.of_nat i mod UINT_MOD /\
    (Z.of_nat i mod UINT_MOD = 0 -> ~ In (i, it) (filter off_wrap (ranked (iterations s)))).
Proof.
  intros s.
  destruct (loop_inv_run hb_kernel hb_shift ifrate cfg sched)
    as [_ _ Hcons _ Hpush _ _ _].
  fold s in Hcons, Hpush. unfold consecutive in Hcons.
  split.
  - rewrite Hpush. unfold ranked. now rewrite (filter_by_rank _ 0 Hcons).
  - intros i it Hi. split.
    + apply (f_equal (fun l => nth_error l i)) in Hcons.
      rewrite nth_error_map, Hi in Hcons. cbn [option_map] in Hcons.
      assert (Hlt : (i < length (iterations s))%nat)
        by (apply nth_error_Some; congruence).
      rewrite nth_error_map, nth_error_seq in Hcons.
      destruct (Nat.ltb_spec i (length (iterations s))); [|lia].
      cbn [option_map Nat.add] in Hcons. now injection Hcons.
    + intros Hz Hin. apply filter_In in Hin as [_ Hf].
      unfold off_wrap in Hf. cbn [fst] in Hf. rewrite Hz in Hf.
      discriminate.
Qed.

(** *** When the threads can end *)

Definition in_loop (pc : main_pc) : bool :=
  match pc with M_Cond | M_Check | M_Pull => true | _ => false end.

(** What happens outside does not ask for a stop: no signal, no end of
    the source stream, no empty vector from the device. *)
Definition quiet (a : action) : bool :=
  match a with
  | Env (Signal _) | Env DevEnd => false
  | Env (DevPush v) => match v with [] => false | _ :: _ => true end
  | Main | Out => true
  end.

Record streaming (s : sys) : Prop := mkStreaming {
  st_flag : stop_flag s = false;
  st_loop : in_loop (mpc s) = true;
  st_src_end : m_end_marked (source_buffer s) = false;
  st_src_queue : Forall (fun v => v <> []) (m_queue (source_buffer s));
  st_out_end : m_end_marked (output_buffer s) = false;
  st_opc : opc s <> O_Done;
  st_dev : dev_running s = true;
  st_exit : exit_code s = None
}.

Lemma streaming_step (hb_kernel : list Z) (hb_shift ifrate : Z)
  (a : action) (s : sys) :
  quiet a = true -> streaming s ->
  streaming (step hb_kernel hb_shift ifrate a s).
Proof.
  intros Hq [Hf Hl He Hqs Hoe Ho Hd Hx].
  destruct a as [| |[n|v|]]; try discriminate.
  - (* main *)
    unfold step, main_step.
    destruct (mpc s) eqn:Em; try discriminate.
    + rewrite Hf. constructor; cbn; auto.
    + destruct (negb (inbuf_length_warning s) && _)%bool;
        constructor; cbn; auto.
    + unfold pull. destruct (m_queue (source_buffer s)) as [|w q] eqn:Eq.
      * rewrite He. constructor; auto; [now rewrite Em | now rewrite Eq].
      * inversion Hqs as [|? ? Hw Hq']; subst.
        destruct w as [|x w]; [congruence|].
        rewrite outputbuf_on.
        destruct (0 <? block s); constructor; cbn; auto.
  - (* output thread *)
    unfold step, out_step.
    destruct (opc s) eqn:Eo; try congruence.
    + rewrite Hf. constructor; cbn; auto; discriminate.
    + destruct (N.eqb _ 0); constructor; cbn; auto; discriminate.
    + destruct (wait_buffer_fill _ _);
        [constructor; cbn; auto; discriminate|].
      constructor; auto. now rewrite Eo.
    + assert (Ep : pull_end_reached (output_buffer s) = false).
      { unfold pull_end_reached. rewrite Hoe.
        now destruct (m_queue (output_buffer s)). }
      rewrite Ep. constructor; cbn; auto; discriminate.
    + unfold pull. destruct (m_queue (output_buffer s)) as [|w q].
      * rewrite Hoe. constructor; auto. now rewrite Eo.
      * constructor; cbn; auto; discriminate.
  - (* the device pushes a vector *)
    destruct v as [|x v]; [discriminate|].
    constructor; cbn; auto.
    apply Forall_app. split; [assumption|].
    constructor; [discriminate | constructor].
Qed.

Lemma streaming_run (hb_kernel : list Z) (hb_shift ifrate : Z)
  (sched : list action) :
  forall s : sys,
    streaming s -> forallb quiet sched = true ->
    streaming (run hb_kernel hb_shift ifrate sched s).
Proof.
  induction sched as [|a l IH]; intros s Hs Hq; [exact Hs|].
  cbn [forallb] in Hq. apply andb_true_iff in Hq as [Ha Hl].
  rewrite run_cons. apply IH; [|exact Hl].
  now apply streaming_step.
Qed.

(** X10.  The daemon does not stop by itself.  As long as no signal is
    handled, the device does not end its stream and does not deliver an
    empty vector, [main] stays in its loop and the output thread in its
    own, whatever the schedule: the source is not stopped, the end of the
    output buffer is not signalled and the process does not exit. *)
Theorem daemon_keeps_streaming (hb_kernel : list Z) (hb_shift ifrate : Z)
  (cfg : ParseInt.cstring) (sched : list action) :
  forallb quiet sched = true ->
  let s := run hb_kernel hb_shift ifrate sched (init cfg) in
  stop_flag s = false /\ in_loop (mpc s) = true /\ opc s <> O_Done /\
  dev_running s = true /\ m_end_marked (output_buffer s) = false /\
  exit_code s = None.
Proof.
  intros Hq s.
  assert (H : streaming s).
  { unfold s. apply streaming_run; [|exact Hq].
    constructor; cbn; auto; discriminate. }
  destruct H; auto 10.
Qed.

Lemma daemon_keeps_streaming_witness :
  let s := run kernel6 7 48000
             ([Env (DevPush (v4 1)); Env (DevPush (v4 2))]
              ++ repeat Main 7 ++ repeat Out 3)
             (init []) in
  stop_flag s = false /\ in_loop (mpc s) = true /\ opc s <> O_Done /\
  dev_running s = true /\ m_end_marked (output_buffer s) = false /\
  exit_code s = None.
Proof.
  apply (daemon_keeps_streaming kernel6 7 48000 []
           ([Env (DevPush (v4 1)); Env (DevPush (v4 2))]
            ++ repeat Main 7 ++ repeat Out 3)).
  reflexivity.
Defined.

(** Where the output thread can have returned. *)
Record out_ends (s : sys) : Prop := mkOutEnds {
  oe_done :
    opc s = O_Done ->
    stop_flag s = true \/ m_end_marked (output_buffer s) = true;
  oe_marked :
    m_end_marked (output_buffer s) = true -> past_push_end (mpc s) = true
}.

Lemma out_ends_step (hb_kernel : list Z) (hb_shift ifrate : Z)
  (a : action) (s : sys) :
  out_ends s -> out_ends (step hb_kernel hb_shift ifrate a s).
Proof.
  intros [Hd Hm].
  assert (Hpull : forall v b',
             pull (output_buffer s) = Some (v, b') ->
             m_end_marked b' = m_end_marked (output_buffer s))
    by (intros v b'; apply pull_end_marked).
  assert (Hreach : pull_end_reached (output_buffer s) = true ->
                   m_end_marked (output_buffer s) = true).
  { unfold pull_end_reached. now destruct (m_queue (output_buffer s)). }
  destruct a as [| |[n|v|]];
    unfold step, main_step, out_step, env_step, set_main, set_out;
    rewrite ?outputbuf_on;
    repeat match goal with
           | |- context [match ?x with _ => _ end] => destruct x eqn:?
           end;
    constructor;
    cbn [opc stop_flag output_buffer mpc m_end_marked push push_end
         past_push_end] in *;
    repeat match goal with
           | H : mpc s = _ |- _ => rewrite H in *
           | H : opc s = _ |- _ => rewrite H in *
           end;
    cbn [past_push_end] in *;
    try match goal with
        | H : pull (output_buffer s) = Some (?i, ?d) |- _ =>
            rewrite (Hpull i d eq_refl)
        end;
    intuition (try discriminate; try congruence).
Qed.

(** X11.  The output thread returns only on a stop request or at the end
    of the stream: in every run, if [write_output_data] has returned then
    the stop flag is set or [main] has left its loop and signalled the
    end of the output buffer; and the end of the output buffer is only
    ever signalled by [main] after its loop. *)
Theorem output_thread_ends_late (hb_kernel : list Z) (hb_shift ifrate : Z)
  (cfg : ParseInt.cstring) (sched : list action) :
  let s := run hb_kernel hb_shift ifrate sched (init cfg) in
  (opc s = O_Done -> stop_flag s = true \/ past_push_end (mpc s) = true) /\
  (m_end_marked (output_buffer s) = true -> past_push_end (mpc s) = true).
Proof.
  intros s.
  assert (H : out_ends s).
  { unfold s. apply run_invariant.
    - intros a t. apply out_ends_step.
    - constructor; cbn; discriminate. }
  destruct H as [Hd Hm]. split; [|exact Hm].
  intros Ho. destruct (Hd Ho) as [Hf | He]; [now left | right; auto].
Qed.

End DaemonFacts.

(** ** [adjust_gain] of main.cpp *)

Module Gain.

Local Open Scope Z_scope.

Section AdjustGain.

(** The sample type and its product with a [double] are those of
    SDRDaemon.h. *)
Variable Sample : Type.
Variable double : Type.
Variable mul : Sample -> double -> Sample.

Definition SampleVector : Type := list Sample.

(** [samples[i] *= gain] *)
Definition scale_at (samples : SampleVector) (i : nat) (gain : double)
  : SampleVector :=
  match nth_error samples i with
  | Some x => firstn i samples ++ mul x gain :: skipn (S i) samples
  | None => samples
  end.

(** The loop [for (i = ...; i < n; i++)] with [todo] iterations left. *)
Fixpoint adjust_loop (todo i : nat) (samples : SampleVector) (gain : double)
  : SampleVector :=
  match todo with
  | O => samples
  | S todo' => adjust_loop todo' (S i) (scale_at samples i gain) gain
  end.

(** [void adjust_gain(SampleVector& samples, double gain)]: the bound [n]
    is [samples.size()] stored into an [unsigned int]. *)
Definition adjust_gain (samples : SampleVector) (gain : double)
  : SampleVector :=
  let n := Z.to_nat (Z.of_nat (length samples) mod 2 ^ 32) in
  adjust_loop n 0 samples gain.

Lemma scale_at_app (done rest : SampleVector) (x : Sample) (gain : double) :
  scale_at (done ++ x :: rest) (length done) gain =
  (done ++ [mul x gain]) ++ rest.
Proof.
  unfold scale_at.
  rewrite nth_error_app2, Nat.sub_diag by lia. cbn [nth_error].
  rewrite (Packaging.firstn_exact (length done) done (x :: rest) eq_refl).
  replace (done ++ x :: rest) with ((done ++ [x]) ++ rest)
    by now rewrite <- app_assoc.
  rewrite (Packaging.skipn_exact (S (length done)) (done ++ [x]) rest)
    by (rewrite length_app; cbn; lia).
  now rewrite <- app_assoc.
Qed.

Lemma adjust_loop_spec (todo : nat) :
  forall (done rest : SampleVector) (gain : double),
    (todo <= length rest)%nat ->
    adjust_loop todo (length done) (done ++ rest) gain =
    done ++ map (fun x => mul x gain) (firstn todo rest) ++ skipn todo rest.
Proof.
  induction todo as [|todo IH]; intros done rest gain H; [reflexivity|].
  destruct rest as [|x rest]; [cbn in H; lia|].
  cbn [adjust_loop]. rewrite scale_at_app.
  replace (S (length done)) with (length (done ++ [mul x gain]))
    by (rewrite length_app; cbn; lia).
  rewrite IH by (cbn in H; lia).
  cbn [firstn skipn map]. now rewrite <- app_assoc.
Qed.

(** X12.  [adjust_gain] keeps the length of the vector and multiplies by
    the gain the first [size mod 2^32] samples, each one once, leaving
    the others as they are; a vector of fewer than 2^32 samples is scaled
    throughout. *)
Theorem adjust_gain_scales (samples : SampleVector) (gain : double) :
  let n := Z.to_nat (Z.of_nat (length samples) mod 2 ^ 32) in
  adjust_gain samples gain =
    map (fun x => mul x gain) (firstn n samples) ++ skipn n samples /\
  length (adjust_gain samples gain) = length samples /\
  (Z.of_nat (length samples) < 2 ^ 32 ->
   adjust_gain samples gain = map (fun x => mul x gain) samples).
Proof.
  intros n.
  assert (Hn : (n <= length samples)%nat).
  { unfold n.
    pose proof (Z.mod_pos_bound (Z.of_nat (length samples)) (2 ^ 32)
                  eq_refl) as Hb.
    pose proof (Z.mod_le (Z.of_nat (length samples)) (2 ^ 32)
                  (Nat2Z.is_nonneg _) eq_refl) as Hl.
    lia. }
  assert (E : adjust_gain samples gain =
              map (fun x => mul x gain) (firstn n samples)
              ++ skipn n samples).
  { unfold adjust_gain. fold n.
    exact (adjust_loop_spec n [] samples gain Hn). }
  split; [exact E|]. split.
  - rewrite E, length_app, length_map, <- length_app, firstn_skipn.
    reflexivity.
  - intros Hs. rewrite E.
    assert (En : n = length samples).
    { unfold n. rewrite Z.mod_small by lia. apply Nat2Z.id. }
    rewrite En, firstn_all, skipn_all. apply app_nil_r.
Qed.

End AdjustGain.

Example adjust_gain_integers :
  adjust_gain Z Z Z.mul [3; -5; 0; 12] 4 = [12; -20; 0; 48].
Proof. reflexivity. Qed.

End Gain.

(** ** The signal handler is installed for one delivery *)

Module Signals.

Import Downsample DataBuf Daemon.
Local Open Scope Z_scope.

(** The two signals [main] installs [handle_sigterm] for. *)
Inductive signal : Type := INT | TERM.

Definition signum (sg : signal) : Z :=
  match sg with
  | INT => Startup.SIGINT
  | TERM => Startup.SIGTERM
  end.

(** The process: its threads, the disposition of the two signals (true
    while [handle_sigterm] is installed) and the signal whose default
    action has ended it.  [main] sets [sa_flags = SA_RESETHAND]: the
    disposition goes back to the default when the handler is entered,
    and the default action of SIGINT and of SIGTERM ends the process. *)
Record process : Type := mkProcess {
  threads : sys;
  on_int : bool;
  on_term : bool;
  killed_by : option signal
}.

Inductive paction : Type :=
  | Thread (a : action)       (* a step of a thread, or of the device *)
  | Deliver (sg : signal).    (* a signal is delivered to the process *)

Definition installed (sg : signal) (p : process) : bool :=
  match sg with
  | INT => on_int p
  | TERM => on_term p
  end.

Definition alive (p : process) : bool :=
  match killed_by p, exit_code (threads p) with
  | None, None => true
  | _, _ => false
  end.

Section Run.

Variable hb_kernel : list Z.
Variable hb_shift : Z.
Variable ifrate : Z.

(** The process when the main loop is entered; each flag tells whether
    the call of [sigaction] succeeded. *)
Definition started (int_ok term_ok : bool) (cfg : ParseInt.cstring)
  : process :=
  mkProcess (init cfg) int_ok term_ok None.

Definition deliver (sg : signal) (p : process) : process :=
  if installed sg p then
    mkProcess
      (step hb_kernel hb_shift ifrate (Env (Signal (signum sg))) (threads p))
      (match sg with INT => false | TERM => on_int p end)
      (match sg with INT => on_term p | TERM => false end)
      None
  else mkProcess (threads p) (on_int p) (on_term p) (Some sg).

Definition pstep (a : paction) (p : process) : process :=
  if alive p then
    match a with
    | Thread (Env (Signal _)) => p     (* signals come by [Deliver] *)
    | Thread a =>
        mkProcess (step hb_kernel hb_shift ifrate a (threads p))
                  (on_int p) (on_term p) None
    | Deliver sg => deliver sg p
    end
  else p.

Definition prun (sched : list paction) (p : process) : process :=
  fold_left (fun p a => pstep a p) sched p.

End Run.

(** The runs of [handle_sigterm] for a signal, in a trace. *)
Definition handled (sg : signal) (t : list event) : nat :=
  length (filter (fun e => match e with
                           | EvSignal n => n =? signum sg
                           | _ => false
                           end) t).

Section RunFacts.

Variable hb_kernel : list Z.
Variable hb_shift : Z.
Variable ifrate : Z.

Local Abbreviation pstep := (pstep hb_kernel hb_shift ifrate).
Local Abbreviation prun := (prun hb_kernel hb_shift ifrate).

Lemma prun_app (a b : list paction) (p : process) :
  prun (a ++ b) p = prun b (prun a p).
Proof. apply fold_left_app. Qed.

Lemma prun_invariant (P : process -> Prop) :
  (forall a p, P p -> P (pstep a p)) ->
  forall sched p, P p -> P (prun sched p).
Proof.
  intros Hstep sched. induction sched as [|a l IH]; intros p Hp.
  - exact Hp.
  - cbn [Signals.prun fold_left]. apply IH, Hstep, Hp.
Qed.

(** A step of a thread or of the device does not run the handler. *)
Lemma thread_step_handled (a : action) (s : sys) (sg : signal) :
  match a with Env (Signal _) => False | _ => True end ->
  handled sg (trace (step hb_kernel hb_shift ifrate a s)) =
  handled sg (trace s).
Proof.
  intros Ha. destruct a as [| |[n|v|]]; try contradiction; clear Ha;
    step_cases; reflexivity.
Qed.

(** Budget of the handler: it has run at most once per signal, and not
    at all while it is still installed. *)
Definition one_shot (p : process) : Prop :=
  forall sg,
    (handled sg (trace (threads p)) + (if installed sg p then 1 else 0)
     <= 1)%nat.

Lemma handled_cons (sg : signal) (n : Z) (t : list event) :
  handled sg (EvSignal n :: t) =
  ((if (n =? signum sg)%Z then 1 else 0) + handled sg t)%nat.
Proof. unfold handled. cbn [filter]. now destruct (n =? signum sg). Qed.

Lemma one_shot_step (a : paction) (p : process) :
  one_shot p -> one_shot (pstep a p).
Proof.
  intros H. unfold Signals.pstep. destruct (alive p); [|exact H].
  destruct a as [a | sg'].
  - destruct a as [| |[n|v|]]; try exact H; intros sg;
      cbn [threads installed on_int on_term];
      rewrite thread_step_handled by exact I;
      specialize (H sg); now destruct sg.
  - unfold deliver. destruct (installed sg' p) eqn:Ei; [|exact H].
    intros sg. cbn [threads step env_step trace].
    rewrite handled_cons.
    pose proof (H sg) as Hsg. pose proof (H sg') as Hsg'.
    rewrite Ei in Hsg'.
    destruct sg, sg'; cbn [installed on_int on_term signum] in *;
      change (Startup.SIGINT =? Startup.SIGINT) with true;
      change (Startup.SIGTERM =? Startup.SIGTERM) with true;
      change (Startup.SIGINT =? Startup.SIGTERM) with false;
      change (Startup.SIGTERM =? Startup.SIGINT) with false;
      cbv iota; try lia.
Qed.

Lemma one_shot_run (int_ok term_ok : bool) (cfg : ParseInt.cstring)
  (sched : list paction) :
  one_shot (prun sched (started int_ok term_ok cfg)).
Proof.
  apply prun_invariant; [exact one_shot_step|].
  intros sg. cbn. destruct sg; [destruct int_ok | destruct term_ok];
    cbn; lia.
Qed.

(** Nothing happens in a process that has ended. *)
Lemma prun_ended (sched : list paction) (p : process) :
  alive p = false -> prun sched p = p.
Proof.
  intros H. induction sched as [|a l IH]; [reflexivity|].
  cbn [Signals.prun fold_left]. unfold Signals.pstep at 2. rewrite H.
  exact IH.
Qed.

(** X14.  [handle_sigterm] is installed with [SA_RESETHAND]: in every run
    it is entered at most once for SIGINT and at most once for SIGTERM.
    Once it has run for a signal, the next delivery of that signal to the
    running process ends it by the default action: the threads stay
    where they were, so nothing more is pushed or written, the end of
    the output buffer is not signalled and [main] does not return. *)
Theorem second_signal_kills (int_ok term_ok : bool) (cfg : ParseInt.cstring)
  (sched more : list paction) (sg : signal) :
  let p := prun sched (started int_ok term_ok cfg) in
  let q := prun (Deliver sg :: more) p in
  (handled sg (trace (threads p)) <= 1)%nat /\
  (handled sg (trace (threads p)) = 1%nat -> installed sg p = false) /\
  (alive p = true -> installed sg p = false ->
   killed_by q = Some sg /\ threads q = threads p /\
   exit_code (threads q) = None /\ alive q = false).
Proof.
  intros p q.
  pose proof (one_shot_run int_ok term_ok cfg sched sg) as H. fold p in H.
  split; [lia|]. split.
  - intros E. rewrite E in H. destruct (installed sg p); [lia | reflexivity].
  - intros Ha Hi.
    assert (E1 : pstep (Deliver sg) p =
                 mkProcess (threads p) (on_int p) (on_term p) (Some sg)).
    { unfold Signals.pstep. rewrite Ha. unfold deliver. now rewrite Hi. }
    assert (Eq : q = mkProcess (threads p) (on_int p) (on_term p) (Some sg)).
    { unfold q. change (prun (Deliver sg :: more) p)
        with (prun more (pstep (Deliver sg) p)).
      rewrite E1. now apply prun_ended. }
    rewrite Eq. cbn [killed_by threads]. unfold alive in Ha |- *.
    cbn [killed_by].
    destruct (killed_by p); [discriminate|].
    destruct (exit_code (threads p)); [discriminate|]. auto.
Qed.





End RunFacts.

(** Two vectors go through the loop, SIGINT stops it, and a second SIGINT
    arrives while [main] is in its shutdown sequence: the vector in the
    output buffer is never written. *)
Example sigint_twice :
  let sched :=
    [Thread (Env (DevPush (v4 1))); Thread (Env (DevPush (v4 2)))]
    ++ repeat (Thread Main) 6
    ++ [Deliver INT; Thread Main; Thread Main; Deliver INT;
        Thread Main; Thread Out; Thread Main] in
  let p := prun kernel6 7 48000 sched (started true true []) in
  killed_by p = Some INT /\ exit_code (threads p) = None /\
  rev (trace (threads p)) =
  [EvCheck 8; EvIter 0 (v4 1) (v4 1);
   EvCheck 4; EvIter 1 (v4 2) (v4 2); EvPush (v4 2);
   EvSignal 2; EvDevStop] /\
  written (threads p) = [] /\
  m_queue (output_buffer (threads p)) = [v4 2].
Proof. vm_compute. repeat split. Qed.

End Signals.

(** ** How the process ends *)

Module Program.

Import ParseInt Startup.
Local Open Scope Z_scope.


Section Main.

Local Set Default Proof Using "Type".

Variable double : Type.
Variable parse_dbl : cstring -> double -> bool * double.
Variable dbl_negative : double -> bool.
Variable dbl_minus_one : double.
Variables LONG_MIN LONG_MAX : Z.
Variable get_device_names : devkind -> list cstring -> list cstring.
Variable sigaction_error : Z -> option cstring.
Variable udp_error : Z -> option cstring.
Variable source_error : Source -> option cstring.
Variable configure_error : Source -> cstring -> option cstring.
Variable start_error : Source -> cstring.
Variables configured_frequency frequency sample_rate : Source -> double.

(** The kernel of the decimator and the sample rate, as the loop of
    [main] uses them. *)
Variable hb_kernel : list Z.
Variable hb_shift : Z.
Variable ifrate : Z.

Definition start (rets : list getopt_ret) (more_args : bool)
  : result double (options double * Source) :=
  main_start double parse_dbl dbl_negative dbl_minus_one LONG_MIN LONG_MAX
    get_device_names sigaction_error udp_error source_error configure_error
    start_error configured_frequency frequency sample_rate rets more_args [].





End Main.

End Program.
